(** * The commission propagation engine of the New Launch payout editor

    A shallow embedding of the amount-resolution code of the repository:

    - [FlowchartCanvas]: the free-form node/edge engine
      ([calculateNodeAmounts] of [src/components/flowchart-canvas.tsx], the
      same text in the second canvas component) and its node mutations;
    - [PayoutSchema]: the static template tree ([@/lib/payout-schema]);
    - [PayoutTree]: the template-driven engine, the derived display amount,
      sibling reordering and dynamic child expansion of the tree editor;
    - [CommissionFlowDiagram]: the read-only diagram's display amount;
    - [PayoutTreeEditing]: the value, payout, incentive, inspection and
      breadcrumb handlers of the tree editor;
    - [CanvasEditing]: the drag, connect, save and duplicate handlers of
      the canvas;
    - [CanvasImport]: the canvas built from the data of the tree editor.

    JavaScript numbers are IEEE 754 binary64 values and are modelled by
    Rocq's primitive floats, so that every concrete amount below is the
    amount the program computes; the count of leads typed into the tree
    editor is such a number too, whole or not.  The memo of the canvas
    engine is a plain object: the model keeps its own properties in a
    finite map, reads it through [FlowchartCanvas.read], which also finds
    the members inherited from [Object.prototype], and writes it through
    [FlowchartCanvas.write], which stores nothing under [__proto__].  The
    tables of the tree editor are finite maps; they are indexed by the ids
    of the template and of the generated leads, none of which names a
    member of [Object.prototype].  Labels are strings of UTF-8 bytes. *)

From Stdlib Require Import ZArith Uint63 PrimFloat SpecFloat FloatOps.
From Stdlib Require FloatAxioms.
From stdpp Require Import gmap strings list fin_maps relations pretty.

Set Warnings "-inexact-float,-clear-no-such-hyp".
Set Default Proof Using "Type".

(* ===================================================================== *)
(** ** JavaScript numbers *)
(* ===================================================================== *)

Module JS.

Abbreviation number := float.

(** The number denoted by an integer literal or an integer counter. *)
Definition of_Z (z : Z) : number :=
  if (z <? 0)%Z then PrimFloat.opp (PrimFloat.of_uint63 (Uint63.of_Z (- z)))
  else PrimFloat.of_uint63 (Uint63.of_Z z).

Definition of_nat (n : nat) : number := of_Z (Z.of_nat n).

(** [Math.round]: the integer nearest to [x], ties towards +infinity;
    NaN, the infinities, the zeros and integral values are returned as
    they are, and a negative argument that rounds to zero gives -0.  The
    rounding is made on the exact value [(-1)^s * m * 2^e] of the
    argument. *)
Definition Math_round (x : number) : number :=
  match Prim2SF x with
  | S754_finite s m e =>
      if (0 <=? e)%Z then x
      else
        let k := (- e)%Z in
        let num := if s then (2 ^ k - 2 * Z.pos m)%Z
                   else (2 * Z.pos m + 2 ^ k)%Z in
        let n := (num / 2 ^ (k + 1))%Z in
        if (n =? 0)%Z
        then (if s then PrimFloat.neg_zero else PrimFloat.zero)
        else of_Z n
  | _ => x
  end.

(** The integer part of a finite number above 0, from its exact value
    [m * 2^e]; 0 for every other number. *)
Definition whole (x : number) : Z :=
  match Prim2SF x with
  | S754_finite false m e =>
      if (0 <=? e)%Z then (Z.pos m * 2 ^ e)%Z else (Z.pos m / 2 ^ (- e))%Z
  | _ => 0%Z
  end.

(** [x > 0]. *)
Definition gt0 (x : number) : bool := PrimFloat.ltb PrimFloat.zero x.

(** Truthiness of a number: false for 0, -0 and NaN. *)
Definition truthy (x : number) : bool :=
  negb (PrimFloat.eqb x PrimFloat.zero || PrimFloat.is_nan x).

(** [x || d] on numbers. *)
Definition or_else (x d : number) : number := if truthy x then x else d.

(** [xs.reduce((sum, val) => sum + val, 0)]. *)
Definition sum (xs : list number) : number :=
  fold_left (fun sum val => PrimFloat.add sum val) xs PrimFloat.zero.

(** Truthiness of a [string | null | undefined] value. *)
Definition truthy_str (s : option string) : bool :=
  match s with
  | Some s => negb (bool_decide (s = ""))
  | None => false
  end.

(** The idiom [Math.round(v * 100) / 100] used at every node. *)
Definition round2 (v : number) : number :=
  PrimFloat.div (Math_round (PrimFloat.mul v 100)) 100.

End JS.

Open Scope float_scope.

(* ===================================================================== *)
(** ** Mutable closure state and call-stack exhaustion *)
(* ===================================================================== *)

(** The resolvers are closures that mutate a memo object while they
    recurse.  [Eff.M St A] threads the state [St] through a computation
    that returns an [A]; [None] stands for a call stack that outgrew its
    fuel (a [RangeError] in the program). *)
Module Eff.

Definition M (St A : Type) : Type := St -> option (A * St).

#[export] Instance M_ret {St} : MRet (M St) := fun A a w => Some (a, w).

#[export] Instance M_bind {St} : MBind (M St) := fun A B k m w =>
  match m w with
  | Some (a, w') => k a w'
  | None => None
  end.

Definition overflow {St A} : M St A := fun _ => None.

(** [list.forEach(f)] *)
Fixpoint forEach {St A} (f : A -> M St unit) (l : list A) : M St unit :=
  match l with
  | [] => mret tt
  | a :: l => f a ;; forEach f l
  end.

End Eff.
Export Eff.

(* ===================================================================== *)
(** ** The free-form engine: [flowchart-canvas.tsx] *)
(* ===================================================================== *)

Module FlowchartCanvas.

Inductive AmountType := AT_percent | AT_fixed | AT_formula.

(** [FlowchartNode]; the fields that only drive rendering ([description],
    [width], [height], [category], [calculatedAmount]) are left out. *)
Record FlowchartNode := {
  id : string;
  label : string;
  x : JS.number;
  y : JS.number;
  amountType : AmountType;
  amountValue : JS.number;
  percentValues : option (list JS.number);
  fixedValues : option (list JS.number);
  percentValue : option JS.number;
  fixedValue : option JS.number;
  usePercent : bool;
  useFixed : bool;
  formula : option string;
  parentId : option string
}.

(** [FlowchartConnection]; its [id] is [conn_id] here. *)
Record FlowchartConnection := {
  conn_id : string;
  from : string;
  to : string
}.

(** *** A state and failure monad for the memo table and the console

    [compute] mutates the closure variable [amounts] and writes to the
    console.  [amounts] is a plain object created by [{}]: a read
    [amounts[k]] finds the own property [k] and, when there is none, the
    member that [Object.prototype] holds under that name. *)

(** The property names of [Object.prototype]. *)
Definition prototypeNames : list string :=
  ["constructor"; "__defineGetter__"; "__defineSetter__"; "hasOwnProperty";
   "__lookupGetter__"; "__lookupSetter__"; "isPrototypeOf";
   "propertyIsEnumerable"; "toString"; "valueOf"; "__proto__";
   "toLocaleString"].

Definition inherited (k : string) : bool :=
  bool_decide (k ∈ prototypeNames).

(** What [amounts[k]] yields when it is not [undefined]: a number that was
    stored, or a member of [Object.prototype] (a function, or under
    [__proto__] the prototype itself). *)
Inductive Value :=
| V_number (v : JS.number)
| V_member.

(** The number a value stands for in arithmetic: a function or an object
    without a numeric form counts as NaN. *)
Definition toNumber (v : Value) : JS.number :=
  match v with
  | V_number v => v
  | V_member => PrimFloat.nan
  end.

(** The own properties of [amounts] and the console. *)
Record World := {
  amounts : gmap string JS.number;
  console : list string
}.

Abbreviation M := (Eff.M World).

(** [amounts[k]] on the own properties [m]. *)
Definition read (m : gmap string JS.number) (k : string) : option Value :=
  match m !! k with
  | Some v => Some (V_number v)
  | None => if inherited k then Some V_member else None
  end.

(** [amounts[k] = v] on the own properties [m]: a new or changed own
    property, except under [__proto__], whose setter ignores a number. *)
Definition write (k : string) (v : JS.number) (m : gmap string JS.number)
  : gmap string JS.number :=
  if bool_decide (k = "__proto__") then m else <[k := v]> m.

(** [amounts[k]] *)
Definition get (k : string) : M (option Value) :=
  fun w => Some (read (amounts w) k, w).

(** [amounts[k] = v] *)
Definition set (k : string) (v : JS.number) : M unit :=
  fun w => Some (tt, {| amounts := write k v (amounts w);
                        console := console w |}).

(** [console.warn(msg)] *)
Definition warn (msg : string) : M unit :=
  fun w => Some (tt, {| amounts := amounts w;
                        console := console w ++ [msg] |}).

(** *** The rule of one node *)

(** [vs && vs.length > 0] *)
Definition nonempty (vs : option (list JS.number)) : option (list JS.number) :=
  match vs with
  | Some (v :: l) => Some (v :: l)
  | _ => None
  end.

(** The amount the first pass gives a node without a parent. *)
Definition rootAmount (node : FlowchartNode) : JS.number :=
  if useFixed node then
    match nonempty (fixedValues node), fixedValue node with
    | Some vs, _ => JS.sum vs
    | None, Some v => v
    | None, None =>
        match amountType node with
        | AT_fixed => amountValue node
        | _ => JS.or_else (amountValue node) 0
        end
    end
  else
    match amountType node with
    | AT_fixed => amountValue node
    | _ => JS.or_else (amountValue node) 0
    end.

(** The amount [compute] itself gives a node without a parent. *)
Definition rootAmount_compute (node : FlowchartNode) : JS.number :=
  if useFixed node then
    match nonempty (fixedValues node), fixedValue node with
    | Some vs, _ => JS.sum vs
    | None, Some v => v
    | None, None => JS.or_else (amountValue node) 0
    end
  else JS.or_else (amountValue node) 0.

Definition percentTotal (node : FlowchartNode) : JS.number :=
  if usePercent node then
    match nonempty (percentValues node), percentValue node with
    | Some vs, _ => JS.sum vs
    | None, Some v => v
    | None, None => 0
    end
  else 0.

Definition fixedTotal (node : FlowchartNode) : JS.number :=
  if useFixed node then
    match nonempty (fixedValues node), fixedValue node with
    | Some vs, _ => JS.sum vs
    | None, Some v => v
    | None, None => 0
    end
  else 0.

(** [calculated], from the parent's amount. *)
Definition calculated (node : FlowchartNode) (parentAmount : JS.number)
  : JS.number :=
  let percentTotal := percentTotal node in
  let fixedTotal := fixedTotal node in
  if usePercent node && useFixed node then
    let percentAmount := (parentAmount * percentTotal) / 100 in
    percentAmount + fixedTotal
  else if usePercent node && JS.gt0 percentTotal then
    (parentAmount * percentTotal) / 100
  else if useFixed node && JS.gt0 fixedTotal then
    fixedTotal
  else
    match amountType node with
    | AT_percent => (parentAmount * amountValue node) / 100
    | AT_fixed => amountValue node
    | AT_formula =>
        if JS.truthy_str (formula node) then amountValue node else 0
    end.

(** The amount stored for a node with a parent. *)
Definition share (node : FlowchartNode) (parentAmount : JS.number)
  : JS.number :=
  JS.round2 (calculated node parentAmount).

(** [nodeList.find((n) => n.id === nodeId)] *)
Definition findNode (nodeList : list FlowchartNode) (nodeId : string)
  : option FlowchartNode :=
  List.find (fun n => bool_decide (id n = nodeId)) nodeList.

Definition circular_warning (nodeId : string) : string :=
  "Circular reference detected for node: " +:+ nodeId.

(** *** [compute] and [calculateNodeAmounts] *)

(** [node.parentId] when it is truthy: [!node.parentId] holds for [null]
    and for the empty string. *)
Definition parentOf (node : FlowchartNode) : option string :=
  match parentId node with
  | Some p => if JS.truthy_str (Some p) then Some p else None
  | None => None
  end.

(** The branch of [compute] for a node without a parent. *)
Definition computeRoot (node : FlowchartNode) (nodeId : string)
  : M Value :=
  memo ← get nodeId;
  match memo with
  | None => set (id node) (rootAmount_compute node)
  | Some _ => mret tt
  end ;;
  res ← get nodeId;
  match res with
  | Some v => mret v
  | None => overflow
  end.

Section Engine.
Variable nodeList : list FlowchartNode.

(** [compute(nodeId, path)]; the amount of the parent enters the rule of
    a node through arithmetic only. *)
Fixpoint compute (fuel : nat) (nodeId : string) (path : gset string)
  : M Value :=
  match fuel with
  | O => overflow
  | S fuel =>
    if bool_decide (nodeId ∈ path) then
      warn (circular_warning nodeId) ;;
      set nodeId 0 ;;
      mret (V_number 0)
    else
      memo ← get nodeId;
      match memo with
      | Some v => mret v
      | None =>
        match findNode nodeList nodeId with
        | None => set nodeId 0 ;; mret (V_number 0)
        | Some node =>
          match parentOf node with
          | None => computeRoot node nodeId
          | Some parent =>
            let newPath := path ∪ {[nodeId]} in
            parentAmount ← compute fuel parent newPath;
            let v := share node (toNumber parentAmount) in
            set nodeId v ;;
            mret (V_number v)
          end
        end
      end
  end.

(** The first pass: every node without a parent gets its own amount. *)
Definition seedRoot (node : FlowchartNode) : M unit :=
  match parentOf node with
  | None => set (id node) (rootAmount node)
  | Some _ => mret tt
  end.

(** A call stack deep enough for every chain of distinct nodes. *)
Definition stack : nat := S (length nodeList).

Definition resolveAll : M unit :=
  forEach seedRoot nodeList ;;
  forEach (fun node => compute stack (id node) ∅ ;; mret tt) nodeList.

End Engine.

(** [calculateNodeAmounts(nodeList)]: a fresh [amounts] object per call,
    returned with its own properties; the console is the only thing that
    outlives the call. *)
Definition calculateNodeAmounts (nodeList : list FlowchartNode)
    (console0 : list string)
  : option (gmap string JS.number * list string) :=
  match resolveAll nodeList {| amounts := ∅; console := console0 |} with
  | Some (_, w) => Some (amounts w, console w)
  | None => None
  end.

(** *** Node mutations of the canvas *)

(** The component state the mutations below read and write. *)
Record Canvas := {
  nodes : list FlowchartNode;
  connections : list FlowchartConnection;
  selectedNode : option string
}.

Definition setParentId (p : option string) (node : FlowchartNode)
  : FlowchartNode :=
  {| id := id node; label := label node; x := x node; y := y node;
     amountType := amountType node; amountValue := amountValue node;
     percentValues := percentValues node; fixedValues := fixedValues node;
     percentValue := percentValue node; fixedValue := fixedValue node;
     usePercent := usePercent node; useFixed := useFixed node;
     formula := formula node; parentId := p |}.

(** [handleDeleteNode(nodeId)] *)
Definition handleDeleteNode (nodeId : string) (st : Canvas) : Canvas :=
  {| nodes := List.filter (fun n => negb (bool_decide (id n = nodeId)))
                          (nodes st);
     connections :=
       List.filter (fun c => negb (bool_decide (from c = nodeId))
                             && negb (bool_decide (to c = nodeId)))
                   (connections st);
     selectedNode :=
       if bool_decide (selectedNode st = Some nodeId) then None
       else selectedNode st |}.

(** [handleDeleteConnection(connectionId)] *)
Definition handleDeleteConnection (connectionId : string) (st : Canvas)
  : Canvas :=
  let connection :=
    List.find (fun c => bool_decide (conn_id c = connectionId))
              (connections st) in
  {| nodes :=
       match connection with
       | Some connection =>
           List.map (fun node =>
                       if bool_decide (id node = to connection)
                       then setParentId None node else node)
                    (nodes st)
       | None => nodes st
       end;
     connections :=
       List.filter (fun c => negb (bool_decide (conn_id c = connectionId)))
                   (connections st);
     selectedNode := selectedNode st |}.

End FlowchartCanvas.

(* ===================================================================== *)
(** ** The template tree: [@/lib/payout-schema] *)
(* ===================================================================== *)

Module PayoutSchema.

Inductive Kind := standard | group.

(** [NodeTemplate]; [description] and [accent] only drive rendering and
    are left out. *)
Record NodeTemplate := {
  id : string;
  label : string;
  defaultPercent : option JS.number;
  defaultFixed : option JS.number;
  childIds : option (list string);
  kind : option Kind
}.

Definition rootNodeId : string := "developerPayout".

Definition template (i l : string) (p f : option JS.number)
    (c : option (list string)) (k : option Kind) : string * NodeTemplate :=
  (i, {| id := i; label := l; defaultPercent := p; defaultFixed := f;
         childIds := c; kind := k |}).

(** [payoutNodes], in the order of its keys. *)
Definition payoutNodes : list (string * NodeTemplate) := [
  template "developerPayout" "Developer Payout" None None
    (Some ["directIcb"; "taggerCombined"; "eraAgency"]) None;
  template "directIcb" "Direct ICB 2.0% + 0.2%" (Some 0.022) None
    (Some ["ecb"; "icb"]) None;
  template "ecb" "ECB 1.7%" (Some (1.7 / 2.2)) None None None;
  template "icb" "ICB 0.3% + 0.2%" (Some (0.5 / 2.2)) None None None;
  template "taggerFee" "Tagger Fee 0.3%" (Some 0.003) None
    (Some ["taggerKw"; "taggerEra"]) None;
  template "taggerCombined" "Tagger Fee 0.3% + Incentive" (Some 0) None
    (Some ["taggerFee"; "taggerIncentive"]) (Some group);
  template "taggerIncentive" "Tagger Fee (Incentive)" None (Some 2000)
    (Some ["taggerIncentiveSpecialist"; "taggerIncentiveEra"]) None;
  template "taggerKw" "KW 85%" (Some 0.85) None
    (Some ["projectSpecialist"; "newLaunchTeam"; "kwHq"]) None;
  template "taggerEra" "ERA 15%" (Some 0.15) None None None;
  template "taggerIncentiveSpecialist" "Project Specialist 85%" (Some 0.85)
    None None None;
  template "taggerIncentiveEra" "ERA 15%" (Some 0.15) None None None;
  template "eraAgency" "ERA Agency 0.5%" (Some 0.005) None None None;
  template "referralFee" "Referral Fee" (Some 0) None
    (Some ["referralAgent"; "referralEra"]) None;
  template "referralAgent" "Referral Agent" (Some 0.7) None None None;
  template "referralEra" "ERA Referral Share" (Some 0.3) None None None;
  template "overrideCommission" "Override Commission" (Some 0) None
    (Some ["overrideManager"; "overrideTeam"]) None;
  template "overrideManager" "Manager Override" (Some 0.6) None None None;
  template "overrideTeam" "Team Override" (Some 0.4) None None None;
  template "projectSpecialist" "Project Specialist 65%" (Some 0.65) None
    None None;
  template "newLaunchTeam" "New Launch IC Team 20%" (Some 0.2) None
    (Some ["projectDirector"; "projectLeads"]) None;
  template "kwHq" "KW HQ 15%" (Some 0.15) None None None;
  template "projectDirector" "Project Director 50%" (Some 0.5) None
    None None;
  template "projectLeads" "Project Leads (IC) 50%" (Some 0.5) None
    (Some ["shirlyn"; "elizabeth"; "surya"; "benjamin"]) None;
  template "shirlyn" "Shirlyn Chin" (Some 0.25) None None None;
  template "elizabeth" "Elizabeth Mok" (Some 0.25) None None None;
  template "surya" "Surya Wijaya" (Some 0.25) None None None;
  template "benjamin" "Benjamin Heng" (Some 0.25) None None None
].

(** [payoutNodes[nodeId]] *)
Definition lookupNode (nodeId : string) : option NodeTemplate :=
  option_map snd
    (List.find (fun e => bool_decide (fst e = nodeId)) payoutNodes).

(** [Object.keys(payoutNodes)] and [Object.values(payoutNodes)] *)
Definition keys : list string := List.map fst payoutNodes.
Definition values : list NodeTemplate := List.map snd payoutNodes.

(** [buildParentMap()]: the root maps to [null], every child id to the
    template that lists it. *)
Definition buildParentMap : gmap string (option string) :=
  fold_left
    (fun map node =>
       fold_left (fun map childId => <[childId := Some (id node)]> map)
                 (default [] (childIds node)) map)
    values
    (<[rootNodeId := None]> ∅).

Definition parentMap : gmap string (option string) := buildParentMap.

(** [parentMap[nodeId]] when it is truthy. *)
Definition parentOf (nodeId : string) : option string :=
  match parentMap !! nodeId with
  | Some (Some p) => if JS.truthy_str (Some p) then Some p else None
  | _ => None
  end.

#[global] Arguments parentOf : simpl never.
#[global] Arguments lookupNode : simpl never.

End PayoutSchema.

(* ===================================================================== *)
(** ** The template-driven engine and the tree editor *)
(* ===================================================================== *)

Module PayoutTree.
Import PayoutSchema.

(** An entry of [nodeValues]; a field may be missing at run time, which
    the code covers with the defaults [percent = 0, fixed = 0]. *)
Record NodeValue := {
  percent : option JS.number;
  fixed : option JS.number
}.

(** [const { percent = 0 } = nodeValues[nodeId] ?? {}] *)
Definition percentOf (nodeValues : gmap string NodeValue) (nodeId : string)
  : JS.number :=
  default 0 (nodeValues !! nodeId ≫= percent).

(** [const { fixed = 0 } = nodeValues[nodeId] ?? {}] *)
Definition fixedOf (nodeValues : gmap string NodeValue) (nodeId : string)
  : JS.number :=
  default 0 (nodeValues !! nodeId ≫= fixed).

(** An object whose key order is observed ([Object.keys]); writing an
    existing key keeps its place, a new key goes last. *)
Fixpoint assign {V} (k : string) (v : V) (o : list (string * V))
  : list (string * V) :=
  match o with
  | [] => [(k, v)]
  | (k', v') :: o =>
      if bool_decide (k' = k) then (k, v) :: o else (k', v') :: assign k v o
  end.

Definition entry {V} (k : string) (o : list (string * V)) : option V :=
  option_map snd (List.find (fun e => bool_decide (fst e = k)) o).

Abbreviation M := (Eff.M (gmap string JS.number)).

(** [amounts[k]] and [amounts[k] = v] *)
Definition get (k : string) : M (option JS.number) :=
  fun amounts => Some (amounts !! k, amounts).

Definition set (k : string) (v : JS.number) : M unit :=
  fun amounts => Some (tt, <[k := v]> amounts).

Section Engine.
Variable developerPayout : JS.number.
Variable nodeValues : gmap string NodeValue.
Variable dynamicChildren : list (string * list string).

(** [compute]; the tree editor resolves [projectLeads] before a
    generated lead ([leadsFirst = true]), the diagram and the canvas
    import do not. *)
Fixpoint compute (leadsFirst : bool) (fuel : nat) (nodeId : string)
  : M JS.number :=
  match fuel with
  | O => overflow
  | S fuel =>
    memo ← get nodeId;
    match memo with
    | Some v => mret v
    | None =>
      let isDynamicChild := String.prefix "projectLeads_lead_" nodeId in
      if isDynamicChild then
        (if leadsFirst
         then compute leadsFirst fuel "projectLeads" ;; mret tt
         else mret tt) ;;
        let amount := JS.round2 (fixedOf nodeValues nodeId) in
        set nodeId amount ;;
        mret amount
      else
        match parentOf nodeId with
        | None => set nodeId 0 ;; mret 0
        | Some parentId =>
          parentAmount ← compute leadsFirst fuel parentId;
          let percent := percentOf nodeValues nodeId in
          let fixed := fixedOf nodeValues nodeId in
          if bool_decide (nodeId = "taggerFee")
             && bool_decide (parentId = "taggerCombined") then
            let amount := JS.round2 (developerPayout * percent + fixed) in
            set nodeId amount ;;
            mret amount
          else
            let amount := JS.round2 (parentAmount * percent + fixed) in
            set nodeId amount ;;
            mret amount
        end
    end
  end.

(** A call stack deep enough for every chain of the parent map. *)
Definition stack : nat := 2 + length payoutNodes.

Definition resolveAll (leadsFirst : bool) : M unit :=
  forEach (fun nodeId => compute leadsFirst stack nodeId ;; mret tt) keys ;;
  forEach (fun e : string * list string =>
             forEach (fun childId =>
                        compute leadsFirst stack childId ;; mret tt)
                     (snd e))
          dynamicChildren.

(** The [nodeAmounts] memo of the component. *)
Definition nodeAmounts (leadsFirst : bool)
  : option (gmap string JS.number) :=
  match resolveAll leadsFirst (<[rootNodeId := developerPayout]> ∅) with
  | Some (_, amounts) => Some amounts
  | None => None
  end.

(** [list.reduce((sum, childId) => sum + (nodeAmounts[childId] ?? 0), 0)] *)
Definition sumAmounts (nodeAmounts : gmap string JS.number)
    (l : list string) : JS.number :=
  fold_left (fun sum childId => sum + default 0 (nodeAmounts !! childId))
            l 0.

(** [getDisplayAmount(nodeId)] of the tree editor. *)
Definition getDisplayAmount (nodeAmounts : gmap string JS.number)
    (nodeId : string) : JS.number :=
  match lookupNode nodeId with
  | Some {| kind := Some group; childIds := c |} =>
      sumAmounts nodeAmounts (default [] c)
  | _ =>
      match nodeAmounts !! nodeId with
      | Some v => v
      | None =>
          if bool_decide (nodeId = rootNodeId) then developerPayout else 0
      end
  end.

End Engine.

(** *** The component state and its handlers *)

(** [buildInitialValues()] *)
Definition buildInitialValues : gmap string NodeValue :=
  fold_left
    (fun result node =>
       <[id node := {| percent := Some (default 0 (defaultPercent node));
                       fixed := Some (default 0 (defaultFixed node)) |}]>
         result)
    values ∅.

(** [buildInitialOrders()] *)
Definition buildInitialOrders : gmap string (list string) :=
  fold_left
    (fun entries node =>
       match childIds node with
       | Some (c :: l) => <[id node := c :: l]> entries
       | _ => entries
       end)
    values ∅.

Record DragInfo := {
  draggedNodeId : option string;
  overNodeId : option string;
  draggedHasChildren : option bool
}.

(** The state of [PayoutTree].  The text of the count field is kept as
    the number [Number(text)] that the submit handler reads from it,
    [None] standing for the empty text: the field takes any number, 2.5
    and 0.5 as well as 4.  The payout modal and [nodeNames] play no part
    in what follows and are left out. *)
Record State := {
  developerPayout : JS.number;
  nodeValues : gmap string NodeValue;
  childOrders : gmap string (list string);
  activeNodeId : string;
  showTreeView : bool;
  dragInfo : option DragInfo;
  projectLeadsTotal : gmap string JS.number;
  dynamicChildren : list (string * list string);
  isProjectLeadsModalOpen : bool;
  projectLeadsModalValue : option JS.number;
  pendingProjectLeadsNode : option string
}.

(** The [nodeAmounts] memo of a state. *)
Definition nodeAmountsOf (st : State) : option (gmap string JS.number) :=
  nodeAmounts (developerPayout st) (nodeValues st) (dynamicChildren st) true.

(** The amount the editor shows for a node. *)
Definition displayAmountOf (st : State) (nodeId : string)
  : option JS.number :=
  match nodeAmountsOf st with
  | Some amounts => Some (getDisplayAmount (developerPayout st) amounts nodeId)
  | None => None
  end.

(** [array.indexOf(x)], [None] for -1. *)
Fixpoint indexOf (x : string) (l : list string) : option nat :=
  match l with
  | [] => None
  | y :: l => if bool_decide (y = x) then Some 0%nat
              else option_map S (indexOf x l)
  end.

(** [arrayMove(array, from, to)] of dnd-kit, for indices within the
    array: the element at [from] is taken out and put back at [to]. *)
Definition arrayMove (array : list string) (from to : nat) : list string :=
  match array !! from with
  | Some x =>
      let rest := take from array ++ drop (S from) array in
      take to rest ++ x :: drop to rest
  | None => array
  end.

Record DragItem := {
  item_id : string;
  item_parentId : option string   (* [data.current?.parentId] *)
}.

Record DragEndEvent := {
  active : DragItem;
  over : option DragItem
}.

Definition openProjectLeadsModal (nodeId : string)
    (value : option JS.number)
    (st : State) : State :=
  {| developerPayout := developerPayout st; nodeValues := nodeValues st;
     childOrders := childOrders st; activeNodeId := activeNodeId st;
     showTreeView := showTreeView st; dragInfo := dragInfo st;
     projectLeadsTotal := projectLeadsTotal st;
     dynamicChildren := dynamicChildren st;
     isProjectLeadsModalOpen := true;
     projectLeadsModalValue := value;
     pendingProjectLeadsNode := Some nodeId |}.

(** [setActiveNodeId(nodeId); setShowTreeView(false)] *)
Definition navigate (nodeId : string) (st : State) : State :=
  {| developerPayout := developerPayout st; nodeValues := nodeValues st;
     childOrders := childOrders st; activeNodeId := nodeId;
     showTreeView := false; dragInfo := dragInfo st;
     projectLeadsTotal := projectLeadsTotal st;
     dynamicChildren := dynamicChildren st;
     isProjectLeadsModalOpen := isProjectLeadsModalOpen st;
     projectLeadsModalValue := projectLeadsModalValue st;
     pendingProjectLeadsNode := pendingProjectLeadsNode st |}.

Definition setDragInfo (d : option DragInfo) (st : State) : State :=
  {| developerPayout := developerPayout st; nodeValues := nodeValues st;
     childOrders := childOrders st; activeNodeId := activeNodeId st;
     showTreeView := showTreeView st; dragInfo := d;
     projectLeadsTotal := projectLeadsTotal st;
     dynamicChildren := dynamicChildren st;
     isProjectLeadsModalOpen := isProjectLeadsModalOpen st;
     projectLeadsModalValue := projectLeadsModalValue st;
     pendingProjectLeadsNode := pendingProjectLeadsNode st |}.

Definition setChildOrders (o : gmap string (list string)) (st : State)
  : State :=
  {| developerPayout := developerPayout st; nodeValues := nodeValues st;
     childOrders := o; activeNodeId := activeNodeId st;
     showTreeView := showTreeView st; dragInfo := dragInfo st;
     projectLeadsTotal := projectLeadsTotal st;
     dynamicChildren := dynamicChildren st;
     isProjectLeadsModalOpen := isProjectLeadsModalOpen st;
     projectLeadsModalValue := projectLeadsModalValue st;
     pendingProjectLeadsNode := pendingProjectLeadsNode st |}.

(** [!existingTotal || existingTotal === 0] *)
Definition noTotal (existingTotal : option JS.number) : bool :=
  match existingTotal with
  | Some total => negb (JS.truthy total) || PrimFloat.eqb total 0
  | None => true
  end.

(** [draggedNode?.childIds?.length || dynamicChildren[draggedNodeId]] *)
Definition hasBranch (st : State) (nodeId : string) : bool :=
  match lookupNode nodeId ≫= childIds with
  | Some (_ :: _) => true
  | _ => bool_decide (is_Some (entry nodeId (dynamicChildren st)))
  end.

(** [handleDragEnd(event)] *)
Definition handleDragEnd (event : DragEndEvent) (st : State) : State :=
  let st := setDragInfo None st in
  match over event with
  | None => st
  | Some over =>
    let draggedNodeId := item_id (active event) in
    let overNodeId := item_id over in
    let draggedParentId := item_parentId (active event) in
    if bool_decide (overNodeId = activeNodeId st)
       && bool_decide (draggedParentId = Some (activeNodeId st)) then
      (* dropped on the parent card *)
      if bool_decide (draggedNodeId = "projectLeads")
         && noTotal (projectLeadsTotal st !! draggedNodeId)
      then openProjectLeadsModal draggedNodeId None st
      else if hasBranch st draggedNodeId then navigate draggedNodeId st
      else st
    else
      (* reordering within the same parent *)
      let overParentId := item_parentId over in
      match draggedParentId with
      | Some parent =>
        if negb (JS.truthy_str draggedParentId)
           || negb (bool_decide (draggedParentId = overParentId))
           || negb (bool_decide (parent = activeNodeId st))
        then st
        else
          match childOrders st !! parent with
          | None => st
          | Some currentOrder =>
            match indexOf draggedNodeId currentOrder,
                  indexOf overNodeId currentOrder with
            | Some oldIndex, Some newIndex =>
                setChildOrders
                  (<[parent := arrayMove currentOrder oldIndex newIndex]>
                     (childOrders st)) st
            | _, _ => st
            end
          end
      | None => st
      end
  end.

(** The id [`${nodeId}_lead_${i}`]. *)
Definition leadId (nodeId : string) (i : nat) : string :=
  nodeId +:+ "_lead_" +:+ pretty i.

(** The ids with the numbers 1 to [n]. *)
Definition leadIds (nodeId : string) (n : nat) : list string :=
  List.map (leadId nodeId) (seq 1 n).

(** The rounds of [for (let i = 1; i <= total; i++)].  The counter takes
    the values 1, 2, 3, ..., each of them exact, and the comparison of two
    numbers is exact: the body runs for every whole number from 1 up to
    the integer part of [total], twice for 2.5 and never for 0.5.  [None]
    stands for a loop that does not complete: the array that it fills
    cannot hold 2^32 elements, and of an infinite [total] the counter
    never gets ahead. *)
Definition loopRounds (total : JS.number) : option nat :=
  if PrimFloat.is_finite total && (JS.whole total <? 2 ^ 32)%Z
  then Some (Z.to_nat (JS.whole total))
  else None.

(** The amount of the expandable node as the handler recomputes it. *)
Definition projectLeadsAmount (st : State)
    (nodeAmounts : gmap string JS.number) (nodeId : string) : JS.number :=
  let parentAmount :=
    match parentOf nodeId with
    | Some parentId =>
        let grandParentAmount :=
          match parentOf parentId with
          | Some parentParentId =>
              default (developerPayout st) (nodeAmounts !! parentParentId)
          | None => developerPayout st
          end in
        let parentPercent := percentOf (nodeValues st) parentId in
        let parentFixed := fixedOf (nodeValues st) parentId in
        grandParentAmount * parentPercent + parentFixed
    | None => developerPayout st
    end in
  let projectLeadsPercent :=
    default 0.5 (nodeValues st !! nodeId ≫= percent) in
  parentAmount * projectLeadsPercent.

(** The equal share written into every generated lead. *)
Definition sharePerLead (st : State) (nodeAmounts : gmap string JS.number)
    (nodeId : string) (total : JS.number) : JS.number :=
  JS.round2 (projectLeadsAmount st nodeAmounts nodeId / total).

(** [handleSubmitProjectLeadsModal()]; [nodeAmounts] is the memo of the
    render the handler closes over. *)
Definition handleSubmitProjectLeadsModal (st : State) : option State :=
  match nodeAmountsOf st with
  | None => None
  | Some nodeAmounts =>
    let total := JS.or_else (default 0 (projectLeadsModalValue st)) 0 in
    match pendingProjectLeadsNode st with
    | Some nodeId =>
      if JS.gt0 total && JS.truthy_str (Some nodeId) then
        match loopRounds total with
        | None => None
        | Some rounds =>
          let childIds := leadIds nodeId rounds in
          let share := sharePerLead st nodeAmounts nodeId total in
          Some
            {| developerPayout := developerPayout st;
               nodeValues :=
                 fold_left
                   (fun updated childId =>
                      <[childId := {| percent := Some 0;
                                      fixed := Some share |}]>
                        updated)
                   childIds (nodeValues st);
               childOrders := childOrders st;
               activeNodeId := nodeId;
               showTreeView := false;
               dragInfo := dragInfo st;
               projectLeadsTotal := <[nodeId := total]> (projectLeadsTotal st);
               dynamicChildren := assign nodeId childIds (dynamicChildren st);
               isProjectLeadsModalOpen := false;
               projectLeadsModalValue := None;
               pendingProjectLeadsNode := None |}
        end
      else Some st
    | None => Some st
    end
  end.

(** The amount [TreeView] shows in the row of a node of the breadcrumb
    path: [nodeAmounts[nodeId] ?? 0]. *)
Definition treeViewAmount (nodeAmounts : gmap string JS.number)
    (nodeId : string) : JS.number :=
  default 0 (nodeAmounts !! nodeId).

End PayoutTree.

(* ===================================================================== *)
(** ** The read-only diagram: [commission-flow-diagram.tsx] *)
(* ===================================================================== *)

Module CommissionFlowDiagram.
Import PayoutSchema.

Record CommissionFlowData := {
  developerPayout : JS.number;
  nodeValues : gmap string PayoutTree.NodeValue;
  projectLeadsTotal : gmap string JS.number;
  dynamicChildren : list (string * list string)
}.

(** The [nodeAmounts] memo: the resolver of the tree editor without the
    extra resolution of [projectLeads]. *)
Definition nodeAmounts (data : CommissionFlowData)
  : option (gmap string JS.number) :=
  PayoutTree.nodeAmounts (developerPayout data) (nodeValues data)
                         (dynamicChildren data) false.

(** [getDisplayAmount(nodeId)] *)
Definition getDisplayAmount (data : CommissionFlowData)
    (nodeAmounts : gmap string JS.number) (nodeId : string) : JS.number :=
  match lookupNode nodeId with
  | Some {| kind := Some group; childIds := c |} =>
      PayoutTree.sumAmounts nodeAmounts (default [] c)
  | _ =>
      match PayoutTree.entry nodeId (dynamicChildren data) with
      | Some children => PayoutTree.sumAmounts nodeAmounts children
      | None =>
          match nodeAmounts !! nodeId with
          | Some v => v
          | None =>
              if bool_decide (nodeId = rootNodeId) then developerPayout data
              else 0
          end
      end
  end.

End CommissionFlowDiagram.

(* ===================================================================== *)
(** ** The tree editor: values, payout, breadcrumb and inspection *)
(* ===================================================================== *)

Module PayoutTreeEditing.
Import PayoutSchema PayoutTree.

(** The [field] argument of [handleValueChange]. *)
Inductive Field := F_percent | F_fixed.

Definition setNodeValues (v : gmap string NodeValue) (st : State) : State :=
  {| developerPayout := developerPayout st; nodeValues := v;
     childOrders := childOrders st; activeNodeId := activeNodeId st;
     showTreeView := showTreeView st; dragInfo := dragInfo st;
     projectLeadsTotal := projectLeadsTotal st;
     dynamicChildren := dynamicChildren st;
     isProjectLeadsModalOpen := isProjectLeadsModalOpen st;
     projectLeadsModalValue := projectLeadsModalValue st;
     pendingProjectLeadsNode := pendingProjectLeadsNode st |}.

Definition setDeveloperPayout (v : JS.number) (st : State) : State :=
  {| developerPayout := v; nodeValues := nodeValues st;
     childOrders := childOrders st; activeNodeId := activeNodeId st;
     showTreeView := showTreeView st; dragInfo := dragInfo st;
     projectLeadsTotal := projectLeadsTotal st;
     dynamicChildren := dynamicChildren st;
     isProjectLeadsModalOpen := isProjectLeadsModalOpen st;
     projectLeadsModalValue := projectLeadsModalValue st;
     pendingProjectLeadsNode := pendingProjectLeadsNode st |}.

(** [{ ...prev[nodeId], [field]: v }] *)
Definition withField (prev : option NodeValue) (field : Field)
    (v : JS.number) : NodeValue :=
  match field with
  | F_percent => {| percent := Some v; fixed := prev ≫= fixed |}
  | F_fixed => {| percent := prev ≫= percent; fixed := Some v |}
  end.

(** [handleValueChange(nodeId, field, value)] *)
Definition handleValueChange (nodeId : string) (field : Field)
    (value : JS.number) (st : State) : State :=
  setNodeValues
    (<[nodeId := withField (nodeValues st !! nodeId) field
                   (if PrimFloat.is_finite value then value else 0)]>
       (nodeValues st))
    st.

(** [handleSubmitIncentiveModal()] of the card of [nodeId]; [parsed] is
    [Number(incentiveModalValue)]. *)
Definition handleSubmitIncentiveModal (nodeId : string) (parsed : JS.number)
    (st : State) : State :=
  let value := JS.or_else parsed 0 in
  if PrimFloat.leb 0 value then
    let targetNodeId :=
      if bool_decide (nodeId = "taggerCombined") then "taggerIncentive"
      else nodeId in
    handleValueChange targetNodeId F_fixed value st
  else st.

(** [handleSubmitModal()]; [parsed] is [Number(modalInputValue)]. *)
Definition handleSubmitModal (parsed : JS.number) (st : State) : State :=
  let value := JS.or_else parsed 0 in
  if JS.gt0 value then setDeveloperPayout value st else st.

(** The loop of [breadcrumbPath]: [while (cursor) { chain.unshift(cursor);
    cursor = parentMap[cursor] ?? null }]. *)
Fixpoint breadcrumbLoop (fuel : nat) (cursor : option string)
    (chain : list string) : option (list string) :=
  match fuel with
  | O => None
  | S fuel =>
      match cursor with
      | Some c =>
          if JS.truthy_str cursor
          then breadcrumbLoop fuel (default None (parentMap !! c)) (c :: chain)
          else Some chain
      | None => Some chain
      end
  end.

(** [breadcrumbPath]; [None] stands for a loop that does not end. *)
Definition breadcrumbPath (activeNodeId : string) : option (list string) :=
  breadcrumbLoop (2 + length payoutNodes) (Some activeNodeId) [].

(** A chain in which every element is the parent of the next one. *)
Fixpoint linked (chain : list string) : Prop :=
  match chain with
  | a :: (b :: _) as rest => parentOf b = Some a /\ linked rest
  | _ => True
  end.

(** [activeChildren] *)
Definition activeChildren (st : State) : list string :=
  match entry (activeNodeId st) (dynamicChildren st) with
  | Some children => children
  | None =>
      match childOrders st !! activeNodeId st with
      | Some order => order
      | None => default [] (lookupNode (activeNodeId st) ≫= childIds)
      end
  end.

(** [handleInspectNode(nodeId)] *)
Definition handleInspectNode (nodeId : string) (st : State) : State :=
  if bool_decide (nodeId = "projectLeads")
     && noTotal (projectLeadsTotal st !! nodeId)
  then openProjectLeadsModal nodeId None st
  else if hasBranch st nodeId then navigate nodeId st
  else st.

(** [setProjectLeadsModalValue(event.target.value)]; [text] is the number
    that the text of the field reads as, [None] for the empty text. *)
Definition typeProjectLeadsCount (text : option JS.number) (st : State)
  : State :=
  {| developerPayout := developerPayout st; nodeValues := nodeValues st;
     childOrders := childOrders st; activeNodeId := activeNodeId st;
     showTreeView := showTreeView st; dragInfo := dragInfo st;
     projectLeadsTotal := projectLeadsTotal st;
     dynamicChildren := dynamicChildren st;
     isProjectLeadsModalOpen := isProjectLeadsModalOpen st;
     projectLeadsModalValue := text;
     pendingProjectLeadsNode := pendingProjectLeadsNode st |}.

(** [handleOpenProjectLeadsModal(nodeId)]: the field shows
    [existingTotal ? String(existingTotal) : ""], a text that reads as
    [existingTotal] again. *)
Definition handleOpenProjectLeadsModal (nodeId : string) (st : State)
  : State :=
  openProjectLeadsModal nodeId
    match projectLeadsTotal st !! nodeId with
    | Some existingTotal =>
        if JS.truthy existingTotal then Some existingTotal else None
    | None => None
    end
    st.

(** [handleCloseProjectLeadsModal()] *)
Definition handleCloseProjectLeadsModal (st : State) : State :=
  {| developerPayout := developerPayout st; nodeValues := nodeValues st;
     childOrders := childOrders st; activeNodeId := activeNodeId st;
     showTreeView := showTreeView st; dragInfo := dragInfo st;
     projectLeadsTotal := projectLeadsTotal st;
     dynamicChildren := dynamicChildren st;
     isProjectLeadsModalOpen := false;
     projectLeadsModalValue := None;
     pendingProjectLeadsNode := None |}.

(** [handleDragStart(event)] *)
Definition handleDragStart (draggedNodeId : string) (st : State) : State :=
  let hasChildren :=
    match lookupNode draggedNodeId ≫= childIds with
    | Some (_ :: _) => true
    | _ => match entry draggedNodeId (dynamicChildren st) with
           | Some (_ :: _) => true
           | _ => false
           end
    end in
  setDragInfo (Some {| PayoutTree.draggedNodeId := Some draggedNodeId;
                       overNodeId := None;
                       draggedHasChildren := Some hasChildren |}) st.

(** [handleDragOver(event)] *)
Definition handleDragOver (event : DragEndEvent) (st : State) : State :=
  let prevHasChildren := dragInfo st ≫= draggedHasChildren in
  match over event with
  | None =>
      setDragInfo
        (option_map
           (fun prev => {| PayoutTree.draggedNodeId :=
                             PayoutTree.draggedNodeId prev;
                           overNodeId := None;
                           draggedHasChildren := draggedHasChildren prev |})
           (dragInfo st))
        st
  | Some over =>
      let draggedNodeId := item_id (active event) in
      let overNodeId := item_id over in
      let draggedParentId := item_parentId (active event) in
      let overParentId := item_parentId over in
      if bool_decide (overNodeId = activeNodeId st)
         && bool_decide (draggedParentId = Some (activeNodeId st))
         || bool_decide (draggedParentId = overParentId)
            && bool_decide (draggedParentId = Some (activeNodeId st))
            && negb (bool_decide (draggedNodeId = overNodeId))
      then
        setDragInfo (Some {| PayoutTree.draggedNodeId := Some draggedNodeId;
                             overNodeId := Some overNodeId;
                             draggedHasChildren := prevHasChildren |}) st
      else
        setDragInfo (Some {| PayoutTree.draggedNodeId := Some draggedNodeId;
                             overNodeId := None;
                             draggedHasChildren := prevHasChildren |}) st
  end.

(** [setShowTreeView(!showTreeView)] of the tree button. *)
Definition toggleTreeView (st : State) : State :=
  {| developerPayout := developerPayout st; nodeValues := nodeValues st;
     childOrders := childOrders st; activeNodeId := activeNodeId st;
     showTreeView := negb (showTreeView st); dragInfo := dragInfo st;
     projectLeadsTotal := projectLeadsTotal st;
     dynamicChildren := dynamicChildren st;
     isProjectLeadsModalOpen := isProjectLeadsModalOpen st;
     projectLeadsModalValue := projectLeadsModalValue st;
     pendingProjectLeadsNode := pendingProjectLeadsNode st |}.

(** The rows of [TreeView]: the ids of the breadcrumb path with the
    amounts shown for them. *)
Definition treeViewRows (st : State) : option (list (string * JS.number)) :=
  match breadcrumbPath (activeNodeId st), nodeAmountsOf st with
  | Some path, Some nodeAmounts =>
      Some (map (fun nodeId => (nodeId, treeViewAmount nodeAmounts nodeId))
                path)
  | _, _ => None
  end.

(** [handleBreadcrumbClick(nodeId)] *)
Definition handleBreadcrumbClick (nodeId : string) (st : State) : State :=
  navigate nodeId st.

(** The state of the component when it mounts. *)
Definition initialState : State :=
  {| developerPayout := 0;
     nodeValues := buildInitialValues;
     childOrders := buildInitialOrders;
     activeNodeId := rootNodeId;
     showTreeView := false;
     dragInfo := None;
     projectLeadsTotal := ∅;
     dynamicChildren := [];
     isProjectLeadsModalOpen := false;
     projectLeadsModalValue := None;
     pendingProjectLeadsNode := None |}.


(** One call of a handler of the editor, with any arguments. *)
Inductive Step : State -> State -> Prop :=
| S_value nodeId field value st :
    Step st (handleValueChange nodeId field value st)
| S_incentive nodeId parsed st :
    Step st (handleSubmitIncentiveModal nodeId parsed st)
| S_payout parsed st :
    Step st (handleSubmitModal parsed st)
| S_dragStart draggedNodeId st :
    Step st (handleDragStart draggedNodeId st)
| S_dragOver event st :
    Step st (handleDragOver event st)
| S_dragEnd event st :
    Step st (handleDragEnd event st)
| S_inspect nodeId st :
    Step st (handleInspectNode nodeId st)
| S_breadcrumb nodeId st :
    Step st (handleBreadcrumbClick nodeId st)
| S_open nodeId st :
    Step st (handleOpenProjectLeadsModal nodeId st)
| S_close st :
    Step st (handleCloseProjectLeadsModal st)
| S_type text st :
    Step st (typeProjectLeadsCount text st)
| S_tree st :
    Step st (toggleTreeView st)
| S_submit st st' :
    handleSubmitProjectLeadsModal st = Some st' -> Step st st'.

End PayoutTreeEditing.

(* ===================================================================== *)
(** ** The canvas editor: dragging, connecting, saving, duplicating *)
(* ===================================================================== *)

Module CanvasEditing.
Import FlowchartCanvas.

(** The form of the node dialog; [description] and [category] only
    drive rendering and are left out. *)
Record FormData := {
  f_label : string;
  f_amountType : AmountType;
  f_amountValue : JS.number;
  f_usePercent : bool;
  f_useFixed : bool;
  f_percentValues : list JS.number;
  f_fixedValues : list JS.number;
  f_formula : string;
  f_parentId : option string
}.

(** The component state: the canvas and what the handlers below read and
    write besides. *)
Record Editor := {
  canvas : Canvas;
  draggedNodeId : option string;
  isConnecting : bool;
  connectionStart : option string;
  isNodeModalOpen : bool;
  editingNodeId : option string;
  zoom : JS.number;
  formData : FormData
}.

Definition setNodes (l : list FlowchartNode) (c : Canvas) : Canvas :=
  {| nodes := l; connections := connections c;
     selectedNode := selectedNode c |}.

Definition setConnections (l : list FlowchartConnection) (c : Canvas)
  : Canvas :=
  {| nodes := nodes c; connections := l; selectedNode := selectedNode c |}.

Definition setSelectedNode (s : option string) (c : Canvas) : Canvas :=
  {| nodes := nodes c; connections := connections c; selectedNode := s |}.

Definition setCanvas (c : Canvas) (ed : Editor) : Editor :=
  {| canvas := c; draggedNodeId := draggedNodeId ed;
     isConnecting := isConnecting ed; connectionStart := connectionStart ed;
     isNodeModalOpen := isNodeModalOpen ed;
     editingNodeId := editingNodeId ed; zoom := zoom ed;
     formData := formData ed |}.

Definition setDraggedNodeId (d : option string) (ed : Editor) : Editor :=
  {| canvas := canvas ed; draggedNodeId := d;
     isConnecting := isConnecting ed; connectionStart := connectionStart ed;
     isNodeModalOpen := isNodeModalOpen ed;
     editingNodeId := editingNodeId ed; zoom := zoom ed;
     formData := formData ed |}.

(** [setIsConnecting(b); setConnectionStart(s)] *)
Definition setConnecting (b : bool) (s : option string) (ed : Editor)
  : Editor :=
  {| canvas := canvas ed; draggedNodeId := draggedNodeId ed;
     isConnecting := b; connectionStart := s;
     isNodeModalOpen := isNodeModalOpen ed;
     editingNodeId := editingNodeId ed; zoom := zoom ed;
     formData := formData ed |}.

(** [setIsNodeModalOpen(false); setEditingNodeId(null)] *)
Definition closeNodeModal (ed : Editor) : Editor :=
  {| canvas := canvas ed; draggedNodeId := draggedNodeId ed;
     isConnecting := isConnecting ed; connectionStart := connectionStart ed;
     isNodeModalOpen := false; editingNodeId := None; zoom := zoom ed;
     formData := formData ed |}.

(** [{ ...node, x: x', y: y' }] *)
Definition moveTo (x' y' : JS.number) (node : FlowchartNode)
  : FlowchartNode :=
  {| id := id node; label := label node; x := x'; y := y';
     amountType := amountType node; amountValue := amountValue node;
     percentValues := percentValues node; fixedValues := fixedValues node;
     percentValue := percentValue node; fixedValue := fixedValue node;
     usePercent := usePercent node; useFixed := useFixed node;
     formula := formula node; parentId := parentId node |}.

(** A drag end event: [active.id] and [delta]. *)
Record DragEnd := {
  active_id : string;
  delta : option (JS.number * JS.number)
}.

(** [handleDragStart(event)] *)
Definition handleDragStart (active : string) (ed : Editor) : Editor :=
  setDraggedNodeId (Some active) ed.

(** [handleDragEnd(event)] *)
Definition handleDragEnd (event : DragEnd) (ed : Editor) : Editor :=
  let nodeId := active_id event in
  let ed :=
    match delta event with
    | Some (dx, dy) =>
        setCanvas
          (setNodes
             (List.map (fun node =>
                          if bool_decide (id node = nodeId)
                          then moveTo (x node + dx / zoom ed)
                                      (y node + dy / zoom ed) node
                          else node)
                       (nodes (canvas ed)))
             (canvas ed))
          ed
    | None => ed
    end in
  setDraggedNodeId None ed.

(** [`conn-${from}-${to}`] *)
Definition connection (from to : string) : FlowchartConnection :=
  {| conn_id := "conn-" +:+ from +:+ "-" +:+ to; from := from; to := to |}.

(** [handleNodeClick(nodeId)] *)
Definition handleNodeClick (nodeId : string) (ed : Editor) : Editor :=
  match connectionStart ed with
  | Some start =>
      if isConnecting ed && JS.truthy_str (Some start)
         && negb (bool_decide (start = nodeId)) then
        setConnecting false None
          (setCanvas
             (setNodes
                (List.map (fun node =>
                             if bool_decide (id node = nodeId)
                             then setParentId (Some start) node else node)
                          (nodes (canvas ed)))
                (setConnections
                   (connections (canvas ed) ++ [connection start nodeId])
                   (canvas ed)))
             ed)
      else setCanvas (setSelectedNode (Some nodeId) (canvas ed)) ed
  | None => setCanvas (setSelectedNode (Some nodeId) (canvas ed)) ed
  end.

(** [handleStartConnection(nodeId)] *)
Definition handleStartConnection (nodeId : string) (ed : Editor) : Editor :=
  setConnecting true (Some nodeId)
    (setCanvas (setSelectedNode (Some nodeId) (canvas ed)) ed).

Definition openNodeModal (editing : option string) (f : FormData)
    (ed : Editor) : Editor :=
  {| canvas := canvas ed; draggedNodeId := draggedNodeId ed;
     isConnecting := isConnecting ed; connectionStart := connectionStart ed;
     isNodeModalOpen := true; editingNodeId := editing; zoom := zoom ed;
     formData := f |}.

(** [handleAddNode()] *)
Definition handleAddNode (ed : Editor) : Editor :=
  openNodeModal None
    {| f_label := ""; f_amountType := AT_percent; f_amountValue := 0;
       f_usePercent := false; f_useFixed := false;
       f_percentValues := []; f_fixedValues := []; f_formula := "";
       f_parentId := None |}
    ed.

(** [values ?? (value !== undefined ? [value] : [])] *)
Definition valuesOr (values : option (list JS.number))
    (value : option JS.number) : list JS.number :=
  match values, value with
  | Some vs, _ => vs
  | None, Some v => [v]
  | None, None => []
  end.

(** The form [handleEditNode] fills from a node. *)
Definition formOf (node : FlowchartNode) : FormData :=
  {| f_label := label node; f_amountType := amountType node;
     f_amountValue := amountValue node;
     f_usePercent := usePercent node; f_useFixed := useFixed node;
     f_percentValues := valuesOr (percentValues node) (percentValue node);
     f_fixedValues := valuesOr (fixedValues node) (fixedValue node);
     f_formula := match formula node with
                  | Some s => if JS.truthy_str (Some s) then s else ""
                  | None => ""
                  end;
     f_parentId := parentId node |}.

(** [handleEditNode(nodeId)] *)
Definition handleEditNode (nodeId : string) (ed : Editor) : Editor :=
  match findNode (nodes (canvas ed)) nodeId with
  | Some node => openNodeModal (Some nodeId) (formOf node) ed
  | None => ed
  end.

(** A [string] holds a text as the bytes of its UTF-8 encoding. *)
Definition bytes (l : list nat) : string :=
  String.string_of_list_ascii (List.map Ascii.ascii_of_nat l).

(** The characters [String.prototype.trim] strips, WhiteSpace and
    LineTerminator of the language, as the bytes of their encodings:
    U+0009 to U+000D, U+0020, U+00A0, U+1680, U+2000 to U+200A, U+2028,
    U+2029, U+202F, U+205F, U+3000 and U+FEFF. *)
Definition whiteSpace : list (list nat) :=
  [[9]; [10]; [11]; [12]; [13]; [32]; [194; 160]; [225; 154; 128];
   [226; 128; 128]; [226; 128; 129]; [226; 128; 130]; [226; 128; 131];
   [226; 128; 132]; [226; 128; 133]; [226; 128; 134]; [226; 128; 135];
   [226; 128; 136]; [226; 128; 137]; [226; 128; 138];
   [226; 128; 168]; [226; 128; 169]; [226; 128; 175]; [226; 129; 159];
   [227; 128; 128]; [239; 187; 191]]%nat.

(** The rest of [s] after the bytes [p], when [s] starts with them. *)
Fixpoint dropPrefix (p : list nat) (s : string) : option string :=
  match p, s with
  | [], _ => Some s
  | n :: p, String a s' =>
      if (Ascii.nat_of_ascii a =? n)%nat then dropPrefix p s' else None
  | _ :: _, EmptyString => None
  end.

(** The rest of [s] after one white space character at its head. *)
Definition leadingSpace (s : string) : option string :=
  List.fold_right
    (fun w rest => match dropPrefix w s with
                   | Some r => Some r
                   | None => rest
                   end)
    None whiteSpace.

Fixpoint trimStartLoop (fuel : nat) (s : string) : string :=
  match fuel with
  | O => s
  | S fuel =>
      match leadingSpace s with
      | Some r => trimStartLoop fuel r
      | None => s
      end
  end.

(** [s.trimStart()]: every round takes at least one byte off. *)
Definition trimStart (s : string) : string :=
  trimStartLoop (String.length s) s.

(** [s.trimEnd()]: the text up to the last character that is not white
    space. *)
Fixpoint trimEnd (s : string) : string :=
  match s with
  | String a s' =>
      if bool_decide (trimStart s = "") then EmptyString
      else String a (trimEnd s')
  | EmptyString => EmptyString
  end.

(** [s.trim()] *)
Definition trim (s : string) : string := trimEnd (trimStart s).

(** [use && values.length > 0 ? values : undefined] *)
Definition valuesIf (use : bool) (values : list JS.number)
  : option (list JS.number) :=
  if use then match values with [] => None | _ :: _ => Some values end
  else None.

(** The node of the edit branch of [handleSaveNode]. *)
Definition withForm (f : FormData) (node : FlowchartNode) : FlowchartNode :=
  {| id := id node; label := f_label f; x := x node; y := y node;
     amountType := f_amountType f; amountValue := f_amountValue f;
     percentValues := valuesIf (f_usePercent f) (f_percentValues f);
     fixedValues := valuesIf (f_useFixed f) (f_fixedValues f);
     percentValue := percentValue node; fixedValue := fixedValue node;
     usePercent := f_usePercent f; useFixed := f_useFixed f;
     formula := Some (f_formula f); parentId := f_parentId f |}.

(** The node of the creation branch of [handleSaveNode]; [now] is the
    text of [Date.now()], [r1] and [r2] are the two draws of
    [Math.random()]. *)
Definition newNode (f : FormData) (now : string) (r1 r2 : JS.number)
  : FlowchartNode :=
  {| id := "node-" +:+ now; label := f_label f;
     x := 300 + r1 * 200; y := 200 + r2 * 200;
     amountType := f_amountType f; amountValue := f_amountValue f;
     percentValues := valuesIf (f_usePercent f) (f_percentValues f);
     fixedValues := valuesIf (f_useFixed f) (f_fixedValues f);
     percentValue := None; fixedValue := None;
     usePercent := f_usePercent f; useFixed := f_useFixed f;
     formula := Some (f_formula f); parentId := f_parentId f |}.

(** [prev.some((c) => c.from === parentId && c.to === nodeId)] *)
Definition connectionExists (parentId nodeId : string)
    (l : list FlowchartConnection) : bool :=
  existsb (fun c => bool_decide (from c = parentId)
                    && bool_decide (to c = nodeId)) l.

(** The edit branch of [handleSaveNode]. *)
Definition saveEdited (f : FormData) (editing : string) (c : Canvas)
  : Canvas :=
  let nodes' :=
    List.map (fun node => if bool_decide (id node = editing)
                          then withForm f node else node)
             (nodes c) in
  let filtered :=
    List.filter (fun c => negb (bool_decide (to c = editing)))
                (connections c) in
  let connections' :=
    match f_parentId f with
    | Some parentId =>
        if JS.truthy_str (Some parentId) then
          if negb (connectionExists parentId editing filtered)
          then filtered ++ [connection parentId editing]
          else filtered
        else filtered
    | None => filtered
    end in
  setNodes nodes' (setConnections connections' c).

(** The creation branch of [handleSaveNode]. *)
Definition saveCreated (f : FormData) (now : string) (r1 r2 : JS.number)
    (c : Canvas) : Canvas :=
  let node := newNode f now r1 r2 in
  let connections' :=
    match f_parentId f with
    | Some parentId =>
        if JS.truthy_str (Some parentId) then
          if connectionExists parentId (id node) (connections c)
          then connections c
          else connections c ++ [connection parentId (id node)]
        else connections c
    | None => connections c
    end in
  setNodes (nodes c ++ [node]) (setConnections connections' c).

(** [handleSaveNode()] *)
Definition handleSaveNode (now : string) (r1 r2 : JS.number) (ed : Editor)
  : Editor :=
  let f := formData ed in
  if negb (JS.truthy_str (Some (trim (f_label f)))) then ed
  else
    let c := canvas ed in
    closeNodeModal
      (setCanvas
         match editingNodeId ed with
         | Some editing =>
             if JS.truthy_str (Some editing) then saveEdited f editing c
             else saveCreated f now r1 r2 c
         | None => saveCreated f now r1 r2 c
         end
         ed).

(** [handleDuplicateNode(nodeId)]; [now] is the text of [Date.now()]. *)
Definition duplicateOf (now : string) (node : FlowchartNode) : FlowchartNode :=
  {| id := "node-" +:+ now; label := label node;
     x := x node + 50; y := y node + 50;
     amountType := amountType node; amountValue := amountValue node;
     percentValues := percentValues node; fixedValues := fixedValues node;
     percentValue := percentValue node; fixedValue := fixedValue node;
     usePercent := usePercent node; useFixed := useFixed node;
     formula := formula node; parentId := None |}.

Definition handleDuplicateNode (now nodeId : string) (ed : Editor) : Editor :=
  match findNode (nodes (canvas ed)) nodeId with
  | Some nodeToDuplicate =>
      setCanvas
        (setNodes (nodes (canvas ed) ++ [duplicateOf now nodeToDuplicate])
                  (canvas ed))
        ed
  | None => ed
  end.

End CanvasEditing.

(* ===================================================================== *)
(** ** The canvas built from the data of the tree editor *)
(* ===================================================================== *)

Module CanvasImport.
Import PayoutSchema FlowchartCanvas.

(** [initialData]; [nodeNames] is not read.  The effect also fills a
    table [calculatedAmounts] with the resolver of the diagram, which
    only feeds the field [calculatedAmount] of the nodes; the component
    shows [nodeAmounts[node.id]] instead and never reads that field. *)
Record InitialData := {
  developerPayout : JS.number;
  nodeValues : gmap string PayoutTree.NodeValue;
  dynamicChildren : option (list (string * list string))
}.

Definition isDigit (a : Ascii.ascii) : bool :=
  let n := Ascii.nat_of_ascii a in ((48 <=? n) && (n <=? 57))%nat.

(** The longest run of digits at the head of a string. *)
Fixpoint digits (s : string) : string :=
  match s with
  | String a s' => if isDigit a then String a (digits s') else EmptyString
  | EmptyString => EmptyString
  end.

(** [s.match(/lead_(\d+)/)?.[1]]: the digits of the leftmost [lead_] that
    a digit follows. *)
Fixpoint leadNumber (s : string) : option string :=
  match s with
  | EmptyString => None
  | String a s' =>
      match (if String.prefix "lead_" s
             then match digits (String.substring 5 (String.length s) s) with
                  | EmptyString => None
                  | d => Some d
                  end
             else None) with
      | Some d => Some d
      | None => leadNumber s'
      end
  end.

(** The node pushed for the root. *)
Definition rootNode (data : InitialData) (label : string) : FlowchartNode :=
  {| id := rootNodeId; label := label; x := 400; y := 50;
     amountType := AT_fixed; amountValue := developerPayout data;
     percentValues := None; fixedValues := None;
     percentValue := None; fixedValue := Some (developerPayout data);
     usePercent := false; useFixed := true;
     formula := None; parentId := None |}.

(** The node pushed for a child. *)
Definition childNode (data : InitialData) (childId label parentId : string)
    (nodeX nodeY : JS.number) : FlowchartNode :=
  let percent := PayoutTree.percentOf (nodeValues data) childId in
  let fixed := PayoutTree.fixedOf (nodeValues data) childId in
  let hasPercent := JS.gt0 percent in
  let hasFixed := JS.gt0 fixed in
  {| id := childId; label := label; x := nodeX; y := nodeY;
     amountType := if hasPercent then AT_percent else AT_fixed;
     amountValue := if hasPercent then percent * 100 else fixed;
     percentValues := if hasPercent then Some [percent * 100] else None;
     fixedValues := if hasFixed then Some [fixed] else None;
     percentValue := None; fixedValue := None;
     usePercent := hasPercent; useFixed := hasFixed;
     formula := Some ""; parentId := Some parentId |}.

Abbreviation M := (Eff.M (list FlowchartNode)).

(** [flowchartNodes.push(node)] *)
Definition push (node : FlowchartNode) : M unit :=
  fun flowchartNodes => Some (tt, flowchartNodes ++ [node]).

(** [dynamicChildren?.[parentId] || template.childIds || []] *)
Definition childrenOf (data : InitialData) (parentId : string)
    (template : NodeTemplate) : list string :=
  match dynamicChildren data ≫= PayoutTree.entry parentId with
  | Some children => children
  | None => default [] (childIds template)
  end.

Definition horizontalSpacing : JS.number := 250.
Definition verticalSpacing : JS.number := 200.

(** [addChildren(parentId, startX, startY)] *)
Fixpoint addChildren (data : InitialData) (fuel : nat) (parentId : string)
    (startX startY : JS.number) : M unit :=
  match fuel with
  | O => overflow
  | S fuel =>
    match lookupNode parentId with
    | None => mret tt
    | Some template =>
      let children := childrenOf data parentId template in
      match children with
      | [] => mret tt
      | _ :: _ =>
        let childCount := JS.of_nat (length children) in
        let totalWidth := childCount * horizontalSpacing in
        let startXPos := startX - totalWidth / 2 + horizontalSpacing / 2 in
        forEach
          (fun '(index, childId) =>
             let childTemplate := lookupNode childId in
             let isDynamicChild :=
               String.prefix "projectLeads_lead_" childId in
             let childLabel :=
               if isDynamicChild
               then Some ("Lead " +:+ default "" (leadNumber childId))
               else option_map PayoutSchema.label childTemplate in
             match childLabel with
             | None => mret tt
             | Some childLabel =>
               let nodeX := startXPos + JS.of_nat index * horizontalSpacing in
               let nodeY := startY + verticalSpacing in
               push (childNode data childId childLabel parentId nodeX nodeY) ;;
               addChildren data fuel childId nodeX nodeY
             end)
          (zip (seq 0 (length children)) children)
      end
    end
  end.

(** [`conn-${node.parentId}-${node.id}`] for every node with a parent. *)
Definition connectionsOf (l : list FlowchartNode)
  : list FlowchartConnection :=
  flat_map (fun node =>
              match parentId node with
              | Some p =>
                  if JS.truthy_str (Some p)
                  then [{| conn_id := "conn-" +:+ p +:+ "-" +:+ id node;
                           from := p; to := id node |}]
                  else []
              | None => []
              end) l.

(** A call stack deep enough for every chain of the template tree. *)
Definition stack : nat := 2 + length payoutNodes.

(** The object that the button of the tree editor stores and hands
    over, as it is read back from its JSON text, which keeps every finite
    number as it is; the button is rendered only while [projectLeads] is
    the active node.  [nodeNames] and [projectLeadsTotal] are not read by
    the canvas. *)
Definition commissionFlowData (st : PayoutTree.State) : option InitialData :=
  if bool_decide (PayoutTree.activeNodeId st = "projectLeads")
  then Some {| developerPayout := PayoutTree.developerPayout st;
               nodeValues := PayoutTree.nodeValues st;
               dynamicChildren := Some (PayoutTree.dynamicChildren st) |}
  else None.

(** The effect on an empty canvas: the nodes and connections it sets. *)
Definition importNodes (data : InitialData)
  : option (list FlowchartNode * list FlowchartConnection) :=
  let start :=
    match lookupNode rootNodeId with
    | Some rootTemplate => [rootNode data (PayoutSchema.label rootTemplate)]
    | None => []
    end in
  match addChildren data stack rootNodeId 400 50 start with
  | Some (_, flowchartNodes) =>
      Some (flowchartNodes, connectionsOf flowchartNodes)
  | None => None
  end.

End CanvasImport.


(* ===================================================================== *)
(** ** [Math.round] on sample values *)
(* ===================================================================== *)

Module JSExamples.

(** Ties go towards +infinity, on both sides of zero. *)
Example round_ties :
  JS.Math_round 2.5 = 3 /\ JS.Math_round (-2.5) = (-2) /\
  JS.Math_round 0.5 = 1 /\ JS.Math_round (-0.5) = (-0).
Proof. repeat split; vm_compute; reflexivity. Qed.

(** The largest number below one half rounds to 0, which adding 0.5 and
    flooring in floating point would miss. *)
Example round_below_half : JS.Math_round 0.49999999999999994 = 0.
Proof. vm_compute. reflexivity. Qed.

(** [1.005 * 100] is 100.49999999999999 in binary64. *)
Example round2_1_005 : JS.round2 1.005 = 1.
Proof. vm_compute. reflexivity. Qed.

Example round2_cents :
  JS.round2 (1000 * 10 / 100 + 50) = 150 /\ JS.round2 (1000 / 3) = 333.33 /\
  JS.round2 (255 / 4) = 63.75.
Proof. repeat split; vm_compute; reflexivity. Qed.

End JSExamples.

(* ===================================================================== *)
(** ** Numbers above 0 *)
(* ===================================================================== *)

Module JSFacts.

Lemma gt0_truthy x : JS.gt0 x = true -> JS.truthy x = true.
Proof.
  unfold JS.gt0, JS.truthy, PrimFloat.is_nan.
  rewrite FloatAxioms.ltb_spec, !FloatAxioms.eqb_spec.
  change (Prim2SF PrimFloat.zero) with (S754_zero false).
  destruct (Prim2SF x) as [s|s| |s m e]; try done.
  - by destruct s.
  - destruct s; [done|]. intros _. cbn [SFeqb SFcompare].
    cbn [negb orb]. by rewrite Z.compare_refl, Pos.compare_cont_refl.
Qed.

Lemma or_else_gt0 x : JS.gt0 x = true -> JS.or_else x 0 = x.
Proof. intros H. unfold JS.or_else. by rewrite gt0_truthy. Qed.

Lemma or_else_not_gt0 x : JS.gt0 x = false -> JS.gt0 (JS.or_else x 0) = false.
Proof. intros H. unfold JS.or_else. by destruct (JS.truthy x). Qed.

Lemma gt0_not_zero x : JS.gt0 x = true -> PrimFloat.eqb x 0 = false.
Proof.
  intros H. apply gt0_truthy in H. unfold JS.truthy in H.
  apply negb_true_iff, orb_false_iff in H as [H _]. exact H.
Qed.

End JSFacts.

(* ===================================================================== *)
(** ** Running a bind *)
(* ===================================================================== *)

Module EffFacts.

Lemma bind_Some {St A B} (m : M St A) (k : A -> M St B) w b w' :
  (m ≫= k) w = Some (b, w') <->
  exists a w1, m w = Some (a, w1) /\ k a w1 = Some (b, w').
Proof.
  unfold mbind, M_bind. split.
  - destruct (m w) as [[a w1]|] eqn:E; [|done]. eauto.
  - intros (a & w1 & -> & ?). done.
Qed.

Lemma bind_run {St A B} (m : M St A) (k : A -> M St B) w a w1 :
  m w = Some (a, w1) -> (m ≫= k) w = k a w1.
Proof. unfold mbind, M_bind. by intros ->. Qed.

(** A property kept by every step of a loop that always completes is
    kept by the loop, which completes. *)
Lemma forEach_keeps {St A} (f : A -> M St unit) (P : St -> Prop) l :
  (forall a w, P w -> exists w', f a w = Some (tt, w') /\ P w') ->
  forall w, P w -> exists w', forEach f l w = Some (tt, w') /\ P w'.
Proof.
  intros Hf. induction l as [|a l IH]; intros w HP; cbn [forEach].
  - by exists w.
  - destruct (Hf a w HP) as (w1 & Hrun & HP1).
    erewrite bind_run; [|done]. by apply IH.
Qed.

(** What a step establishes for its element, and no step undoes, holds
    of every element after the loop. *)
Lemma forEach_reaches {St A} (f : A -> M St unit) (Q : A -> St -> Prop) l :
  (forall a w w', f a w = Some (tt, w') -> Q a w') ->
  (forall a b w w', f b w = Some (tt, w') -> Q a w -> Q a w') ->
  forall w w', forEach f l w = Some (tt, w') ->
               forall a, In a l -> Q a w'.
Proof.
  intros Hset Hkeep. induction l as [|b l IH]; intros w w' H a Hin;
    [done|].
  cbn [forEach] in H. apply bind_Some in H as ([] & w1 & Hb & H).
  destruct Hin as [->|Hin]; [|by eapply IH].
  apply Hset in Hb. clear IH. revert w1 Hb H.
  induction l as [|c l IH]; intros w1 Hb H.
  - by inversion H; subst.
  - cbn [forEach] in H. apply bind_Some in H as ([] & w2 & Hc & H).
    eapply IH; [|done]. by eapply Hkeep.
Qed.

End EffFacts.
Import EffFacts.

(* ===================================================================== *)
(** ** Properties of the free-form engine *)
(* ===================================================================== *)

Module CanvasFacts.
Import FlowchartCanvas.

(** [amounts[k] = v] and [console.warn] as functions on the world. *)
Definition put (k : string) (v : JS.number) (w : World) : World :=
  {| amounts := <[k := v]> (amounts w); console := console w |}.

Definition log (msg : string) (w : World) : World :=
  {| amounts := amounts w; console := console w ++ [msg] |}.

(** *** Reads and writes of the memo object *)

Lemma read_own m k v : m !! k = Some v -> read m k = Some (V_number v).
Proof. unfold read. by intros ->. Qed.

Lemma read_None m k :
  read m k = None <-> m !! k = None /\ inherited k = false.
Proof.
  unfold read. destruct (m !! k); [by split; [|intros []]|].
  destruct (inherited k); by split; [|intros []|..].
Qed.

Lemma read_plain m k : inherited k = false -> read m k = V_number <$> m !! k.
Proof. unfold read. intros ->. by destruct (m !! k). Qed.

Lemma read_insert_eq m k v : read (<[k := v]> m) k = Some (V_number v).
Proof. apply read_own, lookup_insert_eq. Qed.

Lemma read_insert_ne m k j v : k <> j -> read (<[k := v]> m) j = read m j.
Proof. intros H. unfold read. by rewrite lookup_insert_ne. Qed.

Lemma read_is_Some m k : is_Some (m !! k) -> is_Some (read m k).
Proof. intros [v Hv]. rewrite (read_own _ _ _ Hv). done. Qed.

Lemma read_number m k v : read m k = Some (V_number v) -> m !! k = Some v.
Proof.
  unfold read. destruct (m !! k); [congruence|]. by destruct (inherited k).
Qed.

Lemma inherited_proto k : inherited k = false -> k <> "__proto__".
Proof. by intros H ->. Qed.

Lemma write_plain k v m : k <> "__proto__" -> write k v m = <[k := v]> m.
Proof. unfold write. intros H. by rewrite bool_decide_eq_false_2. Qed.

Lemma write_proto v m : write "__proto__" v m = m.
Proof. done. Qed.

Lemma findNode_id nodeList k node :
  findNode nodeList k = Some node -> id node = k.
Proof.
  unfold findNode. intros H. apply find_some in H as [_ H].
  by apply bool_decide_eq_true in H.
Qed.

Lemma findNode_In nodeList k node :
  findNode nodeList k = Some node -> In node nodeList.
Proof. unfold findNode. intros H. by apply find_some in H as [H _]. Qed.

Lemma findNode_NoDup nodeList node :
  NoDup (map id nodeList) -> In node nodeList ->
  findNode nodeList (id node) = Some node.
Proof.
  unfold findNode. induction nodeList as [|a l IH]; simpl; [done|].
  intros Hnd Hin. apply NoDup_cons in Hnd as [Ha Hnd].
  case_bool_decide as Heq.
  - destruct Hin as [->|Hin]; [done|]. exfalso. apply Ha.
    rewrite Heq. apply list_elem_of_In, in_map, Hin.
  - destruct Hin as [->|Hin]; [done|]. by apply IH.
Qed.

Lemma size_list_to_set_le (l : list string) :
  size (list_to_set l : gset string) <= length l.
Proof.
  induction l as [|a l IH].
  - by rewrite list_to_set_nil, size_empty.
  - rewrite list_to_set_cons, size_union_alt, size_singleton. cbn [length].
    assert (size (list_to_set l ∖ {[a]} : gset string)
            <= size (list_to_set l : gset string)); [|lia].
    apply subseteq_size, subseteq_difference_l. done.
Qed.

Section Engine.
Variable nodeList : list FlowchartNode.

(** *** The resolution of one id as a big-step relation *)

(** An id enters the path only after the memo test on it failed, so
    the ids on a path are never names of [Object.prototype]; where the
    relation stores, the store is a plain insertion. *)
Inductive Computes : string -> gset string -> World -> Value -> World -> Prop :=
| C_cycle nodeId path w :
    nodeId ∈ path -> inherited nodeId = false ->
    Computes nodeId path w (V_number 0)
             (put nodeId 0 (log (circular_warning nodeId) w))
| C_memo nodeId path w v :
    nodeId ∉ path -> read (amounts w) nodeId = Some v ->
    Computes nodeId path w v w
| C_missing nodeId path w :
    nodeId ∉ path -> read (amounts w) nodeId = None ->
    findNode nodeList nodeId = None ->
    Computes nodeId path w (V_number 0) (put nodeId 0 w)
| C_root nodeId path w node :
    nodeId ∉ path -> read (amounts w) nodeId = None ->
    findNode nodeList nodeId = Some node -> parentOf node = None ->
    Computes nodeId path w (V_number (rootAmount_compute node))
             (put nodeId (rootAmount_compute node) w)
| C_rule nodeId path w node parent parentAmount w1 :
    nodeId ∉ path -> read (amounts w) nodeId = None ->
    findNode nodeList nodeId = Some node -> parentOf node = Some parent ->
    Computes parent (path ∪ {[nodeId]}) w parentAmount w1 ->
    Computes nodeId path w (V_number (share node (toNumber parentAmount)))
             (put nodeId (share node (toNumber parentAmount)) w1).

(** A path that holds no name of [Object.prototype]. *)
Definition plain_path (path : gset string) : Prop :=
  forall q, q ∈ path -> inherited q = false.

Lemma plain_path_empty : plain_path ∅.
Proof. intros q Hq. by apply not_elem_of_empty in Hq. Qed.

Lemma plain_path_add path k :
  plain_path path -> inherited k = false -> plain_path (path ∪ {[k]}).
Proof.
  intros Hpath Hk q Hq. apply elem_of_union in Hq as [Hq|Hq]; [by apply Hpath|].
  by apply elem_of_singleton in Hq as ->.
Qed.

Lemma set_plain k v w :
  inherited k = false -> set k v w = Some (tt, put k v w).
Proof.
  intros Hk. unfold set, put. by rewrite write_plain by by apply inherited_proto.
Qed.

Lemma compute_Computes fuel : forall nodeId path w v w',
  plain_path path ->
  compute nodeList fuel nodeId path w = Some (v, w') ->
  Computes nodeId path w v w'.
Proof.
  induction fuel as [|fuel IH]; intros nodeId path w v w' Hplain H; [done|].
  cbn [compute] in H. case_bool_decide as Hpath.
  { pose proof (Hplain _ Hpath) as Hk.
    apply bind_Some in H as ([] & w0 & Hwarn & H).
    apply bind_Some in H as ([] & w1 & Hset & H).
    rewrite (set_plain _ _ _ Hk) in Hset.
    inversion Hwarn; inversion Hset; inversion H; subst.
    by apply C_cycle. }
  apply bind_Some in H as (memo & w0 & Hget & H).
  inversion Hget; subst; clear Hget.
  destruct (read (amounts w0) nodeId) as [m|] eqn:Hmemo.
  { inversion H; subst. by apply C_memo. }
  pose proof (proj1 (read_None _ _) Hmemo) as [Hown Hk].
  destruct (findNode nodeList nodeId) as [node|] eqn:Hfind.
  2:{ apply bind_Some in H as ([] & w1 & Hset & H).
      rewrite (set_plain _ _ _ Hk) in Hset.
      inversion Hset; inversion H; subst. by apply C_missing. }
  destruct (parentOf node) as [parent|] eqn:Hparent.
  - apply bind_Some in H as (pa & w1 & Hrec & H).
    apply bind_Some in H as ([] & w2 & Hset & H).
    rewrite (set_plain _ _ _ Hk) in Hset.
    inversion Hset; inversion H; subst.
    eapply C_rule; eauto. apply IH; [|done]. by apply plain_path_add.
  - unfold computeRoot in H.
    apply bind_Some in H as (memo & w1 & Hget & H).
    inversion Hget; subst; clear Hget. rewrite Hmemo in H.
    pose proof (findNode_id _ _ _ Hfind) as Hid. rewrite Hid in H.
    apply bind_Some in H as ([] & w2 & Hset & H).
    rewrite (set_plain _ _ _ Hk) in Hset. inversion Hset; subst; clear Hset.
    apply bind_Some in H as (res & w3 & Hget & H).
    inversion Hget; subst; clear Hget.
    cbn [put amounts] in H. rewrite read_insert_eq in H.
    inversion H; subst. by apply C_root.
Qed.

(** *** Termination: the call stack never outgrows the node list *)

Definition ids : gset string := list_to_set (map id nodeList).

Lemma findNode_ids k node : findNode nodeList k = Some node -> k ∈ ids.
Proof.
  intros H. unfold ids. apply elem_of_list_to_set, list_elem_of_In.
  rewrite <- (findNode_id _ _ _ H). apply in_map.
  by eapply findNode_In.
Qed.

Lemma size_ids : size ids <= length nodeList.
Proof.
  unfold ids. etrans; [apply size_list_to_set_le|]. by rewrite length_map.
Qed.

Lemma compute_total fuel : forall nodeId path w,
  size (ids ∖ path) < fuel ->
  is_Some (compute nodeList fuel nodeId path w).
Proof.
  induction fuel as [|fuel IH]; intros nodeId path w Hfuel; [lia|].
  simpl. case_bool_decide as Hpath; [done|].
  cbv [mbind M_bind get]. simpl.
  destruct (read (amounts w) nodeId) as [m|] eqn:Hmemo; [done|].
  pose proof (proj1 (read_None _ _) Hmemo) as [Hown Hk].
  destruct (findNode nodeList nodeId) as [node|] eqn:Hfind; [|done].
  destruct (parentOf node) as [parent|] eqn:Hparent.
  - destruct (IH parent (path ∪ {[nodeId]}) w) as [[pa w1] Hrec].
    + apply findNode_ids in Hfind.
      assert (size (ids ∖ (path ∪ {[nodeId]})) < size (ids ∖ path)); [|lia].
      apply subset_size. set_solver.
    + by rewrite Hrec.
  - unfold computeRoot. cbv [mbind M_bind get set mret M_ret]. simpl.
    rewrite Hmemo. simpl.
    rewrite (findNode_id _ _ _ Hfind), write_plain, read_insert_eq
      by by apply inherited_proto.
    done.
Qed.

Lemma compute_stack_total nodeId w :
  is_Some (compute nodeList (stack nodeList) nodeId ∅ w).
Proof.
  apply compute_total. unfold stack.
  pose proof size_ids.
  assert (size (ids ∖ ∅) <= size ids) by (apply subseteq_size; set_solver).
  lia.
Qed.

(** *** What one resolution does to the memo table *)

Lemma Computes_stored nodeId path w v w' :
  Computes nodeId path w v w' -> read (amounts w') nodeId = Some v.
Proof.
  destruct 1; simpl; rewrite ?read_insert_eq; done.
Qed.

(** The requested id is a name of [Object.prototype] only where the memo
    test succeeded on it. *)
Lemma Computes_plain nodeId path w v w' :
  Computes nodeId path w v w' -> inherited nodeId = false ->
  exists a, v = V_number a /\ amounts w' !! nodeId = Some a.
Proof.
  destruct 1 as [n p w Hin Hk|n p w v Hp Hm|n p w Hp Hm Hf
                |n p w node Hp Hm Hf Hpar
                |n p w node parent pa w1 Hp Hm Hf Hpar Hrec];
    intros Hplain; cbn [put amounts]; rewrite ?lookup_insert_eq; eauto.
  rewrite read_plain in Hm by done.
  destruct (amounts w !! n) as [a|]; [|done]. inversion Hm. eauto.
Qed.

(** An entry of an id that is not being resolved is never changed. *)
Lemma Computes_off_path nodeId path w v w' :
  Computes nodeId path w v w' ->
  forall k a, k ∉ path -> amounts w !! k = Some a ->
              amounts w' !! k = Some a.
Proof.
  induction 1 as [n p w Hin Hplain|n p w v Hp Hm|n p w Hp Hr Hf
                 |n p w node Hp Hr Hf Hpar
                 |n p w node parent pa w1 Hp Hr Hf Hpar Hrec IH];
    try (pose proof (proj1 (read_None _ _) Hr) as [Hm Hplain]);
    intros k a Hk Hka; simpl; try done.
  - rewrite lookup_insert_ne; [done|]. intros ->. done.
  - rewrite lookup_insert_ne; [done|]. congruence.
  - rewrite lookup_insert_ne; [done|]. congruence.
  - assert (n <> k) by congruence.
    rewrite lookup_insert_ne; [|done]. apply IH; [|done]. set_solver.
Qed.

(** Entries are never removed. *)
Lemma Computes_dom nodeId path w v w' :
  Computes nodeId path w v w' ->
  forall k, is_Some (amounts w !! k) -> is_Some (amounts w' !! k).
Proof.
  induction 1; intros k Hk; simpl; try done;
    rewrite lookup_insert_is_Some;
    destruct (decide (nodeId = k)); auto.
Qed.

(** [par a b]: the node found for [a] names [b] as its parent. *)
Definition par (a b : string) : Prop :=
  exists node, findNode nodeList a = Some node /\ parentOf node = Some b.

Lemma par_functional a b c : par a b -> par a c -> b = c.
Proof. intros (n1 & H1 & H2) (n2 & H3 & H4). congruence. Qed.

(** New entries belong to the requested id and to its ancestors. *)
Lemma Computes_new_keys nodeId path w v w' :
  Computes nodeId path w v w' ->
  forall k, amounts w !! k = None -> is_Some (amounts w' !! k) ->
            rtc par nodeId k.
Proof.
  induction 1 as [n p w Hin Hplain|n p w v Hp Hm|n p w Hp Hr Hf
                 |n p w node Hp Hr Hf Hpar
                 |n p w node parent pa w1 Hp Hr Hf Hpar Hrec IH];
    try (pose proof (proj1 (read_None _ _) Hr) as [Hm Hplain]);
    intros k Hk Hk'; simpl in Hk'.
  - destruct (decide (n = k)) as [->|Hne]; [apply rtc_refl|].
    rewrite lookup_insert_ne, Hk in Hk' by done. by destruct Hk'.
  - rewrite Hk in Hk'. by destruct Hk'.
  - destruct (decide (n = k)) as [->|Hne]; [apply rtc_refl|].
    rewrite lookup_insert_ne, Hk in Hk' by done. by destruct Hk'.
  - destruct (decide (n = k)) as [->|Hne]; [apply rtc_refl|].
    rewrite lookup_insert_ne, Hk in Hk' by done. by destruct Hk'.
  - destruct (decide (n = k)) as [->|Hne]; [apply rtc_refl|].
    rewrite lookup_insert_ne in Hk' by done.
    eapply rtc_l; [exists node; eauto|]. by apply IH.
Qed.

(** While an id is on the path its entry is absent or the 0 of a
    detected cycle. *)
Definition path_zero (path : gset string) (m : gmap string JS.number) :=
  forall q, q ∈ path -> m !! q = None \/ m !! q = Some 0.

Lemma Computes_path_zero nodeId path w v w' :
  Computes nodeId path w v w' ->
  path_zero path (amounts w) -> path_zero path (amounts w').
Proof.
  induction 1 as [n p w Hin Hplain|n p w v Hp Hm|n p w Hp Hr Hf
                 |n p w node Hp Hr Hf Hpar
                 |n p w node parent pa w1 Hp Hr Hf Hpar Hrec IH];
    try (pose proof (proj1 (read_None _ _) Hr) as [Hm Hplain]);
    intros Hz q Hq; simpl; try (by apply Hz).
  - destruct (decide (n = q)) as [->|Hne].
    + right. apply lookup_insert_eq.
    + rewrite !lookup_insert_ne by done. by apply Hz.
  - rewrite !lookup_insert_ne by congruence. by apply Hz.
  - rewrite !lookup_insert_ne by congruence. by apply Hz.
  - rewrite !lookup_insert_ne by congruence. apply IH; [|set_solver].
    intros q' Hq'. apply elem_of_union in Hq' as [Hq'|Hq'].
    + by apply Hz.
    + apply elem_of_singleton in Hq' as ->. by left.
Qed.

(** *** Resolved amounts follow the parent's resolved amount *)

Definition cyclic (k : string) : Prop := tc par k k.

(** Every stored amount of a node that has a parent and is not its own
    ancestor is the node's share of the amount stored for the parent. *)
Definition follows_parent (path : gset string) (m : gmap string JS.number) :=
  forall k node p v,
    findNode nodeList k = Some node -> parentOf node = Some p ->
    ~ cyclic k -> k ∉ path -> m !! k = Some v ->
    exists pa, read m p = Some pa /\ v = share node (toNumber pa).

Lemma follows_parent_weaken path path' m :
  path ⊆ path' -> follows_parent path m -> follows_parent path' m.
Proof.
  intros Hsub Hinv k node p v Hf Hp Hc Hk Hv.
  eapply Hinv; eauto.
Qed.

Lemma read_on_path path m n a :
  path_zero path m -> n ∈ path -> inherited n = false ->
  read m n = Some a -> read (<[n := 0]> m) n = Some a.
Proof.
  intros Hz Hin Hplain Ha. rewrite read_insert_eq.
  destruct (Hz n Hin) as [Hn|Hn].
  - rewrite read_plain, Hn in Ha by done. done.
  - rewrite (read_own _ _ _ Hn) in Ha. done.
Qed.

Lemma Computes_follows_parent nodeId path w v w' :
  Computes nodeId path w v w' ->
  path_zero path (amounts w) ->
  follows_parent path (amounts w) -> follows_parent path (amounts w').
Proof.
  induction 1 as [n p w Hin Hplain|n p w v Hp Hm|n p w Hp Hr Hf
                 |n p w node Hp Hr Hf Hpar
                 |n p w node parent pa w1 Hp Hr Hf Hpar Hrec IH];
    try (pose proof (proj1 (read_None _ _) Hr) as [Hm Hplain]);
    intros Hz Hinv; try done;
    intros k nd pk vk Hfk Hpk Hck Hk Hvk; simpl in *.
  - (* a cycle was detected at [n]: only a 0 may be overwritten by 0 *)
    assert (n <> k) by (intros ->; done).
    rewrite lookup_insert_ne in Hvk by done.
    destruct (Hinv k nd pk vk) as (a & Ha & ->); try done.
    exists a. split; [|done].
    destruct (decide (n = pk)) as [->|Hne].
    + by apply (read_on_path p).
    + by rewrite read_insert_ne.
  - (* [n] is not in the list *)
    assert (n <> k) by congruence.
    rewrite lookup_insert_ne in Hvk by done.
    destruct (Hinv k nd pk vk) as (a & Ha & ->); try done.
    exists a. split; [|done].
    rewrite read_insert_ne; [done|]. congruence.
  - (* [n] has no parent *)
    destruct (decide (n = k)) as [->|Hne]; [congruence|].
    rewrite lookup_insert_ne in Hvk by done.
    destruct (Hinv k nd pk vk) as (a & Ha & ->); try done.
    exists a. split; [|done].
    rewrite read_insert_ne; [done|]. congruence.
  - (* the rule of [n] applied to the amount returned for its parent *)
    destruct (decide (n = k)) as [->|Hne].
    + rewrite lookup_insert_eq in Hvk.
      assert (nd = node) as -> by congruence.
      assert (pk = parent) as -> by congruence.
      exists pa. split; [|congruence].
      rewrite read_insert_ne.
      * by eapply Computes_stored.
      * intros ->. apply Hck, tc_once. exists node. done.
    + rewrite lookup_insert_ne in Hvk by done.
      assert (Hz1 : path_zero (p ∪ {[n]}) (amounts w)).
      { intros q Hq. apply elem_of_union in Hq as [Hq|Hq].
        - by apply Hz.
        - apply elem_of_singleton in Hq as ->. by left. }
      assert (Hinv1 : follows_parent (p ∪ {[n]}) (amounts w1)).
      { apply IH; [done|]. eapply follows_parent_weaken; [|done].
        set_solver. }
      destruct (Hinv1 k nd pk vk) as (a & Ha & ->); try done.
      { set_solver. }
      exists a. split; [|done].
      destruct (decide (n = pk)) as [->|Hnp]; [|by rewrite read_insert_ne].
      exfalso.
      destruct (amounts w !! k) as [v0|] eqn:Hk0.
      * destruct (Hinv k nd pk v0) as (a0 & Ha0 & _); try done.
        congruence.
      * apply Hck.
        eapply tc_l; [exists nd; eauto|].
        eapply tc_rtc_r; [apply tc_once; exists node; eauto|].
        eapply Computes_new_keys; eauto.
Qed.

(** *** Resolved amounts in the presence of cycles *)

(** Every stored amount of a node that has a parent is the node's share
    of the amount stored for the parent, or its share of the 0 returned
    where the parent re-entered a cycle. *)
Definition parent_or_zero (path : gset string) (m : gmap string JS.number) :=
  forall k node p v,
    findNode nodeList k = Some node -> parentOf node = Some p ->
    k ∉ path -> m !! k = Some v ->
    (exists pa, read m p = Some pa /\ v = share node (toNumber pa)) \/
    v = share node 0.

Lemma Computes_on_path nodeId path w v w' :
  Computes nodeId path w v w' -> nodeId ∈ path -> v = V_number 0.
Proof. destruct 1; intros Hin; done. Qed.

Lemma Computes_parent_or_zero nodeId path w v w' :
  Computes nodeId path w v w' ->
  path_zero path (amounts w) ->
  parent_or_zero path (amounts w) -> parent_or_zero path (amounts w').
Proof.
  induction 1 as [n p w Hin Hplain|n p w v Hp Hm|n p w Hp Hr Hf
                 |n p w node Hp Hr Hf Hpar
                 |n p w node parent pa w1 Hp Hr Hf Hpar Hrec IH];
    try (pose proof (proj1 (read_None _ _) Hr) as [Hm Hplain]);
    intros Hz Hinv; try done;
    intros k nd pk vk Hfk Hpk Hk Hvk; simpl in *.
  - assert (n <> k) by (intros ->; done).
    rewrite lookup_insert_ne in Hvk by done.
    destruct (Hinv k nd pk vk) as [(a & Ha & ->) | ->]; try done; [|by right].
    left. exists a. split; [|done].
    destruct (decide (n = pk)) as [->|Hne].
    + by apply (read_on_path p).
    + by rewrite read_insert_ne.
  - assert (n <> k) by congruence.
    rewrite lookup_insert_ne in Hvk by done.
    destruct (Hinv k nd pk vk) as [(a & Ha & ->) | ->]; try done; [|by right].
    left. exists a. split; [|done].
    rewrite read_insert_ne; [done|]. congruence.
  - destruct (decide (n = k)) as [->|Hne]; [congruence|].
    rewrite lookup_insert_ne in Hvk by done.
    destruct (Hinv k nd pk vk) as [(a & Ha & ->) | ->]; try done; [|by right].
    left. exists a. split; [|done].
    rewrite read_insert_ne; [done|]. congruence.
  - assert (Hz1 : path_zero (p ∪ {[n]}) (amounts w)).
    { intros q Hq. apply elem_of_union in Hq as [Hq|Hq].
      - by apply Hz.
      - apply elem_of_singleton in Hq as ->. by left. }
    destruct (decide (n = k)) as [->|Hne].
    + rewrite lookup_insert_eq in Hvk.
      assert (nd = node) as -> by congruence.
      assert (pk = parent) as -> by congruence.
      inversion Hvk; subst vk.
      destruct (decide (k = parent)) as [->|Hkp].
      * right. f_equal.
        rewrite (Computes_on_path _ _ _ _ _ Hrec); [done|]. set_solver.
      * left. exists pa. split; [|done].
        rewrite read_insert_ne by done. by eapply Computes_stored.
    + rewrite lookup_insert_ne in Hvk by done.
      assert (Hinv1 : parent_or_zero (p ∪ {[n]}) (amounts w1)).
      { apply IH; [done|].
        intros k' nd' p' v' ? ? Hk' ?. eapply Hinv; eauto. set_solver. }
      destruct (Hinv1 k nd pk vk) as [(a & Ha & ->) | ->]; try done;
        [set_solver| |by right].
      destruct (decide (n = pk)) as [->|Hnp].
      * right. f_equal.
        destruct (Computes_path_zero _ _ _ _ _ Hrec Hz1 pk) as [Hn|Hn];
          [set_solver| |].
        -- rewrite read_plain, Hn in Ha by done. done.
        -- rewrite (read_own _ _ _ Hn) in Ha. by inversion Ha.
      * left. exists a. by rewrite read_insert_ne.
Qed.

(** A node whose parent chain ends within [fuel] steps, at a node
    without a parent or at an id that is not in the list. *)
Fixpoint chainEnds (fuel : nat) (k : string) : bool :=
  match findNode nodeList k with
  | None => true
  | Some node =>
      match parentOf node with
      | None => true
      | Some p =>
          match fuel with
          | O => false
          | S fuel => chainEnds fuel p
          end
      end
  end.

Lemma cyclic_step k k' : cyclic k -> par k k' -> cyclic k'.
Proof.
  intros Hc Hp. unfold cyclic in *. inversion Hc as [? ? Hp'|? y ? Hp' Hy]; subst.
  - by rewrite <- (par_functional _ _ _ Hp' Hp).
  - rewrite <- (par_functional _ _ _ Hp' Hp). by eapply tc_r.
Qed.

Lemma cyclic_has_parent k : cyclic k -> exists k', par k k'.
Proof. unfold cyclic. inversion 1; eauto. Qed.

Lemma chainEnds_not_cyclic fuel : forall k,
  chainEnds fuel k = true -> ~ cyclic k.
Proof.
  induction fuel as [|fuel IH]; intros k Hends Hc;
    destruct (cyclic_has_parent k Hc) as (k' & Hpar);
    pose proof Hpar as (node & Hf & Hp);
    simpl in Hends; rewrite Hf, Hp in Hends; [done|].
  eapply IH; [done|]. by eapply cyclic_step.
Qed.

End Engine.

(** *** The amount map does not depend on the console *)

Definition agree (w1 w2 : World) : Prop := amounts w1 = amounts w2.

(** A computation is blind to the console when two worlds with the same
    memo table give the same result and the same memo table. *)
Definition console_blind {A} (m : M A) : Prop :=
  forall w1 w2, agree w1 w2 ->
    match m w1, m w2 with
    | Some (a1, w1'), Some (a2, w2') => a1 = a2 /\ agree w1' w2'
    | None, None => True
    | _, _ => False
    end.

Lemma blind_ret {A} (a : A) : console_blind (mret a).
Proof. intros w1 w2 H. simpl. done. Qed.

Lemma blind_overflow {A} : console_blind (@overflow World A).
Proof. intros w1 w2 H. done. Qed.

Lemma blind_bind {A B} (m : M A) (k : A -> M B) :
  console_blind m -> (forall a, console_blind (k a)) ->
  console_blind (m ≫= k).
Proof.
  intros Hm Hk w1 w2 H. specialize (Hm w1 w2 H).
  unfold mbind, M_bind.
  destruct (m w1) as [[a1 w1']|], (m w2) as [[a2 w2']|]; try done.
  destruct Hm as [-> Hm]. by apply Hk.
Qed.

Lemma blind_get k : console_blind (get k).
Proof. intros w1 w2 H. unfold get. by rewrite H. Qed.

Lemma blind_set k v : console_blind (set k v).
Proof. intros w1 w2 H. unfold set, agree in *. simpl. by rewrite H. Qed.

Lemma blind_warn msg : console_blind (warn msg).
Proof. intros w1 w2 H. done. Qed.

Lemma blind_forEach {A} (f : A -> M unit) l :
  (forall a, console_blind (f a)) -> console_blind (forEach f l).
Proof.
  intros Hf. induction l as [|a l IH]; simpl.
  - apply blind_ret.
  - apply blind_bind; auto.
Qed.

Create HintDb blind.
#[local] Hint Resolve blind_ret blind_overflow blind_get blind_set
  blind_warn : blind.

Lemma blind_computeRoot node nodeId : console_blind (computeRoot node nodeId).
Proof.
  unfold computeRoot.
  apply blind_bind; [auto with blind|]. intros memo.
  apply blind_bind; [destruct memo; auto with blind|]. intros _.
  apply blind_bind; [auto with blind|]. intros [v|]; auto with blind.
Qed.

Lemma blind_compute nodeList fuel : forall nodeId path,
  console_blind (compute nodeList fuel nodeId path).
Proof.
  induction fuel as [|fuel IH]; intros nodeId path; simpl;
    [auto with blind|].
  case_bool_decide.
  { repeat (apply blind_bind; [auto with blind|]; intros _).
    auto with blind. }
  apply blind_bind; [auto with blind|]. intros [v|]; [auto with blind|].
  destruct (findNode nodeList nodeId) as [node|].
  - destruct (parentOf node) as [parent|]; [|apply blind_computeRoot].
    apply blind_bind; [apply IH|]. intros pa.
    apply blind_bind; auto with blind.
  - apply blind_bind; auto with blind.
Qed.

Lemma blind_resolveAll nodeList : console_blind (resolveAll nodeList).
Proof.
  unfold resolveAll. apply blind_bind.
  - apply blind_forEach. intros node. unfold seedRoot.
    destruct (parentOf node); auto with blind.
  - intros _. apply blind_forEach. intros node.
    apply blind_bind; [apply blind_compute|auto with blind].
Qed.

(** *** The two passes of [calculateNodeAmounts] *)

(** The memo table after the first pass. *)
Definition seeds (l : list FlowchartNode) (m : gmap string JS.number)
  : gmap string JS.number :=
  fold_left (fun m node =>
               match parentOf node with
               | None => write (id node) (rootAmount node) m
               | Some _ => m
               end) l m.

Lemma forEach_seedRoot l : forall w,
  forEach seedRoot l w
  = Some (tt, {| amounts := seeds l (amounts w); console := console w |}).
Proof.
  induction l as [|node l IH]; intros [m c]; simpl; [done|].
  unfold mbind, M_bind, seedRoot.
  destruct (parentOf node); simpl; by rewrite IH.
Qed.

Lemma seeds_lookup_inv l : forall m k v,
  seeds l m !! k = Some v ->
  m !! k = Some v \/
  exists node, In node l /\ id node = k /\ parentOf node = None.
Proof.
  induction l as [|node l IH]; intros m k v H; simpl in *; [by left|].
  apply IH in H as [H|(nd & ? & ? & ?)]; [|right; eauto].
  destruct (parentOf node) eqn:Hp; [by left|].
  destruct (decide (id node = k)) as [Heq|Hne].
  - right. eauto.
  - unfold write in H. case_bool_decide; [by left|].
    rewrite lookup_insert_ne in H by done. by left.
Qed.

Lemma seeds_lookup_other l : forall m k,
  k ∉ map id l -> seeds l m !! k = m !! k.
Proof.
  induction l as [|node l IH]; intros m k Hk; simpl in *; [done|].
  apply not_elem_of_cons in Hk as [Hne Hk].
  rewrite IH by done.
  destruct (parentOf node); [done|]. unfold write.
  case_bool_decide; [done|]. by rewrite lookup_insert_ne.
Qed.

(** The first pass stores the amount of every node without a parent,
    except under the id [__proto__]. *)
Lemma seeds_root l : forall m node,
  NoDup (map id l) -> In node l -> parentOf node = None ->
  id node <> "__proto__" ->
  seeds l m !! id node = Some (rootAmount node).
Proof.
  induction l as [|a l IH]; intros m node Hnd Hin Hp Hid; simpl in *; [done|].
  apply NoDup_cons in Hnd as [Ha Hnd].
  destruct Hin as [->|Hin].
  - rewrite seeds_lookup_other by done. rewrite Hp, write_plain by done.
    apply lookup_insert_eq.
  - by apply IH.
Qed.

Lemma seeds_proto l : forall m,
  seeds l m !! "__proto__" = m !! "__proto__".
Proof.
  induction l as [|a l IH]; intros m; cbn [seeds fold_left]; [done|].
  fold (seeds l). rewrite IH. destruct (parentOf a); [done|].
  unfold write. case_bool_decide as Heq; [done|]. by rewrite lookup_insert_ne.
Qed.

(** A node without a parent has an entry after the first pass, whether
    or not another node bears its id. *)
Lemma seeds_dom l : forall m k,
  is_Some (m !! k) -> is_Some (seeds l m !! k).
Proof.
  induction l as [|a l IH]; intros m k Hk; cbn [seeds fold_left]; [done|].
  fold (seeds l). apply IH. destruct (parentOf a); [done|].
  unfold write. case_bool_decide; [done|].
  rewrite lookup_insert_is_Some. destruct (decide (id a = k)); auto.
Qed.

Lemma seeds_root_dom l : forall m node,
  In node l -> parentOf node = None -> id node <> "__proto__" ->
  is_Some (seeds l m !! id node).
Proof.
  induction l as [|a l IH]; intros m node Hin Hp Hid; [done|].
  cbn [seeds fold_left]. fold (seeds l). destruct Hin as [->|Hin].
  - apply seeds_dom. rewrite Hp, write_plain by done.
    rewrite lookup_insert_eq. done.
  - by apply IH.
Qed.

Section Passes.
Variable nodeList : list FlowchartNode.

(** The second pass over any list of nodes, as the source writes it. *)
Definition computeEach (l : list FlowchartNode) : M unit :=
  forEach (fun node => compute nodeList (stack nodeList) (id node) ∅ ;; mret tt) l.

(** A property of the world kept by every top-level resolution is
    kept by the second pass, which always completes. *)
Lemma computeEach_keeps (P : World -> Prop) :
  (forall k w v w', Computes nodeList k ∅ w v w' -> P w -> P w') ->
  forall l w, P w ->
  exists w', computeEach l w = Some (tt, w') /\ P w'.
Proof.
  intros Hstep l. induction l as [|node l IH]; intros w HP; simpl.
  - eauto.
  - destruct (compute_stack_total nodeList (id node) w) as [[v w1] Hc].
    unfold computeEach in *. cbn [forEach].
    erewrite bind_run; [|by erewrite bind_run].
    apply IH. eapply Hstep; [|done].
    eapply compute_Computes; [apply plain_path_empty|done].
Qed.

(** Every node of the list handed to the second pass has an entry,
    unless its id is a name of [Object.prototype]. *)
Lemma computeEach_dom l : forall w w',
  computeEach l w = Some (tt, w') ->
  (forall k, is_Some (amounts w !! k) -> is_Some (amounts w' !! k)) /\
  (forall node, In node l -> inherited (id node) = false ->
                is_Some (amounts w' !! id node)).
Proof.
  induction l as [|node l IH]; intros w w' H.
  - inversion H; subst. split; [done|]. intros ? [].
  - unfold computeEach in H. cbn [forEach] in H.
    apply bind_Some in H as ([] & w1 & Hc & H).
    apply bind_Some in Hc as (v & w2 & Hc & Hr).
    inversion Hr; subst; clear Hr.
    apply compute_Computes in Hc; [|apply plain_path_empty].
    apply IH in H as [Hdom Hall]. split.
    + intros k Hk. apply Hdom. by eapply Computes_dom.
    + intros nd [<-|Hin] Hplain; [|by apply Hall].
      apply Hdom.
      destruct (Computes_plain _ _ _ _ _ _ Hc Hplain) as (a & _ & Ha).
      by rewrite Ha.
Qed.

End Passes.

(** What [calculateNodeAmounts] returns, for every node list: it
    completes; every node has an entry unless its id is a name of
    [Object.prototype] and the node has a parent, or its id is
    [__proto__]; and when ids are unique, nodes without a parent keep the
    amount of the first pass, every other acyclic node holds its share of
    what a read finds under its parent's id, and every other node at all
    holds its share of that or of 0. *)
Lemma calculateNodeAmounts_spec nodeList console0 :
  exists m console1,
    calculateNodeAmounts nodeList console0 = Some (m, console1) /\
    (forall node, In node nodeList ->
       inherited (id node) = false \/
       parentOf node = None /\ id node <> "__proto__" ->
       is_Some (m !! id node)) /\
    (NoDup (map id nodeList) ->
     follows_parent nodeList ∅ m /\
     (forall node, In node nodeList -> parentOf node = None ->
                   id node <> "__proto__" ->
                   m !! id node = Some (rootAmount node)) /\
     parent_or_zero nodeList ∅ m).
Proof.
  unfold calculateNodeAmounts, resolveAll.
  erewrite bind_run; [|apply forEach_seedRoot]. cbn [amounts console].
  set (w0 := {| amounts := seeds nodeList ∅; console := console0 |}).
  pose (P := fun w : World =>
    path_zero ∅ (amounts w) /\
    (NoDup (map id nodeList) ->
     follows_parent nodeList ∅ (amounts w) /\
     (forall node, In node nodeList -> parentOf node = None ->
                   id node <> "__proto__" ->
                   amounts w !! id node = Some (rootAmount node)) /\
     parent_or_zero nodeList ∅ (amounts w))).
  assert (Hseeded : forall k v node p,
            NoDup (map id nodeList) ->
            findNode nodeList k = Some node -> parentOf node = Some p ->
            amounts w0 !! k = Some v -> False).
  { intros k v node p Hnodup Hf Hp Hv. subst w0. simpl in Hv.
    apply seeds_lookup_inv in Hv as [Hv|(nd & Hin & Hid & Hroot)];
      [by rewrite lookup_empty in Hv|].
    pose proof (findNode_NoDup _ _ Hnodup Hin) as Hf'.
    rewrite Hid in Hf'. congruence. }
  destruct (computeEach_keeps nodeList P) with (l := nodeList) (w := w0)
    as (w' & Hrun & HP).
  - intros k w v w1 Hc [Hz Hnd]. split.
    { intros q Hq. set_solver. }
    intros Hnodup. destruct (Hnd Hnodup) as (Hinv & Hroots & Hzero).
    split; [|split].
    + by eapply Computes_follows_parent.
    + intros node Hin Hp Hid.
      eapply Computes_off_path; [done| |by apply Hroots].
      apply not_elem_of_empty.
    + by eapply Computes_parent_or_zero.
  - split; [intros q Hq; set_solver|].
    intros Hnodup. split; [|split].
    + intros k node p v Hf Hp _ _ Hv. exfalso. eauto.
    + intros node Hin Hp Hid. subst w0. simpl. by apply seeds_root.
    + intros k node p v Hf Hp _ Hv. exfalso. eauto.
  - pose proof Hrun as Hrun'. unfold computeEach in Hrun'. rewrite Hrun'.
    exists (amounts w'), (console w'). split; [done|].
    split; [|apply HP].
    destruct (computeEach_dom nodeList nodeList w0 w' Hrun) as [Hkeep Hdom].
    intros node Hin [Hplain|[Hp Hid]]; [by apply Hdom|].
    apply Hkeep. subst w0. cbn [amounts]. by apply seeds_root_dom.
Qed.

End CanvasFacts.

(* ===================================================================== *)
(** ** Properties of the template-driven engine *)
(* ===================================================================== *)

Module TemplateFacts.
Import PayoutSchema PayoutTree.

Definition leadPrefix : string := "projectLeads_lead_".

(** *** The template tree is a forest *)

(** The number of parent links above an id, counted with bounded fuel. *)
Fixpoint depthOf (fuel : nat) (k : string) : nat :=
  match fuel with
  | O => O
  | S fuel =>
      match parentOf k with
      | None => O
      | Some p => S (depthOf fuel p)
      end
  end.

Definition depth : string -> nat := depthOf (length payoutNodes).

(** The resolution order: a generated lead comes after [projectLeads],
    every other id after its parent. *)
Definition rank (k : string) : nat :=
  if String.prefix leadPrefix k then S (depth "projectLeads") else depth k.

(** What is checked of every entry of [parentMap]. *)
Definition wellPlaced (k : string) (v : option string) : bool :=
  match v with
  | Some p =>
      negb (String.prefix leadPrefix p) && (depth p <? depth k)%nat
      && (depth k <? length payoutNodes)%nat
      && bool_decide (k ∈ keys) && negb (bool_decide (k = rootNodeId))
      && negb (String.prefix leadPrefix k)
      && match lookupNode p with
         | Some t => bool_decide (k ∈ default [] (childIds t))
         | None => false
         end
  | None => true
  end.

Lemma parentMap_wellPlaced :
  map_Forall (fun k v => wellPlaced k v = true) parentMap.
Proof. apply (bool_decide_unpack _). vm_compute. exact I. Qed.

Lemma parentOf_wellPlaced k p :
  parentOf k = Some p -> wellPlaced k (Some p) = true.
Proof.
  unfold parentOf. intros H.
  destruct (parentMap !! k) as [[q|]|] eqn:Hk; try done.
  destruct (JS.truthy_str (Some q)); [|done]. inversion H; subst.
  by apply (parentMap_wellPlaced k (Some p)).
Qed.

(** Every id with a parent: the parent is no generated lead and lies
    one level higher; the id is a key of [payoutNodes] other than the
    root, is no generated lead, and is listed among the children of its
    parent. *)
Lemma parentOf_facts k p :
  parentOf k = Some p ->
  String.prefix leadPrefix p = false /\
  depth p < depth k /\
  depth k < length payoutNodes /\
  In k keys /\ k <> rootNodeId /\
  String.prefix leadPrefix k = false /\
  exists t, lookupNode p = Some t /\ In k (default [] (childIds t)).
Proof.
  intros Hp. pose proof (parentOf_wellPlaced k p Hp) as Hw.
  unfold wellPlaced in Hw.
  repeat (apply andb_prop in Hw as [Hw ?]).
  repeat match goal with
         | H : negb _ = true |- _ => apply negb_true_iff in H
         | H : (_ <? _)%nat = true |- _ => apply Nat.ltb_lt in H
         end.
  repeat match goal with
         | H : bool_decide _ = true |- _ => apply bool_decide_eq_true in H
         | H : bool_decide _ = false |- _ => apply bool_decide_eq_false in H
         end.
  destruct (lookupNode p) as [t|]; [|done].
  repeat match goal with
         | H : bool_decide _ = true |- _ => apply bool_decide_eq_true in H
         end.
  split; [done|]. split; [done|]. split; [done|].
  split; [by apply list_elem_of_In|]. split; [done|]. split; [done|].
  exists t. split; [done|]. by apply list_elem_of_In.
Qed.

(** What is checked of every template of [payoutNodes]: it sits under
    its own id, is no generated lead, and is the parent of every child it
    lists. *)
Definition wellListed (e : string * NodeTemplate) : bool :=
  bool_decide (id (snd e) = fst e)
  && negb (String.prefix leadPrefix (fst e))
  && forallb (fun c => bool_decide (parentOf c = Some (fst e)))
             (default [] (childIds (snd e))).

Lemma payoutNodes_wellListed : forallb wellListed payoutNodes = true.
Proof. vm_compute. reflexivity. Qed.

Lemma lookupNode_In k t : lookupNode k = Some t -> In (k, t) payoutNodes.
Proof.
  unfold lookupNode. intros H.
  destruct (find _ payoutNodes) as [[k' t']|] eqn:Hf; [|done].
  simpl in H. inversion H; subst.
  apply find_some in Hf as [Hin Hk]. simpl in Hk.
  apply bool_decide_eq_true in Hk. by subst.
Qed.

Lemma lookupNode_facts k t :
  lookupNode k = Some t ->
  id t = k /\ String.prefix leadPrefix k = false /\
  forall c, In c (default [] (childIds t)) -> parentOf c = Some k.
Proof.
  intros H. apply lookupNode_In in H.
  pose proof payoutNodes_wellListed as Hall.
  rewrite forallb_forall in Hall. specialize (Hall _ H).
  unfold wellListed in Hall. cbn [fst snd] in Hall.
  apply andb_prop in Hall as [Hall Hc]. apply andb_prop in Hall as [Hid Hl].
  apply bool_decide_eq_true in Hid. apply negb_true_iff in Hl.
  repeat split; try done.
  intros c Hin. rewrite forallb_forall in Hc. specialize (Hc c Hin).
  by apply bool_decide_eq_true in Hc.
Qed.

Lemma keys_not_lead k : In k keys -> String.prefix leadPrefix k = false.
Proof.
  unfold keys. intros Hin. apply in_map_iff in Hin as ([k' t] & <- & Hin).
  pose proof payoutNodes_wellListed as Hall.
  rewrite forallb_forall in Hall. specialize (Hall _ Hin).
  unfold wellListed in Hall.
  apply andb_prop in Hall as [Hall _]. apply andb_prop in Hall as [_ Hl].
  by apply negb_true_iff in Hl.
Qed.

Lemma leads_not_lead : String.prefix leadPrefix "projectLeads" = false.
Proof. reflexivity. Qed.

(** *** The resolution of one id as a big-step relation *)

Section Engine.
Variable developerPayout : JS.number.
Variable nodeValues : gmap string NodeValue.
Variable leadsFirst : bool.

(** The amount stored for an id whose parent resolved to [parentAmount]. *)
Definition nodeAmount (nodeId parentId : string) (parentAmount : JS.number)
  : JS.number :=
  if bool_decide (nodeId = "taggerFee")
     && bool_decide (parentId = "taggerCombined")
  then JS.round2 (developerPayout * percentOf nodeValues nodeId
                  + fixedOf nodeValues nodeId)
  else JS.round2 (parentAmount * percentOf nodeValues nodeId
                  + fixedOf nodeValues nodeId).

Definition leadAmount (nodeId : string) : JS.number :=
  JS.round2 (fixedOf nodeValues nodeId).

Inductive Resolves
  : string -> gmap string JS.number -> JS.number -> gmap string JS.number
    -> Prop :=
| R_memo k m v :
    m !! k = Some v -> Resolves k m v m
| R_lead k m :
    m !! k = None -> String.prefix leadPrefix k = true ->
    leadsFirst = false ->
    Resolves k m (leadAmount k) (<[k := leadAmount k]> m)
| R_lead_first k m v1 m1 :
    m !! k = None -> String.prefix leadPrefix k = true ->
    leadsFirst = true ->
    Resolves "projectLeads" m v1 m1 ->
    Resolves k m (leadAmount k) (<[k := leadAmount k]> m1)
| R_orphan k m :
    m !! k = None -> String.prefix leadPrefix k = false ->
    parentOf k = None ->
    Resolves k m 0 (<[k := 0]> m)
| R_rule k m p pa m1 :
    m !! k = None -> String.prefix leadPrefix k = false ->
    parentOf k = Some p ->
    Resolves p m pa m1 ->
    Resolves k m (nodeAmount k p pa) (<[k := nodeAmount k p pa]> m1).

Abbreviation compute :=
  (PayoutTree.compute developerPayout nodeValues leadsFirst).

Lemma compute_S fuel k :
  compute (S fuel) k =
  (memo ← get k;
   match memo with
   | Some v => mret v
   | None =>
     if String.prefix leadPrefix k then
       (if leadsFirst then compute fuel "projectLeads" ;; mret tt
        else mret tt) ;;
       set k (leadAmount k) ;;
       mret (leadAmount k)
     else
       match parentOf k with
       | None => set k 0 ;; mret 0
       | Some p =>
         pa ← compute fuel p;
         if bool_decide (k = "taggerFee")
            && bool_decide (p = "taggerCombined") then
           let amount := JS.round2 (developerPayout * percentOf nodeValues k
                                    + fixedOf nodeValues k) in
           set k amount ;; mret amount
         else
           let amount := JS.round2 (pa * percentOf nodeValues k
                                    + fixedOf nodeValues k) in
           set k amount ;; mret amount
       end
   end).
Proof. reflexivity. Qed.

Lemma compute_Resolves fuel : forall k m v m',
  compute fuel k m = Some (v, m') -> Resolves k m v m'.
Proof.
  induction fuel as [|fuel IH]; intros k m v m' H; [done|].
  rewrite compute_S in H. apply bind_Some in H as (memo & m0 & Hget & H).
  inversion Hget; subst; clear Hget.
  destruct (m0 !! k) as [v0|] eqn:Hmemo.
  { inversion H; subst. by apply R_memo. }
  destruct (String.prefix leadPrefix k) eqn:Hlead.
  - apply bind_Some in H as ([] & m1 & Hfirst & H).
    inversion H; subst; clear H.
    destruct leadsFirst eqn:Hb.
    + apply bind_Some in Hfirst as (v1 & m2 & Hrec & Hr).
      inversion Hr; subst. eapply R_lead_first; eauto.
    + inversion Hfirst; subst. by apply R_lead.
  - destruct (parentOf k) as [p|] eqn:Hp.
    + apply bind_Some in H as (pa & m1 & Hrec & H).
      apply IH in Hrec.
      pose proof (R_rule k m0 p pa m1 Hmemo Hlead Hp Hrec) as HR.
      unfold nodeAmount in HR.
      destruct (bool_decide (k = "taggerFee")
                && bool_decide (p = "taggerCombined"));
        inversion H; subst; exact HR.
    + inversion H; subst. by apply R_orphan.
Qed.

(** *** Termination on the template tree *)

Lemma rank_parent k p :
  String.prefix leadPrefix k = false -> parentOf k = Some p ->
  rank p < rank k.
Proof.
  intros Hk Hp.
  destruct (parentOf_facts k p Hp) as (Hp' & Hd & _).
  unfold rank. by rewrite Hk, Hp'.
Qed.

Lemma rank_lead k :
  String.prefix leadPrefix k = true -> rank "projectLeads" < rank k.
Proof.
  intros Hk. unfold rank at 2. rewrite Hk.
  unfold rank. rewrite leads_not_lead. lia.
Qed.

Lemma rank_bound k : rank k < stack.
Proof.
  unfold stack.
  assert (Hd : forall j, depth j < length payoutNodes).
  { intros j. unfold depth.
    destruct (length payoutNodes) as [|n] eqn:Hn; [done|].
    cbn [depthOf]. destruct (parentOf j) as [p|] eqn:Hp; [|lia].
    destruct (parentOf_facts j p Hp) as (_ & _ & Hw & _).
    unfold depth in Hw. rewrite Hn in Hw. cbn [depthOf] in Hw.
    by rewrite Hp in Hw. }
  unfold rank. destruct (String.prefix leadPrefix k).
  - specialize (Hd "projectLeads"). lia.
  - specialize (Hd k). lia.
Qed.

Lemma template_compute_total fuel : forall k m,
  rank k < fuel -> is_Some (compute fuel k m).
Proof.
  induction fuel as [|fuel IH]; intros k m Hfuel; [lia|].
  rewrite compute_S. unfold mbind at 1, M_bind at 1, get at 1.
  destruct (m !! k) as [v|] eqn:Hmemo; [done|].
  destruct (String.prefix leadPrefix k) eqn:Hlead.
  - destruct leadsFirst; [|done].
    destruct (IH "projectLeads" m) as [[v1 m1] Hrec].
    { pose proof (rank_lead k Hlead). lia. }
    erewrite bind_run; [|by erewrite bind_run]. done.
  - destruct (parentOf k) as [p|] eqn:Hp; [|done].
    destruct (IH p m) as [[pa m1] Hrec].
    { pose proof (rank_parent k p Hlead Hp). lia. }
    erewrite bind_run; [|done].
    destruct (bool_decide (k = "taggerFee")
              && bool_decide (p = "taggerCombined")); done.
Qed.

Lemma template_compute_stack_total k m : is_Some (compute stack k m).
Proof. apply template_compute_total, rank_bound. Qed.

(** *** What one resolution does to the memo *)

Lemma Resolves_stored k m v m' :
  Resolves k m v m' -> m' !! k = Some v.
Proof. destruct 1; rewrite ?lookup_insert_eq; done. Qed.

(** Entries are never changed. *)
Lemma Resolves_mono k m v m' :
  Resolves k m v m' ->
  forall j a, m !! j = Some a -> m' !! j = Some a.
Proof.
  induction 1; intros j a Hj; try done;
    (rewrite lookup_insert_ne; [auto|congruence]).
Qed.

(** [edge a b]: resolving [a] first resolves [b]. *)
Definition edge (a b : string) : Prop :=
  (String.prefix leadPrefix a = true /\ b = "projectLeads") \/
  (String.prefix leadPrefix a = false /\ parentOf a = Some b).

Lemma edge_rank a b : edge a b -> rank b < rank a.
Proof.
  intros [[Ha ->]|[Ha Hp]]; [by apply rank_lead|by apply rank_parent].
Qed.

Lemma rtc_edge_rank a b : rtc edge a b -> rank b <= rank a.
Proof.
  induction 1 as [|a b c Hab _ IH]; [done|].
  apply edge_rank in Hab. lia.
Qed.

(** New entries belong to the requested id and to what it resolves
    first. *)
Lemma Resolves_new k m v m' :
  Resolves k m v m' ->
  forall j, m !! j = None -> is_Some (m' !! j) -> rtc edge k j.
Proof.
  induction 1 as [k m v Hm|k m Hm Hl Hb|k m v1 m1 Hm Hl Hb Hrec IH
                 |k m Hm Hl Hp|k m p pa m1 Hm Hl Hp Hrec IH];
    intros j Hj Hj'.
  - rewrite Hj in Hj'. by destruct Hj'.
  - destruct (decide (k = j)) as [->|Hne]; [apply rtc_refl|].
    rewrite lookup_insert_ne, Hj in Hj' by done. by destruct Hj'.
  - destruct (decide (k = j)) as [->|Hne]; [apply rtc_refl|].
    rewrite lookup_insert_ne in Hj' by done.
    eapply rtc_l; [left; eauto|]. by apply IH.
  - destruct (decide (k = j)) as [->|Hne]; [apply rtc_refl|].
    rewrite lookup_insert_ne, Hj in Hj' by done. by destruct Hj'.
  - destruct (decide (k = j)) as [->|Hne]; [apply rtc_refl|].
    rewrite lookup_insert_ne in Hj' by done.
    eapply rtc_l; [right; eauto|]. by apply IH.
Qed.

(** *** Every stored amount is the amount of its rule *)

(** What the amount stored for [k] is, in terms of the memo. *)
Definition ruleOf (m : gmap string JS.number) (k : string) (v : JS.number)
  : Prop :=
  if bool_decide (k = rootNodeId) then v = developerPayout
  else if String.prefix leadPrefix k then v = leadAmount k
  else match parentOf k with
       | None => v = 0
       | Some p => exists pa, m !! p = Some pa /\ v = nodeAmount k p pa
       end.

Definition sound (m : gmap string JS.number) : Prop :=
  m !! rootNodeId = Some developerPayout /\
  forall k v, m !! k = Some v -> ruleOf m k v.

Lemma ruleOf_insert m j a k v :
  m !! j = None -> ruleOf m k v -> ruleOf (<[j := a]> m) k v.
Proof.
  unfold ruleOf. intros Hj H.
  case_bool_decide; [done|].
  destruct (String.prefix leadPrefix k); [done|].
  destruct (parentOf k) as [p|]; [|done].
  destruct H as (pa & Hpa & ->). exists pa. split; [|done].
  rewrite lookup_insert_ne; [done|]. congruence.
Qed.

Lemma Resolves_sound k m v m' :
  Resolves k m v m' -> sound m -> sound m'.
Proof.
  induction 1 as [k m v Hm|k m Hm Hl Hb|k m v1 m1 Hm Hl Hb Hrec IH
                 |k m Hm Hl Hp|k m p pa m1 Hm Hl Hp Hrec IH];
    intros Hs; try done.
  - (* a generated lead *)
    destruct Hs as [Hroot Hs]. split.
    { rewrite lookup_insert_ne; [done|]. congruence. }
    intros j a Hj. destruct (decide (k = j)) as [->|Hne].
    + rewrite lookup_insert_eq in Hj. inversion Hj; subst.
      unfold ruleOf. rewrite Hl.
      case_bool_decide as Hr; [|done]. congruence.
    + rewrite lookup_insert_ne in Hj by done.
      apply ruleOf_insert; auto.
  - (* a generated lead, after [projectLeads] *)
    destruct (IH Hs) as [Hroot Hs1].
    assert (Hk1 : m1 !! k = None).
    { destruct (m1 !! k) eqn:E; [|done]. exfalso.
      assert (rtc edge "projectLeads" k) as Hr.
      { eapply Resolves_new; eauto. }
      apply rtc_edge_rank in Hr. pose proof (rank_lead k Hl). lia. }
    split.
    { rewrite lookup_insert_ne; [done|]. congruence. }
    intros j a Hj. destruct (decide (k = j)) as [->|Hne].
    + rewrite lookup_insert_eq in Hj. inversion Hj; subst.
      unfold ruleOf. rewrite Hl.
      case_bool_decide as Hr; [|done]. congruence.
    + rewrite lookup_insert_ne in Hj by done.
      apply ruleOf_insert; auto.
  - (* an id without a parent *)
    destruct Hs as [Hroot Hs]. split.
    { rewrite lookup_insert_ne; [done|]. congruence. }
    intros j a Hj. destruct (decide (k = j)) as [->|Hne].
    + rewrite lookup_insert_eq in Hj. inversion Hj; subst.
      unfold ruleOf. rewrite Hl, Hp.
      case_bool_decide as Hr; [|done]. congruence.
    + rewrite lookup_insert_ne in Hj by done.
      apply ruleOf_insert; auto.
  - (* the rule of [k] on the amount resolved for its parent *)
    destruct (IH Hs) as [Hroot Hs1].
    assert (Hk1 : m1 !! k = None).
    { destruct (m1 !! k) eqn:E; [|done]. exfalso.
      assert (rtc edge p k) as Hr.
      { eapply Resolves_new; eauto. }
      apply rtc_edge_rank in Hr. pose proof (rank_parent k p Hl Hp). lia. }
    split.
    { rewrite lookup_insert_ne; [done|]. congruence. }
    intros j a Hj. destruct (decide (k = j)) as [->|Hne].
    + rewrite lookup_insert_eq in Hj. inversion Hj; subst.
      unfold ruleOf. rewrite Hl, Hp.
      case_bool_decide as Hr; [congruence|].
      exists pa. split; [|done].
      rewrite lookup_insert_ne.
      * by eapply Resolves_stored.
      * intros ->. pose proof (rank_parent _ _ Hl Hp). lia.
    + rewrite lookup_insert_ne in Hj by done.
      apply ruleOf_insert; auto.
Qed.

(** *** The two loops of [nodeAmounts] *)

(** One step of either loop. *)
Definition resolveOne (k : string) : M unit := compute stack k ;; mret tt.

Lemma resolveOne_Resolves k m m' :
  resolveOne k m = Some (tt, m') -> exists v, Resolves k m v m'.
Proof.
  unfold resolveOne. intros H.
  apply bind_Some in H as (v & m1 & Hc & Hr). inversion Hr; subst.
  exists v. by eapply compute_Resolves.
Qed.

Lemma resolveOne_sound k m :
  sound m -> exists m', resolveOne k m = Some (tt, m') /\ sound m'.
Proof.
  intros Hs. destruct (template_compute_stack_total k m) as [[v m'] Hc].
  exists m'. split.
  - unfold resolveOne. by erewrite bind_run.
  - eapply Resolves_sound; [|done]. by eapply compute_Resolves.
Qed.

Lemma resolveOne_dom k j m m' :
  resolveOne j m = Some (tt, m') ->
  is_Some (m !! k) -> is_Some (m' !! k).
Proof.
  intros H [a Ha]. apply resolveOne_Resolves in H as [v H].
  exists a. by eapply Resolves_mono.
Qed.

Lemma resolveOne_stored k m m' :
  resolveOne k m = Some (tt, m') -> is_Some (m' !! k).
Proof.
  intros H. apply resolveOne_Resolves in H as [v H].
  exists v. by eapply Resolves_stored.
Qed.

Lemma resolveEach_dom l k m m' :
  forEach resolveOne l m = Some (tt, m') ->
  is_Some (m !! k) -> is_Some (m' !! k).
Proof.
  revert m. induction l as [|j l IH]; intros m H Hk.
  - by inversion H; subst.
  - cbn [forEach] in H. apply bind_Some in H as ([] & m1 & Hj & H).
    eapply IH; [done|]. by eapply resolveOne_dom.
Qed.

Lemma resolveNested_dom (l : list (string * list string)) k m m' :
  forEach (fun e => forEach resolveOne (snd e)) l m = Some (tt, m') ->
  is_Some (m !! k) -> is_Some (m' !! k).
Proof.
  revert m. induction l as [|e l IH]; intros m H Hk.
  - by inversion H; subst.
  - cbn [forEach] in H. apply bind_Some in H as ([] & m1 & He & H).
    eapply IH; [done|]. by eapply resolveEach_dom.
Qed.

(** [nodeAmounts] completes on every input; its result is sound and
    holds an entry for every template and for every listed dynamic
    child. *)
Lemma nodeAmounts_spec (dynamicChildren : list (string * list string)) :
  exists m,
    nodeAmounts developerPayout nodeValues dynamicChildren leadsFirst
    = Some m /\
    sound m /\
    (forall k, In k keys -> is_Some (m !! k)) /\
    (forall e c, In e dynamicChildren -> In c (snd e) -> is_Some (m !! c)).
Proof.
  unfold nodeAmounts, resolveAll.
  set (m0 := <[rootNodeId := developerPayout]> ∅ : gmap string JS.number).
  assert (Hs0 : sound m0).
  { split; [apply lookup_insert_eq|]. intros k v Hk. subst m0.
    destruct (decide (rootNodeId = k)) as [<-|Hne].
    - rewrite lookup_insert_eq in Hk. inversion Hk; subst.
      unfold ruleOf. by rewrite bool_decide_eq_true_2.
    - by rewrite lookup_insert_ne, lookup_empty in Hk. }
  fold resolveOne.
  destruct (forEach_keeps resolveOne sound keys resolveOne_sound m0 Hs0)
    as (m1 & Hrun1 & Hs1).
  erewrite bind_run; [|exact Hrun1].
  set (inner := fun e : string * list string => forEach resolveOne (snd e)).
  destruct (forEach_keeps inner sound dynamicChildren) with (w := m1)
    as (m2 & Hrun2 & Hs2); [|done|].
  { intros e w Hw. apply forEach_keeps; [apply resolveOne_sound|done]. }
  fold inner. rewrite Hrun2. exists m2. split; [done|]. split; [done|].
  split.
  - intros k Hk. eapply resolveNested_dom; [exact Hrun2|].
    eapply (forEach_reaches resolveOne (fun k m => is_Some (m !! k)));
      eauto using resolveOne_stored, resolveOne_dom.
  - intros e c He Hc.
    eapply (forEach_reaches inner
              (fun e m => forall c, In c (snd e) -> is_Some (m !! c)));
      [| |exact Hrun2|exact He|exact Hc].
    + intros a w w' H c' Hc'.
      eapply (forEach_reaches resolveOne (fun k m => is_Some (m !! k)));
        eauto using resolveOne_stored, resolveOne_dom.
    + intros a b w w' H HQ c' Hc'. eapply resolveEach_dom; eauto.
Qed.

End Engine.

End TemplateFacts.

(* ===================================================================== *)
(** ** The free-form engine: resolved amounts *)
(* ===================================================================== *)

Module CanvasTheorems.
Import FlowchartCanvas CanvasFacts.

(** Sample nodes: every field but the id, the parent and the rule is at
    the value the node form starts from. *)
Definition sample (i : string) (p : option string) (up uf : bool)
    (pv fv : option (list JS.number)) (av : JS.number) : FlowchartNode :=
  {| id := i; label := i; x := 0; y := 0; amountType := AT_percent;
     amountValue := av; percentValues := pv; fixedValues := fv;
     percentValue := None; fixedValue := None; usePercent := up;
     useFixed := uf; formula := None; parentId := p |}.

(** A root of 1000 and a child with percent [10] and fixed [50]. *)
Definition rootAndChild : list FlowchartNode :=
  [ sample "root" None false true None (Some [1000]) 0;
    sample "child" (Some "root") true true (Some [10]) (Some [50]) 0 ].

(** Two nodes that name each other as parent, each with percent [10] and
    fixed [50]. *)
Definition cycleAB : list FlowchartNode :=
  [ sample "A" (Some "B") true true (Some [10]) (Some [50]) 0;
    sample "B" (Some "A") true true (Some [10]) (Some [50]) 0 ].

(** The same cycle with percent-only rules. *)
Definition cycleABpercent : list FlowchartNode :=
  [ sample "A" (Some "B") true false (Some [10]) None 0;
    sample "B" (Some "A") true false (Some [10]) None 0 ].

(** A root of 1000 and a second node without a parent, no fixed flag and
    an amount value of 500. *)
Definition rootAndDetached : list FlowchartNode :=
  [ sample "root" None false true None (Some [1000]) 0;
    sample "detached" None false false None None 500 ].

(** A second node without a parent, with the fixed flag and fixed [75]. *)
Definition rootAndFixed75 : list FlowchartNode :=
  [ sample "root" None false true None (Some [1000]) 0;
    sample "detached" None false true None (Some [75]) 0 ].


Lemma parentOf_None node :
  JS.truthy_str (parentId node) = false -> parentOf node = None.
Proof.
  unfold parentOf. destruct (parentId node) as [p|]; [|done].
  by intros ->.
Qed.


(** The totals are the sums of the value lists; the single legacy value
    only fills in for a list that is absent or empty. *)
Lemma percentTotal_sum node vs :
  usePercent node = true -> percentValues node = Some vs ->
  percentValue node = None -> percentTotal node = JS.sum vs.
Proof.
  intros H1 H2 H3. unfold percentTotal. rewrite H1, H2, H3.
  by destruct vs.
Qed.

Lemma fixedTotal_sum node vs :
  useFixed node = true -> fixedValues node = Some vs ->
  fixedValue node = None -> fixedTotal node = JS.sum vs.
Proof.
  intros H1 H2 H3. unfold fixedTotal. rewrite H1, H2, H3.
  by destruct vs.
Qed.




(** The child of the example of the claim resolves to 150. *)
Example combined_150 :
  fst <$> calculateNodeAmounts rootAndChild []
  = Some (<["child" := 150]> (<["root" := 1000]> ∅)).
Proof. vm_compute. reflexivity. Qed.


(** C2. Two runs of [calculateNodeAmounts] on the same node list return
    the same map, whatever the console held before each run: the memo
    object is fresh in every call and the console is only written. *)
Theorem calculateNodeAmounts_deterministic nodeList console0 console0' :
  exists m console1 console1',
    calculateNodeAmounts nodeList console0 = Some (m, console1) /\
    calculateNodeAmounts nodeList console0' = Some (m, console1').
Proof.
  destruct (calculateNodeAmounts_spec nodeList console0)
    as (m & c & Hrun & _).
  exists m, c. unfold calculateNodeAmounts in *.
  pose proof (blind_resolveAll nodeList
                {| amounts := ∅; console := console0 |}
                {| amounts := ∅; console := console0' |} eq_refl) as Hb.
  destruct (resolveAll nodeList {| amounts := ∅; console := console0 |})
    as [[[] w1]|]; [|done].
  destruct (resolveAll nodeList {| amounts := ∅; console := console0' |})
    as [[[] w2]|]; [|done].
  destruct Hb as [_ Hb]. unfold agree in Hb.
  inversion Hrun; subst. exists (console w2). by rewrite Hb.
Qed.

(** *** One step of [compute], case by case *)

Lemma compute_cycle nodeList fuel nodeId path w :
  nodeId ∈ path -> nodeId <> "__proto__" ->
  compute nodeList (S fuel) nodeId path w
  = Some (V_number 0, put nodeId 0 (log (circular_warning nodeId) w)).
Proof.
  intros H Hid. cbn [compute]. rewrite bool_decide_eq_true_2 by done.
  unfold mbind, M_bind, warn, set, put, log. cbn [amounts console].
  by rewrite write_plain.
Qed.

Lemma compute_memo nodeList fuel nodeId path w v :
  nodeId ∉ path -> read (amounts w) nodeId = Some v ->
  compute nodeList (S fuel) nodeId path w = Some (v, w).
Proof.
  intros Hp Hm. simpl. rewrite bool_decide_eq_false_2 by done.
  unfold mbind, M_bind, get. by rewrite Hm.
Qed.

Lemma compute_rule nodeList fuel nodeId path w node parent pa w1 :
  nodeId ∉ path -> read (amounts w) nodeId = None ->
  findNode nodeList nodeId = Some node -> parentOf node = Some parent ->
  compute nodeList fuel parent (path ∪ {[nodeId]}) w = Some (pa, w1) ->
  compute nodeList (S fuel) nodeId path w
  = Some (V_number (share node (toNumber pa)),
          put nodeId (share node (toNumber pa)) w1).
Proof.
  intros Hp Hm Hf Hpar Hrec. cbn [compute].
  rewrite bool_decide_eq_false_2 by done.
  unfold mbind at 1, M_bind at 1, get at 1. rewrite Hm, Hf, Hpar.
  erewrite bind_run; [|done].
  apply read_None in Hm as [_ Hplain].
  erewrite bind_run; [|by apply set_plain]. done.
Qed.

(** C3, as the code has it.  Resolution completes on every node list,
    cyclic or not.  A call of [compute] for an id that is on its own path
    logs the warning, records 0 for that id at that moment and returns 0.
    In a cycle of two nodes [a] and [b] whose ids are not names of
    [Object.prototype] members, resolved from [a], exactly the re-entry
    into [a] is logged, and [b] resolves to its own rule on a parent
    amount of 0. *)
Theorem cycle_resolution :
  (forall nodeList console0,
      exists m console1,
        calculateNodeAmounts nodeList console0 = Some (m, console1)) /\
  (forall nodeList fuel nodeId path w,
      nodeId ∈ path -> nodeId <> "__proto__" ->
      compute nodeList (S fuel) nodeId path w
      = Some (V_number 0,
              {| amounts := <[nodeId := 0]> (amounts w);
                 console := console w ++ [circular_warning nodeId] |})) /\
  (forall a b console0,
      id a <> id b ->
      inherited (id a) = false -> inherited (id b) = false ->
      parentOf a = Some (id b) -> parentOf b = Some (id a) ->
      exists m,
        calculateNodeAmounts [a; b] console0
        = Some (m, console0 ++ [circular_warning (id a)]) /\
        m !! id b = Some (share b 0)).
Proof.
  split; [|split].
  { intros nodeList console0.
    destruct (calculateNodeAmounts_spec nodeList console0)
      as (m & c & Hrun & _).
    by exists m, c. }
  { intros nodeList fuel nodeId path w Hin Hid.
    by rewrite compute_cycle. }
  intros a b console0 Hab Hpa Hpb Ha Hb.
  assert (Hfa : findNode [a; b] (id a) = Some a).
  { unfold findNode. simpl. by rewrite bool_decide_eq_true_2. }
  assert (Hfb : findNode [a; b] (id b) = Some b).
  { unfold findNode. simpl. rewrite bool_decide_eq_false_2 by done.
    by rewrite bool_decide_eq_true_2. }
  set (w0 := {| amounts := ∅; console := console0 |}).
  set (w1 := put (id a) 0 (log (circular_warning (id a)) w0)).
  set (w2 := put (id b) (share b 0) w1).
  set (w3 := put (id a) (share a (share b 0)) w2).
  assert (Hra : read (amounts w0) (id a) = None).
  { apply read_None. split; [apply lookup_empty|done]. }
  assert (Hrb : read (amounts w0) (id b) = None).
  { apply read_None. split; [apply lookup_empty|done]. }
  assert (H1 : compute [a; b] 1 (id a) (∅ ∪ {[id a]} ∪ {[id b]}) w0
               = Some (V_number 0, w1)).
  { apply compute_cycle; [set_solver|by apply inherited_proto]. }
  assert (H2 : compute [a; b] 2 (id b) (∅ ∪ {[id a]}) w0
               = Some (V_number (share b 0), w2)).
  { eapply (compute_rule _ _ _ _ _ _ _ (V_number 0)); eauto; set_solver. }
  assert (H3 : compute [a; b] 3 (id a) ∅ w0
               = Some (V_number (share a (share b 0)), w3)).
  { eapply (compute_rule _ _ _ _ _ _ _ (V_number (share b 0))); eauto;
      set_solver. }
  assert (H4 : compute [a; b] 3 (id b) ∅ w3
               = Some (V_number (share b 0), w3)).
  { apply compute_memo; [set_solver|]. subst w3 w2. cbn [put amounts].
    apply read_own. rewrite lookup_insert_ne by done. apply lookup_insert_eq. }
  exists (amounts w3). split.
  - unfold calculateNodeAmounts, resolveAll.
    erewrite bind_run; [|apply forEach_seedRoot].
    unfold seeds. cbn [fold_left amounts console]. rewrite Ha, Hb.
    fold w0. cbn [forEach]. unfold stack. cbn [length].
    erewrite bind_run; [|by erewrite bind_run].
    erewrite bind_run; [|by erewrite bind_run].
    done.
  - subst w3 w2. simpl. rewrite lookup_insert_ne by done.
    apply lookup_insert_eq.
Qed.

(** The instance of C3 at two nodes with percent [10] and fixed [50]. *)
Lemma cycle_resolution_witness :
  exists m,
    calculateNodeAmounts cycleAB []
    = Some (m, ["Circular reference detected for node: A"]) /\
    m !! "B" = Some 50.
Proof.
  refine (proj2 (proj2 cycle_resolution)
            (sample "A" (Some "B") true true (Some [10]) (Some [50]) 0)
            (sample "B" (Some "A") true true (Some [10]) (Some [50]) 0)
            [] _ eq_refl eq_refl eq_refl eq_refl).
  simpl. discriminate.
Defined.

(** C3 as stated fails: in the cycle of [A] and [B] with percent [10]
    and fixed [50] neither node resolves to 0. *)
Lemma cycle_nodes_not_zero :
  exists m console1,
    calculateNodeAmounts cycleAB [] = Some (m, console1) /\
    m !! "A" = Some 55 /\ m !! "B" = Some 50 /\
    m !! "A" <> Some 0 /\ m !! "B" <> Some 0.
Proof.
  assert (E : fst <$> calculateNodeAmounts cycleAB []
              = Some (<["A" := 55]> (<["B" := 50]> ∅)))
    by (vm_compute; reflexivity).
  destruct (calculateNodeAmounts cycleAB []) as [[m c]|]; [|done].
  injection E as ->. eexists _, c. split; [done|].
  rewrite lookup_insert_eq, lookup_insert_ne, lookup_insert_eq by done.
  repeat split; done.
Qed.

(** With percent-only rules both nodes of the cycle resolve to 0. *)
Example cycle_percent_only_zero :
  fst <$> calculateNodeAmounts cycleABpercent []
  = Some (<["A" := 0]> (<["B" := 0]> ∅)).
Proof. vm_compute. reflexivity. Qed.

(** C8, as the code has it.  In a list with unique ids, a node whose
    [parentId] is null (or empty) and whose id is not [__proto__] resolves
    to the amount of the first pass, whatever the other nodes are: the sum
    of its fixed values when the fixed flag is set and the list is not
    empty; else the legacy single fixed value when the flag is set; else
    its [amountValue] (0 for a falsy value, unless the amount type is
    fixed).  No root scalar enters the free-form engine. *)
Theorem detached_root_amount nodeList node console0 :
  NoDup (map id nodeList) ->
  In node nodeList ->
  JS.truthy_str (parentId node) = false ->
  id node <> "__proto__" ->
  exists m console1,
    calculateNodeAmounts nodeList console0 = Some (m, console1) /\
    m !! id node = Some (rootAmount node) /\
    (forall v vs, useFixed node = true -> fixedValues node = Some (v :: vs) ->
                  rootAmount node = fold_left PrimFloat.add (v :: vs) 0) /\
    (useFixed node = true -> nonempty (fixedValues node) = None ->
     forall v, fixedValue node = Some v -> rootAmount node = v) /\
    (useFixed node = false \/
     nonempty (fixedValues node) = None /\ fixedValue node = None ->
     rootAmount node = match amountType node with
                       | AT_fixed => amountValue node
                       | _ => JS.or_else (amountValue node) 0
                       end).
Proof.
  intros Hnd Hin Hp Hid.
  destruct (calculateNodeAmounts_spec nodeList console0)
    as (m & c & Hrun & _ & Huniq).
  destruct (Huniq Hnd) as (_ & Hroots & _).
  exists m, c. split; [done|]. split.
  - apply Hroots; [done| |done]. by apply parentOf_None.
  - split; [|split].
    + intros v vs Hf Hvs. unfold rootAmount. by rewrite Hf, Hvs.
    + intros Hf Hvs v Hv. unfold rootAmount. by rewrite Hf, Hvs, Hv.
    + intros [Hf|[Hvs Hv]]; unfold rootAmount.
      * by rewrite Hf.
      * rewrite Hvs, Hv. by destruct (useFixed node).
Qed.

(** The instance of C8 at a second parentless node with fixed [75]. *)
Lemma detached_root_amount_witness :
  exists m console1,
    calculateNodeAmounts rootAndFixed75 [] = Some (m, console1) /\
    m !! "detached" = Some 75.
Proof.
  destruct (detached_root_amount rootAndFixed75
              (sample "detached" None false true None (Some [75]) 0) [])
    as (m & c & Hrun & Hv & Hsum & _).
  - apply (bool_decide_unpack _). vm_compute. exact I.
  - right. left. reflexivity.
  - reflexivity.
  - discriminate.
  - exists m, c. split; [exact Hrun|]. cbn [id sample] in Hv. rewrite Hv.
    rewrite (Hsum 75 [] eq_refl eq_refl). vm_compute. reflexivity.
Defined.

(** C8 as stated fails: a parentless node without the fixed flag and
    with an amount value of 500 resolves to 500, not to 0. *)
Lemma detached_not_zero :
  exists m console1,
    calculateNodeAmounts rootAndDetached [] = Some (m, console1) /\
    m !! "detached" = Some 500 /\ m !! "detached" <> Some 0.
Proof.
  assert (E : fst <$> calculateNodeAmounts rootAndDetached []
              = Some (<["detached" := 500]> (<["root" := 1000]> ∅)))
    by (vm_compute; reflexivity).
  destruct (calculateNodeAmounts rootAndDetached []) as [[m c]|]; [|done].
  injection E as ->. eexists _, c. split; [done|].
  rewrite lookup_insert_eq. split; done.
Qed.

(** A root of 1000, and under it a node whose id is the name of a member
    of [Object.prototype]. *)
Definition rootAndToString : list FlowchartNode :=
  [ sample "root" None false true None (Some [1000]) 0;
    sample "toString" (Some "root") true true (Some [10]) (Some [50]) 0 ].

(** X27.  [calculateNodeAmounts] completes on every node list, and the
    map it returns has an entry for every node whose id is not a name of
    an [Object.prototype] member and for every node without a parent
    whose id is not [__proto__]: for these the memo test of [compute]
    fails until an amount is stored. *)
Theorem plain_nodes_have_amounts nodeList console0 :
  exists m console1,
    calculateNodeAmounts nodeList console0 = Some (m, console1) /\
    forall node, In node nodeList ->
      inherited (id node) = false \/
      parentOf node = None /\ id node <> "__proto__" ->
      is_Some (m !! id node).
Proof.
  destruct (calculateNodeAmounts_spec nodeList console0)
    as (m & c & Hrun & Hdom & _).
  by exists m, c.
Qed.

(** C10 at a root and a child with the id [toString]: the memo test
    [amounts[nodeId] !== undefined] succeeds on the function that
    [Object.prototype] holds under that name, [compute] returns it and
    stores nothing; the map that is returned has an entry for the root
    only. *)
Theorem every_node_has_amount :
  calculateNodeAmounts rootAndToString []
  = Some (<["root" := 1000]> ∅, []) /\
  compute rootAndToString (stack rootAndToString) "toString" ∅
          {| amounts := <["root" := 1000]> ∅; console := [] |}
  = Some (V_member, {| amounts := <["root" := 1000]> ∅; console := [] |}) /\
  exists node m,
    In node rootAndToString /\
    fst <$> calculateNodeAmounts rootAndToString [] = Some m /\
    m !! id node = None.
Proof.
  assert (E : calculateNodeAmounts rootAndToString []
              = Some (<["root" := 1000]> ∅, [])) by (vm_compute; reflexivity).
  split; [exact E|]. split; [vm_compute; reflexivity|].
  exists (sample "toString" (Some "root") true true (Some [10]) (Some [50]) 0),
         (<["root" := 1000]> ∅).
  split; [right; left; reflexivity|]. rewrite E. split; [reflexivity|].
  vm_compute. reflexivity.
Qed.

(** *** Deleting a node *)

Definition connPC : FlowchartConnection :=
  {| conn_id := "conn-P-C"; from := "P"; to := "C" |}.

(** A parent [P] with one child [C] and the edge between them. *)
Definition parentAndChild : Canvas :=
  {| nodes := [ sample "P" None false true None (Some [1000]) 0;
                sample "C" (Some "P") true false (Some [10]) None 0 ];
     connections := [connPC];
     selectedNode := None |}.

(** Every node that survives [handleDeleteNode] is kept as it is. *)
Lemma handleDeleteNode_nodes nodeId st node :
  In node (nodes (handleDeleteNode nodeId st)) <->
  In node (nodes st) /\ id node <> nodeId.
Proof.
  unfold handleDeleteNode. simpl. rewrite filter_In.
  rewrite negb_true_iff, bool_decide_eq_false. done.
Qed.

(** No connection that names the deleted node is left. *)
Lemma handleDeleteNode_connections nodeId st c :
  In c (connections (handleDeleteNode nodeId st)) <->
  In c (connections st) /\ from c <> nodeId /\ to c <> nodeId.
Proof.
  unfold handleDeleteNode. simpl. rewrite filter_In, andb_true_iff.
  rewrite !negb_true_iff, !bool_decide_eq_false. done.
Qed.

(** C6 at a parent with one child: deleting the parent removes it and
    the edge, and leaves the child with its [parentId] still naming the
    deleted node; the child then resolves against a parent amount of 0.
    Deleting the edge instead does clear the [parentId] of the child. *)
Theorem deleteNode_keeps_parentId :
  handleDeleteNode "P" parentAndChild
  = {| nodes := [ sample "C" (Some "P") true false (Some [10]) None 0 ];
       connections := [];
       selectedNode := None |} /\
  nodes (handleDeleteConnection "conn-P-C" parentAndChild)
  = [ sample "P" None false true None (Some [1000]) 0;
      sample "C" None true false (Some [10]) None 0 ] /\
  fst <$> calculateNodeAmounts (nodes (handleDeleteNode "P" parentAndChild)) []
  = Some (<["C" := 0]> (<["P" := 0]> ∅)).
Proof. split; [|split]; vm_compute; reflexivity. Qed.

End CanvasTheorems.

(* ===================================================================== *)
(** ** The template-driven engine: resolved and displayed amounts *)
(* ===================================================================== *)

Module TemplateTheorems.
Import PayoutSchema PayoutTree PayoutTreeEditing TemplateFacts JSFacts.

(** X25.  For every group template, the display function of the cards
    and the one of the diagram return the sum, added from the left and
    starting at 0, of the resolved amounts (0 for a missing one) of the
    children the template lists, which are exactly the ids whose parent it
    is; neither reads the percent or fixed value of the group itself. *)
Lemma group_card_amount
    (developerPayout : JS.number)
    (data : CommissionFlowDiagram.CommissionFlowData)
    (nodeAmounts : gmap string JS.number) (nodeId : string)
    (t : NodeTemplate) :
  lookupNode nodeId = Some t -> kind t = Some group ->
  getDisplayAmount developerPayout nodeAmounts nodeId
  = fold_left (fun sum childId => sum + default 0 (nodeAmounts !! childId))
              (default [] (childIds t)) 0 /\
  CommissionFlowDiagram.getDisplayAmount data nodeAmounts nodeId
  = fold_left (fun sum childId => sum + default 0 (nodeAmounts !! childId))
              (default [] (childIds t)) 0 /\
  (forall c, In c (default [] (childIds t)) <-> parentOf c = Some nodeId).
Proof.
  intros Ht Hk. split; [|split].
  - unfold getDisplayAmount. rewrite Ht. destruct t; simpl in *.
    by rewrite Hk.
  - unfold CommissionFlowDiagram.getDisplayAmount. rewrite Ht.
    destruct t; simpl in *. by rewrite Hk.
  - intros c. split.
    + by apply lookupNode_facts.
    + intros Hp. destruct (parentOf_facts c nodeId Hp)
        as (_ & _ & _ & _ & _ & _ & t' & Ht' & Hin).
      congruence.
Qed.

(** Amounts of 300.00 and 450.25 for the two children of the group. *)
Definition twoChildren : gmap string JS.number :=
  <["taggerFee" := 300]> (<["taggerIncentive" := 450.25]> ∅).

Definition noData : CommissionFlowDiagram.CommissionFlowData :=
  {| CommissionFlowDiagram.developerPayout := 0;
     CommissionFlowDiagram.nodeValues := ∅;
     CommissionFlowDiagram.projectLeadsTotal := ∅;
     CommissionFlowDiagram.dynamicChildren := [] |}.

(** The group [taggerCombined] with children at 300.00 and 450.25. *)
Lemma group_card_amount_witness :
  getDisplayAmount 0 twoChildren "taggerCombined" = 750.25 /\
  CommissionFlowDiagram.getDisplayAmount noData twoChildren "taggerCombined"
  = 750.25.
Proof.
  destruct (group_card_amount 0 noData twoChildren "taggerCombined"
              {| id := "taggerCombined";
                 label := "Tagger Fee 0.3% + Incentive";
                 defaultPercent := Some 0; defaultFixed := None;
                 childIds := Some ["taggerFee"; "taggerIncentive"];
                 kind := Some group |}) as (H1 & H2 & _).
  - vm_compute. reflexivity.
  - reflexivity.
  - rewrite H1, H2. split; vm_compute; reflexivity.
Defined.

(** Children at 300.00 and 450.25 give the group 750.25. *)
Example group_display_750_25 :
  getDisplayAmount 0 twoChildren "taggerCombined" = 750.25 /\
  CommissionFlowDiagram.getDisplayAmount noData twoChildren "taggerCombined"
  = 750.25.
Proof. split; vm_compute; reflexivity. Qed.

(** The editor after a payout of 1,000,000 was submitted, the branches
    of [taggerCombined] and [taggerFee] were opened and the tree button
    was pressed. *)
Definition treeOfTaggerFee : State :=
  toggleTreeView
    (handleInspectNode "taggerFee"
       (handleInspectNode "taggerCombined"
          (handleSubmitModal 1000000 initialState))).

(** C4 in the tree view of the editor.  With the default values and a
    payout of 1,000,000 the children of the group [taggerCombined]
    resolve to 3000 and 2000, and the cards show 5000 for the group, the
    sum that [getDisplayAmount] forms; the row of the group in [TreeView]
    shows its own memo entry instead, 0. *)
Theorem tree_view_shows_group_entry :
  showTreeView treeOfTaggerFee = true /\
  treeViewRows treeOfTaggerFee
  = Some [("developerPayout", 1000000); ("taggerCombined", 0);
          ("taggerFee", 3000)] /\
  (lookupNode "taggerCombined" ≫= kind) = Some group /\
  (lookupNode "taggerCombined" ≫= childIds)
  = Some ["taggerFee"; "taggerIncentive"] /\
  (m ← nodeAmountsOf treeOfTaggerFee;
   Some (m !! "taggerFee", m !! "taggerIncentive"))
  = Some (Some 3000, Some 2000) /\
  displayAmountOf treeOfTaggerFee "taggerCombined" = Some 5000.
Proof. repeat split; vm_compute; reflexivity. Qed.

(** C5, as the code has it.  [nodeAmounts] completes on every input.
    The one node [taggerFee], under the group [taggerCombined], takes
    its percent share of the root scalar [developerPayout]; every other
    template with a parent, the other children of the group included,
    takes its percent share of the amount resolved for that parent. *)
Theorem percent_base developerPayout nodeValues dynamicChildren leadsFirst :
  exists m,
    nodeAmounts developerPayout nodeValues dynamicChildren leadsFirst
    = Some m /\
    m !! "taggerFee"
    = Some (JS.round2 (developerPayout * percentOf nodeValues "taggerFee"
                       + fixedOf nodeValues "taggerFee")) /\
    forall k p, k <> "taggerFee" -> parentOf k = Some p ->
      exists pa,
        m !! p = Some pa /\
        m !! k = Some (JS.round2 (pa * percentOf nodeValues k
                                  + fixedOf nodeValues k)).
Proof.
  destruct (nodeAmounts_spec developerPayout nodeValues leadsFirst
              dynamicChildren) as (m & Hrun & [_ Hsound] & Hkeys & _).
  exists m. split; [done|].
  assert (Hrule : forall k p, parentOf k = Some p ->
            exists v pa, m !! k = Some v /\ m !! p = Some pa /\
                         v = nodeAmount developerPayout nodeValues k p pa).
  { intros k p Hp.
    destruct (parentOf_facts k p Hp) as (_ & _ & _ & Hin & Hroot & Hl & _).
    destruct (Hkeys k Hin) as [v Hv]. specialize (Hsound k v Hv).
    unfold ruleOf in Hsound.
    rewrite bool_decide_eq_false_2, Hl, Hp in Hsound by done.
    destruct Hsound as (pa & Hpa & ->). eauto. }
  split.
  - destruct (Hrule "taggerFee" "taggerCombined") as (v & pa & Hv & _ & ->).
    { vm_compute. reflexivity. }
    by rewrite Hv.
  - intros k p Hne Hp.
    destruct (Hrule k p Hp) as (v & pa & Hv & Hpa & ->).
    exists pa. split; [done|]. rewrite Hv. unfold nodeAmount.
    by rewrite bool_decide_eq_false_2.
Qed.

(** The default values with a percent of 0.5 on [taggerIncentive], the
    sibling of [taggerFee] under the group. *)
Definition incentiveWithPercent : gmap string NodeValue :=
  <["taggerIncentive" := {| percent := Some 0.5; fixed := Some 2000 |}]>
    buildInitialValues.

(** C5 as stated fails: [taggerIncentive], whose parent is the group
    [taggerCombined] under the root, takes its percent share of the
    amount 0 resolved for the group, not of the root scalar 1000. *)
Lemma group_child_uses_group_amount :
  (lookupNode "taggerCombined" ≫= kind) = Some group /\
  parentOf "taggerIncentive" = Some "taggerCombined" /\
  parentOf "taggerCombined" = Some "developerPayout" /\
  exists m,
    nodeAmounts 1000 incentiveWithPercent [] true = Some m /\
    m !! "developerPayout" = Some 1000 /\
    m !! "taggerCombined" = Some 0 /\
    m !! "taggerIncentive" = Some 2000 /\
    JS.round2 (1000 * 0.5 + 2000) = 2500 /\
    m !! "taggerIncentive" <> Some (JS.round2 (1000 * 0.5 + 2000)).
Proof.
  split; [vm_compute; reflexivity|]. split; [vm_compute; reflexivity|].
  split; [vm_compute; reflexivity|].
  assert (E : (fun m : gmap string JS.number =>
                 (m !! "developerPayout", m !! "taggerCombined",
                  m !! "taggerIncentive"))
              <$> nodeAmounts 1000 incentiveWithPercent [] true
              = Some (Some 1000, Some 0, Some 2000))
    by (vm_compute; reflexivity).
  destruct (nodeAmounts 1000 incentiveWithPercent [] true) as [m|]; [|done].
  cbn [fmap option_fmap option_map] in E. injection E as H1 H2 H3.
  assert (H4 : JS.round2 (1000 * 0.5 + 2000) = 2500)
    by (vm_compute; reflexivity).
  exists m. rewrite H1, H2, H3, H4. repeat split; done.
Qed.

(** The templates nobody lists as a child ([referralFee],
    [overrideCommission]) have no parent entry; in the template-driven
    engine such an id resolves to 0 whatever percent or fixed value it
    holds. *)
Lemma orphan_template_resolves_zero
    developerPayout nodeValues dynamicChildren leadsFirst k :
  In k keys -> k <> rootNodeId -> parentOf k = None ->
  exists m,
    nodeAmounts developerPayout nodeValues dynamicChildren leadsFirst
    = Some m /\
    m !! k = Some 0.
Proof.
  intros Hin Hroot Hp.
  destruct (nodeAmounts_spec developerPayout nodeValues leadsFirst
              dynamicChildren) as (m & Hrun & [_ Hsound] & Hkeys & _).
  exists m. split; [done|].
  destruct (Hkeys k Hin) as [v Hv]. specialize (Hsound k v Hv).
  unfold ruleOf in Hsound.
  rewrite bool_decide_eq_false_2, (keys_not_lead k Hin), Hp in Hsound by done.
  by rewrite Hv, Hsound.
Qed.

Example referralFee_is_orphan :
  In "referralFee" keys /\ parentOf "referralFee" = None.
Proof. split; [|vm_compute; reflexivity]. unfold keys. simpl. tauto. Qed.

(** *** Reordering siblings *)

(** [handleDragEnd] writes none of the three inputs of [nodeAmounts]. *)
Lemma handleDragEnd_inputs event st :
  developerPayout (handleDragEnd event st) = developerPayout st /\
  nodeValues (handleDragEnd event st) = nodeValues st /\
  dynamicChildren (handleDragEnd event st) = dynamicChildren st.
Proof.
  unfold handleDragEnd.
  destruct (over event) as [over|]; [|done].
  cbn [activeNodeId setDragInfo projectLeadsTotal childOrders].
  destruct (bool_decide (item_id over = activeNodeId st)
            && bool_decide (item_parentId (active event)
                            = Some (activeNodeId st))).
  { destruct (_ && _); [done|]. by destruct (hasBranch _ _). }
  destruct (item_parentId (active event)) as [parent|]; [|done].
  destruct (_ || _); [done|].
  destruct (childOrders st !! parent) as [currentOrder|]; [|done].
  destruct (indexOf _ currentOrder); [|done].
  by destruct (indexOf _ currentOrder).
Qed.

(** The editor on the root with the default values and orders and a
    payout of 1,000,000. *)
Definition editor : State :=
  {| developerPayout := 1000000;
     nodeValues := buildInitialValues;
     childOrders := buildInitialOrders;
     activeNodeId := rootNodeId;
     showTreeView := false;
     dragInfo := None;
     projectLeadsTotal := ∅;
     dynamicChildren := [];
     isProjectLeadsModalOpen := false;
     projectLeadsModalValue := None;
     pendingProjectLeadsNode := None |}.

(** The first child of the root dropped on the last one. *)
Definition dropFirstOnLast : DragEndEvent :=
  {| active := {| item_id := "directIcb";
                  item_parentId := Some "developerPayout" |};
     over := Some {| item_id := "eraAgency";
                     item_parentId := Some "developerPayout" |} |}.

(** That drop does reorder the children of the root. *)
Example drop_reorders :
  childOrders editor !! "developerPayout"
  = Some ["directIcb"; "taggerCombined"; "eraAgency"] /\
  childOrders (handleDragEnd dropFirstOnLast editor) !! "developerPayout"
  = Some ["taggerCombined"; "eraAgency"; "directIcb"].
Proof. split; vm_compute; reflexivity. Qed.

(** C9. Whatever drag ends on whatever state, a sibling reorder
    included, the resolved amount map exists and is the same before and
    after, and so is the amount displayed for every node. *)
Theorem reorder_keeps_amounts event st :
  exists m,
    nodeAmountsOf st = Some m /\
    nodeAmountsOf (handleDragEnd event st) = Some m /\
    forall nodeId,
      displayAmountOf (handleDragEnd event st) nodeId
      = displayAmountOf st nodeId.
Proof.
  destruct (handleDragEnd_inputs event st) as (Hd & Hv & Hc).
  destruct (nodeAmounts_spec (developerPayout st) (nodeValues st) true
              (dynamicChildren st)) as (m & Hm & _).
  assert (Heq : nodeAmountsOf (handleDragEnd event st) = nodeAmountsOf st).
  { unfold nodeAmountsOf. by rewrite Hd, Hv, Hc. }
  exists m. split; [done|]. split; [by rewrite Heq|].
  intros nodeId. unfold displayAmountOf. by rewrite Heq, Hd.
Qed.

(** *** Dynamic child expansion *)

Lemma entry_assign {V} k (v : V) o : entry k (assign k v o) = Some v.
Proof.
  unfold entry. induction o as [|[k' v'] o IH]; simpl.
  - by rewrite bool_decide_eq_true_2.
  - case_bool_decide as Hk; simpl.
    + by rewrite bool_decide_eq_true_2.
    + by rewrite bool_decide_eq_false_2.
Qed.

Lemma entry_assign_other {V} k j (v : V) o :
  j <> k -> entry j (assign k v o) = entry j o.
Proof.
  intros Hne. unfold entry. induction o as [|[k' v'] o IH]; simpl.
  - by rewrite bool_decide_eq_false_2.
  - case_bool_decide as Hk; simpl.
    + subst k'. by rewrite !bool_decide_eq_false_2.
    + case_bool_decide; [done|]. apply IH.
Qed.

(** After [childIds.forEach((childId) => updated[childId] = value)]. *)
Lemma seeded_lookup (value : NodeValue) (l : list string) :
  forall (updated : gmap string NodeValue) k,
  In k l ->
  fold_left (fun updated childId => <[childId := value]> updated) l updated
  !! k = Some value.
Proof.
  assert (H : forall (updated : gmap string NodeValue) k,
            updated !! k = Some value \/ In k l ->
            fold_left (fun updated childId => <[childId := value]> updated)
                      l updated !! k = Some value).
  { induction l as [|c l IH]; intros updated k Hk; simpl.
    - by destruct Hk.
    - apply IH. destruct (decide (c = k)) as [->|Hne].
      + left. apply lookup_insert_eq.
      + rewrite lookup_insert_ne by done.
        destruct Hk as [Hk|[Hk|Hk]]; [by left|done|by right]. }
  intros updated k Hk. apply H. by right.
Qed.

Lemma seeded_lookup_other (value : NodeValue) (l : list string) :
  forall (updated : gmap string NodeValue) k,
  ~ In k l ->
  fold_left (fun updated childId => <[childId := value]> updated) l updated
  !! k = updated !! k.
Proof.
  induction l as [|c l IH]; intros updated k Hk; simpl; [done|].
  rewrite IH by (intros H; apply Hk; by right).
  apply lookup_insert_ne. intros ->. apply Hk. by left.
Qed.

(** The rounds of the loop are counted by the integer part of the
    count. *)
Lemma loopRounds_whole total rounds :
  loopRounds total = Some rounds -> rounds = Z.to_nat (JS.whole total).
Proof.
  unfold loopRounds. destruct (_ && _); [|done]. by intros [= <-].
Qed.

(** X26.  Submitting the count [total > 0] for the pending node [nodeId]
    completes when the loop does; the dynamic children of [nodeId] become
    exactly [nodeId_lead_1 .. nodeId_lead_n], [n] being the integer part
    of the count, whatever they were before, and the children of other
    nodes are kept; the count is recorded as it was typed; every generated
    id gets percent 0 and the fixed value
    [Math.round(projectLeadsAmount / total * 100) / 100], where
    [projectLeadsAmount] is recomputed at submission as the percent share
    of [nodeId] in [grandParentAmount * parentPercent + parentFixed], the
    grandparent amount being read from the current amount map. *)
Lemma expansion_seeds_equal_shares st nodeId total rounds :
  pendingProjectLeadsNode st = Some nodeId -> nodeId <> "" ->
  projectLeadsModalValue st = Some total -> JS.gt0 total = true ->
  loopRounds total = Some rounds ->
  exists nodeAmounts st',
    nodeAmountsOf st = Some nodeAmounts /\
    handleSubmitProjectLeadsModal st = Some st' /\
    entry nodeId (dynamicChildren st')
    = Some (List.map (leadId nodeId) (seq 1 rounds)) /\
    (forall k, k <> nodeId ->
       entry k (dynamicChildren st') = entry k (dynamicChildren st)) /\
    projectLeadsTotal st' !! nodeId = Some total /\
    (forall i, 1 <= i <= rounds ->
       nodeValues st' !! leadId nodeId i
       = Some {| percent := Some 0;
                 fixed :=
                   Some (PrimFloat.div
                           (JS.Math_round
                              (PrimFloat.mul
                                 (projectLeadsAmount st nodeAmounts nodeId
                                  / total)
                                 100))
                           100) |}) /\
    (forall k, ~ In k (leadIds nodeId rounds) ->
       nodeValues st' !! k = nodeValues st !! k) /\
    developerPayout st' = developerPayout st.
Proof.
  intros Hpending Hne Hvalue Htotal Hrounds.
  destruct (nodeAmounts_spec (developerPayout st) (nodeValues st) true
              (dynamicChildren st)) as (m & Hm & _).
  exists m. unfold handleSubmitProjectLeadsModal.
  fold (nodeAmountsOf st) in Hm. rewrite Hm, Hpending, Hvalue.
  cbn [default from_option Datatypes.id].
  rewrite (or_else_gt0 _ Htotal), Htotal, Hrounds.
  cbn [JS.truthy_str]. rewrite bool_decide_eq_false_2 by done.
  cbn [negb andb]. eexists. split; [done|]. split; [done|].
  cbn [dynamicChildren nodeValues developerPayout projectLeadsTotal].
  split; [apply entry_assign|]. split.
  { intros k Hk. by apply entry_assign_other. }
  split; [apply lookup_insert_eq|]. split.
  { intros i Hi. apply seeded_lookup. unfold leadIds.
    apply in_map, in_seq. lia. }
  split; [|done].
  intros k Hk. by apply seeded_lookup_other.
Qed.

(** The editor with the count 4 typed for [projectLeads]. *)
Definition pendingFour : State :=
  openProjectLeadsModal "projectLeads" (Some 4) editor.

(** The editor with the count 2.5 typed for [projectLeads]. *)
Definition pendingTwoAndHalf : State :=
  openProjectLeadsModal "projectLeads" (Some 2.5) editor.

(** A count of 2.5 on the default values: two leads, each seeded with
    255 / 2.5 = 102, and a recorded count of 2.5. *)
Lemma expansion_seeds_equal_shares_witness :
  exists st',
    handleSubmitProjectLeadsModal pendingTwoAndHalf = Some st' /\
    entry "projectLeads" (dynamicChildren st')
    = Some ["projectLeads_lead_1"; "projectLeads_lead_2"] /\
    projectLeadsTotal st' !! "projectLeads" = Some 2.5 /\
    nodeValues st' !! "projectLeads_lead_2"
    = Some {| percent := Some 0; fixed := Some 102 |}.
Proof.
  destruct (expansion_seeds_equal_shares pendingTwoAndHalf "projectLeads"
              2.5 2%nat)
    as (m & st' & Hm & Hrun & Hdyn & _ & Htotal & Hseed & _).
  - reflexivity.
  - discriminate.
  - reflexivity.
  - reflexivity.
  - reflexivity.
  - exists st'. split; [exact Hrun|]. split; [exact Hdyn|].
    split; [exact Htotal|].
    assert (Hm' : option_map (fun m => projectLeadsAmount pendingTwoAndHalf m
                                         "projectLeads")
                    (nodeAmountsOf pendingTwoAndHalf) = Some 255)
      by (vm_compute; reflexivity).
    rewrite Hm in Hm'. cbn [option_map] in Hm'. injection Hm' as Hamount.
    specialize (Hseed 2%nat (conj (le_S 1 1 (le_n 1)) (le_n 2))).
    rewrite Hamount in Hseed.
    change (leadId "projectLeads" 2) with "projectLeads_lead_2" in Hseed.
    rewrite Hseed. vm_compute. reflexivity.
Defined.

(** What is read off a submission: the amount resolved for
    [projectLeads] before it, and the fixed value of the first lead
    after it. *)
Definition resolvedAndSeed (st : State)
  : option (option JS.number * option JS.number) :=
  match nodeAmountsOf st, handleSubmitProjectLeadsModal st with
  | Some m, Some st' =>
      Some (m !! "projectLeads",
            nodeValues st' !! "projectLeads_lead_1" ≫= fixed)
  | _, _ => None
  end.

(** The editor after a payout of 5000 was submitted, the branches down
    to [newLaunchTeam] were opened, [projectLeads] was inspected for the
    first time and the count 3 was typed. *)
Definition pendingThree : State :=
  typeProjectLeadsCount (Some 3)
    (handleInspectNode "projectLeads"
       (handleInspectNode "newLaunchTeam"
          (handleInspectNode "taggerKw"
             (handleInspectNode "taggerFee"
                (handleInspectNode "taggerCombined"
                   (handleSubmitModal 5000 initialState)))))).

(** C7 at a payout of 5000 and a count of 3.  The dialog is open for
    [projectLeads], which resolves to 1.27; the submission generates the
    ids [projectLeads_lead_1] to [projectLeads_lead_3] and seeds each with
    0.43, a third of the amount 1.275 that the handler recomputes from
    the unrounded amount of the parent, and not with 0.42, a third of the
    resolved amount. *)
Theorem seed_is_not_share_of_resolved_amount :
  pendingProjectLeadsNode pendingThree = Some "projectLeads" /\
  activeNodeId pendingThree = "newLaunchTeam" /\
  (st' ← handleSubmitProjectLeadsModal pendingThree;
   Some (entry "projectLeads" (dynamicChildren st')))
  = Some (Some ["projectLeads_lead_1"; "projectLeads_lead_2";
                "projectLeads_lead_3"]) /\
  resolvedAndSeed pendingThree = Some (Some 1.27, Some 0.43) /\
  JS.round2 (1.27 / 3) = 0.42 /\
  Some 0.43 <> Some (JS.round2 (1.27 / 3)).
Proof.
  split; [vm_compute; reflexivity|]. split; [vm_compute; reflexivity|].
  split; [vm_compute; reflexivity|]. split; [vm_compute; reflexivity|].
  assert (H : JS.round2 (1.27 / 3) = 0.42) by (vm_compute; reflexivity).
  rewrite H. split; done.
Qed.

(** Expanding to 4 and then to 3 leads. *)
Definition expandTwice : option State :=
  st4 ← handleSubmitProjectLeadsModal pendingFour;
  handleSubmitProjectLeadsModal
    (openProjectLeadsModal "projectLeads" (Some 3) st4).

(** After the first expansion every lead holds 63.75; after the second
    the three listed leads hold 85, the fourth id is listed no more and
    resolves no more, although its value of the first expansion is still
    stored. *)
Example reexpansion_replaces :
  (st4 ← handleSubmitProjectLeadsModal pendingFour;
   Some (dynamicChildren st4,
         nodeValues st4 !! "projectLeads_lead_4" ≫= fixed))
  = Some ([("projectLeads",
            ["projectLeads_lead_1"; "projectLeads_lead_2";
             "projectLeads_lead_3"; "projectLeads_lead_4"])],
          Some 63.75) /\
  (st3 ← expandTwice;
   m ← nodeAmountsOf st3;
   Some (dynamicChildren st3,
         List.map (fun k => m !! k)
                  ["projectLeads_lead_1"; "projectLeads_lead_2";
                   "projectLeads_lead_3"; "projectLeads_lead_4"],
         nodeValues st3 !! "projectLeads_lead_4" ≫= fixed))
  = Some ([("projectLeads",
            ["projectLeads_lead_1"; "projectLeads_lead_2";
             "projectLeads_lead_3"])],
          [Some 85; Some 85; Some 85; None],
          Some 63.75).
Proof. split; vm_compute; reflexivity. Qed.

(** A count of 0.5 is accepted and recorded, and generates no lead. *)
Example half_a_lead :
  (st' ← handleSubmitProjectLeadsModal
           (openProjectLeadsModal "projectLeads" (Some 0.5) editor);
   Some (dynamicChildren st', projectLeadsTotal st' !! "projectLeads",
         activeNodeId st'))
  = Some ([("projectLeads", [])], Some 0.5, "projectLeads").
Proof. vm_compute. reflexivity. Qed.

End TemplateTheorems.

(* ===================================================================== *)
(** ** The template-driven engine: what an edit can change *)
(* ===================================================================== *)

Module TemplateLocality.
Import PayoutSchema PayoutTree PayoutTreeEditing TemplateFacts.

(** [childOf a b]: the parent map gives [b] as the parent of [a]. *)
Definition childOf (a b : string) : Prop := parentOf a = Some b.

(** A dynamic child listed under some node. *)
Definition listed (dynamicChildren : list (string * list string))
    (k : string) : Prop :=
  exists e, In e dynamicChildren /\ In k (snd e).

Lemma root_is_key : In rootNodeId keys.
Proof. apply list_elem_of_In, (bool_decide_unpack _). vm_compute. exact I. Qed.

Lemma leads_is_key : In "projectLeads" keys.
Proof. apply list_elem_of_In, (bool_decide_unpack _). vm_compute. exact I. Qed.

Lemma parent_is_key k p : parentOf k = Some p -> In p keys.
Proof.
  intros Hp. destruct (parentOf_facts k p Hp) as (_ & _ & _ & _ & _ & _ & t & Ht & _).
  apply lookupNode_In in Ht. unfold keys.
  change p with (fst (p, t)). by apply in_map.
Qed.

Lemma child_is_key k p : parentOf k = Some p -> In k keys.
Proof. intros Hp. by destruct (parentOf_facts k p Hp) as (_ & _ & _ & ? & _). Qed.

Lemma rtc_childOf_keys k a : rtc childOf k a -> a = k \/ In a keys.
Proof.
  induction 1 as [|k b a Hkb _ IH]; [by left|].
  right. destruct IH as [->|IH]; [|done]. by eapply parent_is_key.
Qed.

Lemma rtc_edge_keys j k : rtc edge j k -> k = j \/ In k keys.
Proof.
  induction 1 as [|j b k Hjb _ IH]; [by left|].
  right. destruct IH as [->|IH]; [|done].
  destruct Hjb as [[_ ->]|[_ Hp]]; [apply leads_is_key|by eapply parent_is_key].
Qed.


(** A property kept by the steps of a loop at the elements of its list
    is kept by the loop. *)
Lemma forEach_keeps_in {St A} (f : A -> Eff.M St unit) (P : St -> Prop) l :
  (forall a w w', In a l -> P w -> f a w = Some (tt, w') -> P w') ->
  forall w w', forEach f l w = Some (tt, w') -> P w -> P w'.
Proof.
  induction l as [|a l IH]; intros Hf w w' H HP.
  - by inversion H; subst.
  - cbn [forEach] in H. apply bind_Some in H as ([] & w1 & Ha & H).
    eapply IH; [|exact H|].
    + intros b v v' Hb. apply Hf. by right.
    + eapply Hf; [by left|exact HP|exact Ha].
Qed.

(** *** The entries of the amount map *)

Section Domain.
Variable developerPayout : JS.number.
Variable nodeValues : gmap string NodeValue.
Variable leadsFirst : bool.
Variable dynamicChildren : list (string * list string).

Definition known (m : gmap string JS.number) : Prop :=
  forall k, is_Some (m !! k) -> In k keys \/ listed dynamicChildren k.

Lemma resolveOne_known j m m' :
  In j keys \/ listed dynamicChildren j ->
  known m ->
  resolveOne developerPayout nodeValues leadsFirst j m = Some (tt, m') ->
  known m'.
Proof.
  intros Hj Hm Hrun k Hk.
  apply resolveOne_Resolves in Hrun as [v Hrun].
  destruct (m !! k) as [a|] eqn:Hmk; [apply Hm; by rewrite Hmk|].
  pose proof (Resolves_new _ _ _ _ _ _ _ Hrun k Hmk Hk) as Hr.
  apply rtc_edge_keys in Hr as [->|Hr]; [done|by left].
Qed.

(** The amount map holds entries for templates and listed dynamic
    children only. *)
Lemma nodeAmounts_known m :
  nodeAmounts developerPayout nodeValues dynamicChildren leadsFirst = Some m ->
  known m.
Proof.
  unfold nodeAmounts, resolveAll. fold (resolveOne developerPayout nodeValues leadsFirst).
  destruct (_ ≫= _) as [[[] m']|] eqn:Hrun; [|done].
  intros [= ->]. apply bind_Some in Hrun as ([] & m1 & H1 & H2).
  assert (Hk1 : known m1).
  { eapply forEach_keeps_in; [|exact H1|].
    - intros j w w' Hj Hw Hr. eapply resolveOne_known; [by left|done|done].
    - intros k Hk. apply lookup_insert_is_Some in Hk as [<-|[_ Hk]].
      + left. apply root_is_key.
      + rewrite lookup_empty in Hk. by destruct Hk. }
  eapply (forEach_keeps_in _ known); [|exact H2|exact Hk1].
  intros e w w' He Hw Hr.
  eapply (forEach_keeps_in _ known); [|exact Hr|exact Hw].
  intros c v v' Hc Hv Hrc. eapply resolveOne_known; [|done|done].
  right. exists e. split; assumption.
Qed.

End Domain.

(** *** Two runs of the engine compared *)

Section Compare.
Variable developerPayout : JS.number.
Variables nodeValues nodeValues' : gmap string NodeValue.

(** The two value tables hold the same rule for [k]. *)
Definition sameValues (k : string) : Prop :=
  percentOf nodeValues k = percentOf nodeValues' k /\
  fixedOf nodeValues k = fixedOf nodeValues' k.

(** Two sound amount maps agree on every id whose rule, and the rule of
    every ancestor, is the same in both value tables. *)
Lemma sound_agree m m' :
  sound developerPayout nodeValues m ->
  sound developerPayout nodeValues' m' ->
  forall n k, rank k < n ->
    (forall a, rtc childOf k a -> sameValues a) ->
    forall v v', m !! k = Some v -> m' !! k = Some v' -> v = v'.
Proof.
  intros [_ Hs] [_ Hs']. induction n as [|n IH]; intros k Hn Hsame v v' Hv Hv';
    [lia|].
  pose proof (Hs k v Hv) as Hr. pose proof (Hs' k v' Hv') as Hr'.
  unfold ruleOf in Hr, Hr'.
  destruct (Hsame k (rtc_refl _ _)) as [Hpk Hfk].
  case_bool_decide; [congruence|].
  destruct (String.prefix leadPrefix k) eqn:Hl.
  { subst. unfold leadAmount. by rewrite Hfk. }
  destruct (parentOf k) as [p|] eqn:Hp; [|congruence].
  destruct Hr as (pa & Hpa & ->). destruct Hr' as (pa' & Hpa' & ->).
  assert (pa = pa') as <-.
  { apply (IH p); [|intros a Ha|done|done].
    - pose proof (rank_parent k p Hl Hp). lia.
    - apply Hsame. eapply rtc_l; [exact Hp|done]. }
  unfold nodeAmount. by rewrite Hpk, Hfk.
Qed.

End Compare.

End TemplateLocality.

(* ===================================================================== *)
(** ** The free-form engine: what an edit of the canvas can change *)
(* ===================================================================== *)

Module CanvasFrame.
Import FlowchartCanvas CanvasFacts CanvasEditing.

(** *** Node lists with the same rules *)

(** Two nodes the engine cannot tell apart. *)
Definition sameRule (n n' : FlowchartNode) : Prop :=
  id n = id n' /\ parentOf n = parentOf n' /\
  rootAmount n = rootAmount n' /\
  rootAmount_compute n = rootAmount_compute n' /\
  forall parentAmount, share n parentAmount = share n' parentAmount.

Lemma sameRule_refl n : sameRule n n.
Proof. by repeat split. Qed.

Lemma findNode_sameRule l l' k :
  Forall2 sameRule l l' ->
  option_Forall2 sameRule (findNode l k) (findNode l' k).
Proof.
  unfold findNode. induction 1 as [|n n' l l' Hn _ IH]; cbn [find];
    [constructor|].
  destruct Hn as (Hid & Hrest). rewrite <- Hid.
  case_bool_decide; [|done]. constructor. by split.
Qed.

Lemma computeRoot_sameRule n n' k :
  sameRule n n' -> computeRoot n k = computeRoot n' k.
Proof. intros (Hid & _ & _ & Hrc & _). unfold computeRoot. by rewrite Hid, Hrc. Qed.

Lemma bind_ext {St A B} (m m' : Eff.M St A) (k k' : A -> Eff.M St B) w :
  m w = m' w -> (forall a w1, k a w1 = k' a w1) ->
  (m ≫= k) w = (m' ≫= k') w.
Proof.
  intros Hm Hk. unfold mbind, M_bind. rewrite Hm.
  destruct (m' w) as [[a w1]|]; [apply Hk|done].
Qed.

Lemma compute_sameRule l l' :
  Forall2 sameRule l l' ->
  forall fuel k path w, compute l fuel k path w = compute l' fuel k path w.
Proof.
  intros Hl. induction fuel as [|fuel IH]; intros k path w; [done|].
  cbn [compute]. case_bool_decide; [done|].
  apply bind_ext; [done|]. intros [v|] w1; [done|].
  destruct (findNode_sameRule l l' k Hl) as [n n' Hn|]; [|done].
  pose proof Hn as (_ & Hp & _ & _ & Hs). rewrite <- Hp.
  destruct (parentOf n) as [parent|]; [|by rewrite (computeRoot_sameRule n n')].
  apply bind_ext; [apply IH|]. intros pa w2. by rewrite Hs.
Qed.

Lemma forEach_ext {St A B} (R : A -> B -> Prop)
    (f : A -> Eff.M St unit) (g : B -> Eff.M St unit) l l' :
  Forall2 R l l' -> (forall a b w, R a b -> f a w = g b w) ->
  forall w, forEach f l w = forEach g l' w.
Proof.
  intros Hl Hfg. induction Hl as [|a b l l' Hab _ IH]; intros w; [done|].
  cbn [forEach]. unfold mbind, M_bind. rewrite (Hfg a b w Hab).
  destruct (g b w) as [[[] w1]|]; [apply IH|done].
Qed.

(** The engine gives the same result on two lists whose nodes it cannot
    tell apart. *)
Lemma calculateNodeAmounts_sameRule l l' console0 :
  Forall2 sameRule l l' ->
  calculateNodeAmounts l console0 = calculateNodeAmounts l' console0.
Proof.
  intros Hl. unfold calculateNodeAmounts, resolveAll.
  set (w0 := {| amounts := ∅; console := console0 |}).
  assert (Hrun : (forEach seedRoot l ;;
                  forEach (fun node => compute l (stack l) (id node) ∅ ;;
                                       mret tt) l) w0
                 = (forEach seedRoot l' ;;
                    forEach (fun node => compute l' (stack l') (id node) ∅ ;;
                                         mret tt) l') w0); [|by rewrite Hrun].
  apply bind_ext.
  - apply (forEach_ext sameRule); [done|].
    intros a b w (Hid & Hp & Hr & _). unfold seedRoot.
    by rewrite Hid, Hp, Hr.
  - intros [] w1. apply (forEach_ext sameRule); [done|].
    intros a b w (Hid & _). apply bind_ext; [|done].
    unfold stack. rewrite (Forall2_length _ _ _ Hl), Hid.
    apply (compute_sameRule l l' Hl).
Qed.


(** *** One resolution has one outcome *)

Lemma Computes_functional l k path w v1 w1 :
  Computes l k path w v1 w1 ->
  forall v2 w2, Computes l k path w v2 w2 -> v1 = v2 /\ w1 = w2.
Proof.
  induction 1 as [n p w Hin Hplain|n p w v Hp Hm|n p w Hp Hm Hf
                 |n p w node Hp Hm Hf Hpar
                 |n p w node parent pa w1 Hp Hm Hf Hpar Hrec IH];
    intros v2 w2 H2.
  1-4: inversion H2; subst; try done; try congruence; split; congruence.
  inversion H2 as [| | | |? ? ? node2 parent2 pa2 w12 _ _ Hf2 Hpar2 Hrec2];
    subst; try done; try congruence.
  assert (node2 = node) as -> by congruence.
  assert (parent2 = parent) as -> by congruence.
  by apply IH in Hrec2 as [-> ->].
Qed.

(** The outcome of the resolver is the outcome of the relation. *)
Lemma Computes_compute l k w v w1 :
  Computes l k ∅ w v w1 -> compute l (stack l) k ∅ w = Some (v, w1).
Proof.
  intros Hc. destruct (compute_stack_total l k w) as [[v' w'] Hrun].
  rewrite Hrun. apply compute_Computes in Hrun; [|apply plain_path_empty].
  by destruct (Computes_functional _ _ _ _ _ _ Hc _ _ Hrun) as [-> ->].
Qed.

(** *** A node added under an id nobody refers to *)

Lemma forEach_app {St A} (f : A -> Eff.M St unit) (l1 l2 : list A) w :
  forEach f (l1 ++ l2) w = (forEach f l1 ;; forEach f l2) w.
Proof.
  revert w. induction l1 as [|a l1 IH]; intros w; cbn [app forEach].
  - done.
  - unfold mbind, M_bind. destruct (f a w) as [[[] w1]|]; [|done].
    rewrite IH. done.
Qed.

Lemma seeds_app l1 l2 m : seeds (l1 ++ l2) m = seeds l2 (seeds l1 m).
Proof. unfold seeds. by rewrite fold_left_app. Qed.

Lemma find_app {A} (f : A -> bool) (l1 l2 : list A) :
  find f (l1 ++ l2)
  = match find f l1 with Some a => Some a | None => find f l2 end.
Proof.
  induction l1 as [|a l1 IH]; cbn [app find]; [done|].
  by destruct (f a).
Qed.

Section Append.
Variable l : list FlowchartNode.
Variable n : FlowchartNode.

Let d : string := id n.
Let l' : list FlowchartNode := l ++ [n].

Hypothesis fresh : d ∉ map id l.
Hypothesis unreferenced : forall node, In node l -> parentOf node <> Some d.

Lemma findNode_old k : k <> d -> findNode l' k = findNode l k.
Proof using All.
  intros Hk. unfold findNode, l'. rewrite find_app.
  destruct (find _ l); [done|]. cbn [find].
  rewrite bool_decide_eq_false_2; [done|].
  intros Heq. apply Hk. symmetry. exact Heq.
Qed.

Lemma findNode_new : findNode l' d = Some n.
Proof using All.
  unfold findNode, l'. rewrite find_app.
  destruct (find _ l) as [node|] eqn:Hf.
  - exfalso. apply find_some in Hf as [Hin Hid].
    apply bool_decide_eq_true in Hid. apply fresh.
    rewrite <- Hid. apply list_elem_of_In, in_map, Hin.
  - cbn [find]. by rewrite bool_decide_eq_true_2.
Qed.

(** No chain of parent links that starts in [l] reaches the new id. *)
Lemma chain_avoids k j : rtc (par l) k j -> k <> d -> j <> d.
Proof using All.
  induction 1 as [|a b c Hab _ IH]; [done|].
  intros _. apply IH. destruct Hab as (node & Hf & Hp).
  intros ->. eapply unreferenced; [|exact Hp]. by eapply findNode_In.
Qed.

(** Two worlds that differ at the new id only, which the first does not
    hold. *)
Definition apart (w w' : World) : Prop :=
  console w = console w' /\ amounts w !! d = None /\
  forall k, k <> d -> amounts w !! k = amounts w' !! k.

Lemma apart_read w w' k :
  apart w w' -> k <> d -> read (amounts w') k = read (amounts w) k.
Proof using Type.
  intros (_ & _ & Hoff) Hk. unfold read. by rewrite (Hoff k Hk).
Qed.

Lemma apart_put w w' k v :
  apart w w' -> k <> d -> apart (put k v w) (put k v w').
Proof using Type.
  intros (Hcon & Hd & Hoff) Hk. split; [done|].
  split; [by cbn; rewrite lookup_insert_ne|].
  intros j Hj. cbn. destruct (decide (k = j)) as [->|Hne].
  - by rewrite !lookup_insert_eq.
  - rewrite !lookup_insert_ne by done. by apply Hoff.
Qed.

Lemma Computes_append k path w v w1 :
  Computes l k path w v w1 ->
  forall w', k <> d -> apart w w' ->
  exists w1', Computes l' k path w' v w1' /\ apart w1 w1' /\
              amounts w1' !! d = amounts w' !! d.
Proof using All.
  induction 1 as [k p w Hin Hplain|k p w v Hp Hm|k p w Hp Hm Hf
                 |k p w node Hp Hm Hf Hpar
                 |k p w node parent pa w1 Hp Hm Hf Hpar Hrec IH];
    intros w' Hk Hw.
  - exists (put k 0 (log (circular_warning k) w')). split; [by constructor|].
    split; [|by cbn; rewrite lookup_insert_ne].
    apply apart_put; [|done]. destruct Hw as (Hcon & Hd & Hoff).
    split; [by cbn; rewrite Hcon|]. by split.
  - exists w'. split; [|done]. apply C_memo; [done|].
    by rewrite (apart_read w w').
  - exists (put k 0 w'). split.
    { apply C_missing; [done|by rewrite (apart_read w w')
                       |by rewrite findNode_old]. }
    split; [|by cbn; rewrite lookup_insert_ne]. by apply apart_put.
  - exists (put k (rootAmount_compute node) w'). split.
    { apply C_root; [done|by rewrite (apart_read w w')
                    |by rewrite findNode_old|done]. }
    split; [|by cbn; rewrite lookup_insert_ne]. by apply apart_put.
  - assert (Hparent : parent <> d).
    { intros ->. eapply unreferenced; [|exact Hpar]. by eapply findNode_In. }
    destruct (IH w' Hparent Hw) as (w1' & Hrec' & Hw1 & Hkeep).
    exists (put k (share node (toNumber pa)) w1'). split.
    { eapply C_rule; [done|by rewrite (apart_read w w')
                     |by rewrite findNode_old|done|done]. }
    split; [|by cbn; rewrite lookup_insert_ne]. by apply apart_put.
Qed.

Lemma computeEach_append nodes :
  (forall node, In node nodes -> In node l) ->
  forall w w' w1,
    computeEach l nodes w = Some (tt, w1) -> apart w w' ->
    exists w1', computeEach l' nodes w' = Some (tt, w1') /\ apart w1 w1' /\
                amounts w1' !! d = amounts w' !! d.
Proof using All.
  induction nodes as [|a nodes IH]; intros Hsub w w' w1 Hrun Hw.
  - inversion Hrun; subst. by exists w'.
  - unfold computeEach in Hrun. cbn [forEach] in Hrun.
    apply bind_Some in Hrun as ([] & w2 & Ha & Hrun).
    apply bind_Some in Ha as (v & w3 & Ha & Hr). inversion Hr; subst w3.
    apply compute_Computes in Ha; [|apply plain_path_empty].
    assert (Hid : id a <> d).
    { intros Heq. apply fresh. rewrite <- Heq.
      apply list_elem_of_In, in_map, Hsub. by left. }
    destruct (Computes_append _ _ _ _ _ Ha w' Hid Hw)
      as (w2' & Ha' & Hw2 & Hd2).
    apply Computes_compute in Ha'.
    destruct (IH (fun node H => Hsub node (or_intror H)) w2 w2' w1 Hrun Hw2)
      as (w1' & Hrun' & Hw1 & Hd1).
    exists w1'. split; [|split; [done|congruence]].
    unfold computeEach. cbn [forEach].
    erewrite bind_run; [|erewrite bind_run; [reflexivity|exact Ha']].
    exact Hrun'.
Qed.

(** After the second pass a read finds something under the id of every
    node. *)
Lemma computeEach_read w w1 node :
  computeEach l l w = Some (tt, w1) -> In node l ->
  is_Some (read (amounts w1) (id node)).
Proof using Type.
  intros Hpass Hin. destruct (inherited (id node)) eqn:Hplain.
  - unfold read. destruct (amounts w1 !! id node); [done|].
    by rewrite Hplain.
  - apply read_is_Some.
    by apply (proj2 (computeEach_dom l l _ _ Hpass)).
Qed.

(** The engine on the longer list: the amounts of the shorter list, and
    one more entry for the new node, whose id is not a name of
    [Object.prototype]. *)
Lemma calculateNodeAmounts_append console0 m console1 :
  inherited d = false ->
  calculateNodeAmounts l console0 = Some (m, console1) ->
  (forall p, parentOf n = Some p -> p ∈ map id l) ->
  exists v,
    calculateNodeAmounts l' console0 = Some (<[d := v]> m, console1) /\
    m !! d = None /\
    match parentOf n with
    | None => v = rootAmount n
    | Some p => exists pa, read m p = Some pa /\ v = share n (toNumber pa)
    end.
Proof using All.
  intros Hplain Hcalc Hparent. unfold calculateNodeAmounts in Hcalc.
  destruct (resolveAll l _) as [[[] w1]|] eqn:Hrun; [|done].
  inversion Hcalc; subst m console1; clear Hcalc.
  unfold resolveAll in Hrun. apply bind_Some in Hrun as ([] & w0 & Hseed & Hpass).
  rewrite forEach_seedRoot in Hseed. inversion Hseed; subst w0; clear Hseed.
  cbn [amounts console] in Hpass. fold (computeEach l l) in Hpass.
  assert (Hdom : forall node, In node l ->
            is_Some (read (amounts w1) (id node))).
  { intros node Hin. by eapply computeEach_read. }
  set (w0' := {| amounts := seeds [n] (seeds l ∅); console := console0 |}).
  assert (Hseed0 : seeds l ∅ !! d = (∅ : gmap string JS.number) !! d).
  { by apply seeds_lookup_other. }
  rewrite lookup_empty in Hseed0.
  assert (Hproto : d <> "__proto__") by by apply inherited_proto.
  assert (Hw0 : apart {| amounts := seeds l ∅; console := console0 |} w0').
  { split; [done|]. split; [done|]. intros k Hk. cbn [amounts w0' seeds fold_left].
    destruct (parentOf n); [done|]. fold d. rewrite write_plain by done.
    rewrite lookup_insert_ne; [done|].
    intros Heq. apply Hk. symmetry. exact Heq. }
  destruct (computeEach_append l (fun _ H => H) _ w0' w1 Hpass Hw0)
    as (w1' & Hpass' & Hw1 & Hd').
  pose proof Hw1 as (Hcon & Hd & Hoff).
  assert (Hlast : exists v,
            Computes l' d ∅ w1' (V_number v)
              {| amounts := <[d := v]> (amounts w1); console := console w1 |} /\
            match parentOf n with
            | None => v = rootAmount n
            | Some p => exists pa, read (amounts w1) p = Some pa /\
                                   v = share n (toNumber pa)
            end).
  { destruct (parentOf n) as [p|] eqn:Hp.
    - specialize (Hparent p eq_refl).
      assert (Hpd : p <> d) by (intros ->; by apply fresh).
      apply list_elem_of_In, in_map_iff in Hparent as (node & <- & Hin).
      destruct (Hdom node Hin) as [pa Hpa].
      exists (share n (toNumber pa)). split; [|eauto].
      assert (Hd1 : read (amounts w1') d = None).
      { apply read_None. split; [|done].
        rewrite Hd'. cbn [w0' amounts seeds fold_left]. by rewrite Hp. }
      replace {| amounts := <[d:=share n (toNumber pa)]> (amounts w1);
                 console := console w1 |}
        with (put d (share n (toNumber pa)) w1').
      + eapply C_rule; [set_solver|exact Hd1|apply findNode_new|exact Hp|].
        apply C_memo; [set_solver|]. by rewrite (apart_read w1 w1').
      + unfold put. rewrite <- Hcon. f_equal. apply map_eq. intros k.
        destruct (decide (d = k)) as [<-|Hne].
        * by rewrite !lookup_insert_eq.
        * rewrite !lookup_insert_ne by done. symmetry. by apply Hoff.
    - exists (rootAmount n). split; [|done].
      assert (Hd1 : amounts w1' !! d = Some (rootAmount n)).
      { rewrite Hd'. cbn [w0' amounts seeds fold_left]. rewrite Hp.
        fold d. rewrite write_plain by done. apply lookup_insert_eq. }
      replace {| amounts := <[d:=rootAmount n]> (amounts w1);
                 console := console w1 |} with w1'.
      + apply C_memo; [set_solver|by apply read_own].
      + destruct w1' as [m1' c1']. cbn [amounts console] in *. subst c1'.
        f_equal. apply map_eq. intros k.
        destruct (decide (d = k)) as [<-|Hne].
        * by rewrite lookup_insert_eq.
        * rewrite lookup_insert_ne by done. symmetry. by apply Hoff. }
  destruct Hlast as (v & Hlast & Hv). apply Computes_compute in Hlast.
  exists v. split; [|split; [exact Hd|exact Hv]].
  unfold calculateNodeAmounts, resolveAll.
  erewrite bind_run; [|apply forEach_seedRoot]. cbn [amounts console].
  unfold l'. rewrite seeds_app. fold w0'. rewrite forEach_app.
  erewrite bind_run; [|exact Hpass']. cbn [forEach].
  erewrite bind_run; [|erewrite bind_run; [reflexivity|exact Hlast]].
  reflexivity.
Qed.

End Append.


(** *** Warnings *)

(** Without a cycle in the parent links no resolution logs a warning. *)
Lemma Computes_quiet l k path w v w1 :
  Computes l k path w v w1 ->
  (forall j, ~ cyclic l j) ->
  (forall q, q ∈ path -> tc (par l) q k) ->
  console w1 = console w.
Proof.
  induction 1 as [k p w Hin Hplain|k p w v Hp Hm|k p w Hp Hm Hf
                 |k p w node Hp Hm Hf Hpar
                 |k p w node parent pa w1 Hp Hm Hf Hpar Hrec IH];
    intros Hacyclic Hpath; try done.
  - exfalso. apply (Hacyclic k). by apply Hpath.
  - cbn. apply IH; [done|].
    assert (Hstep : par l k parent) by (exists node; done).
    intros q Hq. apply elem_of_union in Hq as [Hq|Hq].
    + eapply tc_r; [by apply Hpath|done].
    + apply elem_of_singleton in Hq as ->. by apply tc_once.
Qed.

(** Every node's parent chain ends within as many steps as there are
    nodes. *)
Definition chainsEnd (l : list FlowchartNode) : bool :=
  forallb (fun node => chainEnds l (length l) (id node)) l.

Lemma chainsEnd_not_cyclic l : chainsEnd l = true -> forall j, ~ cyclic l j.
Proof.
  intros Hall j Hc. destruct (cyclic_has_parent l j Hc) as (p & node & Hf & Hp).
  unfold chainsEnd in Hall. rewrite forallb_forall in Hall.
  specialize (Hall node (findNode_In _ _ _ Hf)).
  rewrite (findNode_id _ _ _ Hf) in Hall.
  by eapply chainEnds_not_cyclic.
Qed.

Lemma calculateNodeAmounts_quiet l console0 :
  (forall j, ~ cyclic l j) ->
  exists m, calculateNodeAmounts l console0 = Some (m, console0).
Proof.
  intros Hacyclic. unfold calculateNodeAmounts, resolveAll.
  erewrite bind_run; [|apply forEach_seedRoot]. cbn [amounts console].
  set (w0 := {| amounts := seeds l ∅; console := console0 |}).
  destruct (computeEach_keeps l (fun w => console w = console0))
    with (l := l) (w := w0) as (w1 & Hrun & Hcon); [|done|].
  - intros k w v w' Hc <-. eapply Computes_quiet; [done|done|].
    intros q Hq. set_solver.
  - unfold computeEach in Hrun. rewrite Hrun. exists (amounts w1).
    by rewrite Hcon.
Qed.

(** *** Parents that are not on the canvas *)

(** An id without a node holds no entry but 0. *)
Definition missing_zero (l : list FlowchartNode)
    (m : gmap string JS.number) : Prop :=
  forall k v, findNode l k = None -> m !! k = Some v -> v = 0.

Lemma Computes_missing_zero l k path w v w1 :
  Computes l k path w v w1 ->
  missing_zero l (amounts w) -> missing_zero l (amounts w1).
Proof.
  induction 1 as [k p w Hin Hplain|k p w v Hp Hm|k p w Hp Hm Hf
                 |k p w node Hp Hm Hf Hpar
                 |k p w node parent pa w1 Hp Hm Hf Hpar Hrec IH];
    intros Hinv; try done; intros j a Hj Ha; cbn in Ha.
  - destruct (decide (k = j)) as [->|Hne].
    + rewrite lookup_insert_eq in Ha. congruence.
    + rewrite lookup_insert_ne in Ha by done. by eapply Hinv.
  - destruct (decide (k = j)) as [->|Hne].
    + rewrite lookup_insert_eq in Ha. congruence.
    + rewrite lookup_insert_ne in Ha by done. by eapply Hinv.
  - rewrite lookup_insert_ne in Ha by congruence. by eapply Hinv.
  - rewrite lookup_insert_ne in Ha by congruence. by eapply IH.
Qed.

Lemma In_findNode l node : In node l -> is_Some (findNode l (id node)).
Proof.
  unfold findNode. induction l as [|a l IH]; [done|].
  intros [->|Hin]; cbn [find].
  - by rewrite bool_decide_eq_true_2.
  - destruct (bool_decide _); [done|by apply IH].
Qed.

Lemma calculateNodeAmounts_missing_zero l console0 m console1 :
  calculateNodeAmounts l console0 = Some (m, console1) -> missing_zero l m.
Proof.
  unfold calculateNodeAmounts, resolveAll.
  erewrite bind_run; [|apply forEach_seedRoot]. cbn [amounts console].
  set (w0 := {| amounts := seeds l ∅; console := console0 |}).
  destruct (computeEach_keeps l (fun w => missing_zero l (amounts w)))
    with (l := l) (w := w0) as (w1 & Hrun & Hinv).
  - intros k w v w' Hc Hw. by eapply Computes_missing_zero.
  - intros k v Hk Hv. cbn in Hv.
    apply seeds_lookup_inv in Hv as [Hv|(node & Hin & <- & _)].
    + by rewrite lookup_empty in Hv.
    + apply In_findNode in Hin as [? Hin]. congruence.
  - unfold computeEach in Hrun. rewrite Hrun. by intros [= <- _].
Qed.

End CanvasFrame.

(* ===================================================================== *)
(** ** The tree editor: edits, navigation and expansion *)
(* ===================================================================== *)

Module TemplateEditing.
Import PayoutSchema PayoutTree PayoutTreeEditing TemplateFacts.
Import JSFacts TemplateLocality.

Lemma root_template :
  exists t, lookupNode rootNodeId = Some t /\ kind t = None.
Proof. eexists. split; vm_compute; reflexivity. Qed.

Lemma root_displayed st m :
  m !! rootNodeId = Some (developerPayout st) ->
  getDisplayAmount (developerPayout st) m rootNodeId = developerPayout st.
Proof.
  intros Hm. unfold getDisplayAmount.
  destruct root_template as ([i l p f c k] & -> & Hk). cbn [kind] in Hk.
  subst k. by rewrite Hm.
Qed.

(** X1.  The root card always shows the developer payout.  A payout
    dialog submitted with a number above 0 makes that number the payout
    shown on the root; submitted with anything else (0, a negative
    number, NaN) it leaves the whole state as it is. *)
Theorem submitted_payout_is_root_amount parsed st :
  displayAmountOf st rootNodeId = Some (developerPayout st) /\
  (JS.gt0 parsed = true ->
   displayAmountOf (handleSubmitModal parsed st) rootNodeId = Some parsed) /\
  (JS.gt0 parsed = false -> handleSubmitModal parsed st = st).
Proof.
  assert (Hroot : forall s, displayAmountOf s rootNodeId
                            = Some (developerPayout s)).
  { intros s.
    destruct (nodeAmounts_spec (developerPayout s) (nodeValues s) true
                (dynamicChildren s)) as (m & Hm & [Hr _] & _).
    unfold displayAmountOf, nodeAmountsOf. rewrite Hm.
    by rewrite root_displayed. }
  split; [apply Hroot|]. split.
  - intros Hgt. unfold handleSubmitModal.
    rewrite or_else_gt0 by done. rewrite Hgt. by rewrite Hroot.
  - intros Hgt. unfold handleSubmitModal.
    by rewrite or_else_not_gt0.
Qed.

(** *** Value edits *)

Lemma amounts_entries developerPayout nodeValues dynamicChildren b m k :
  nodeAmounts developerPayout nodeValues dynamicChildren b = Some m ->
  is_Some (m !! k) <-> In k keys \/ listed dynamicChildren k.
Proof.
  intros Hm. split; [by eapply nodeAmounts_known|].
  destruct (nodeAmounts_spec developerPayout nodeValues b dynamicChildren)
    as (m' & Hm' & _ & Hkeys & Hlisted).
  assert (m' = m) as -> by congruence.
  intros [Hk|(e & He & Hk)]; [by apply Hkeys|by eapply Hlisted].
Qed.

(** Two sound maps agree at an id that has an entry in both or in
    neither, if its rule and the rule of every ancestor is the same in
    both value tables. *)
Lemma sound_agree_lookup developerPayout nodeValues nodeValues' m m' k :
  sound developerPayout nodeValues m ->
  sound developerPayout nodeValues' m' ->
  (is_Some (m !! k) <-> is_Some (m' !! k)) ->
  (forall a, rtc childOf k a -> sameValues nodeValues nodeValues' a) ->
  m' !! k = m !! k.
Proof.
  intros Hs Hs' He Hsame.
  destruct (m !! k) as [v|] eqn:Hv, (m' !! k) as [v'|] eqn:Hv'.
  - f_equal. symmetry.
    eapply (sound_agree _ _ _ m m' Hs Hs' (S (rank k)) k); eauto.
  - exfalso. assert (is_Some (@None JS.number)) as [? [=]].
    apply He. eauto.
  - exfalso. assert (is_Some (@None JS.number)) as [? [=]].
    apply He. eauto.
  - done.
Qed.

(** Two runs on the same dynamic children agree on every id whose rule,
    and the rule of every ancestor, is the same in both value tables. *)
Lemma runs_agree developerPayout nodeValues nodeValues' dynamicChildren
    b b' m m' k :
  nodeAmounts developerPayout nodeValues dynamicChildren b = Some m ->
  nodeAmounts developerPayout nodeValues' dynamicChildren b' = Some m' ->
  (forall a, rtc childOf k a -> sameValues nodeValues nodeValues' a) ->
  m' !! k = m !! k.
Proof.
  intros Hm Hm' Hsame.
  destruct (nodeAmounts_spec developerPayout nodeValues b dynamicChildren)
    as (m1 & Hm1 & Hs & _).
  destruct (nodeAmounts_spec developerPayout nodeValues' b' dynamicChildren)
    as (m2 & Hm2 & Hs' & _).
  assert (m1 = m) as -> by congruence. assert (m2 = m') as -> by congruence.
  eapply sound_agree_lookup; [exact Hs|exact Hs'| |exact Hsame].
  rewrite (amounts_entries _ _ _ _ _ k Hm).
  by rewrite (amounts_entries _ _ _ _ _ k Hm').
Qed.

(** Writing one entry of the value table changes the amount of no id
    from which the written id is not reached by parent links. *)
Lemma entry_change_is_local developerPayout nodeValues dynamicChildren
    nodeId (value : NodeValue) :
  exists m m',
    nodeAmounts developerPayout nodeValues dynamicChildren true = Some m /\
    nodeAmounts developerPayout (<[nodeId := value]> nodeValues)
                dynamicChildren true = Some m' /\
    forall k, ~ rtc childOf k nodeId -> m' !! k = m !! k.
Proof.
  destruct (nodeAmounts_spec developerPayout nodeValues true dynamicChildren)
    as (m & Hm & _).
  destruct (nodeAmounts_spec developerPayout (<[nodeId := value]> nodeValues)
              true dynamicChildren) as (m' & Hm' & _).
  exists m, m'. split; [exact Hm|]. split; [exact Hm'|].
  intros k Hk. eapply runs_agree; [exact Hm|exact Hm'|].
  intros a Ha. assert (nodeId <> a) as Hne by (intros <-; exact (Hk Ha)).
  unfold sameValues, percentOf, fixedOf.
  rewrite lookup_insert_ne by exact Hne. split; reflexivity.
Qed.

(** X2.  Editing the percent or the fixed value of a node changes the
    resolved amount of no id other than the node and its descendants in
    the parent map: both amount maps exist, and they agree on every id
    from which the edited node is not reached by parent links. *)
Theorem value_change_is_local nodeId field value st :
  exists m m',
    nodeAmountsOf st = Some m /\
    nodeAmountsOf (handleValueChange nodeId field value st) = Some m' /\
    forall k, ~ rtc childOf k nodeId -> m' !! k = m !! k.
Proof.
  unfold handleValueChange, nodeAmountsOf.
  cbn [setNodeValues developerPayout nodeValues dynamicChildren].
  apply entry_change_is_local.
Qed.

Lemma rtc_childOf_depth a b : rtc childOf a b -> depth b <= depth a.
Proof.
  induction 1 as [|a p b Hp _ IH]; [done|].
  destruct (parentOf_facts a p Hp) as (_ & Hd & _). lia.
Qed.

(** X3.  Editing the percent of a node that has a parent leaves the
    amount of the parent as it was and makes the amount of the node the
    cent-rounded sum of its fixed value and the typed percent of the
    parent's amount (of the developer payout for [taggerFee]); a typed
    value that is not a finite number counts as 0. *)
Theorem percent_edit_effect nodeId p value st :
  parentOf nodeId = Some p ->
  let st' := handleValueChange nodeId F_percent value st in
  let percent := if PrimFloat.is_finite value then value else 0 in
  exists m m' pa,
    nodeAmountsOf st = Some m /\ nodeAmountsOf st' = Some m' /\
    m !! p = Some pa /\ m' !! p = Some pa /\
    m' !! nodeId
    = Some (JS.round2
              ((if bool_decide (nodeId = "taggerFee")
                   && bool_decide (p = "taggerCombined")
                then developerPayout st else pa) * percent
               + fixedOf (nodeValues st) nodeId)).
Proof.
  intros Hp st' percent.
  destruct (parentOf_facts nodeId p Hp) as (_ & Hd & _ & Hkey & Hroot & Hlead & _).
  destruct (entry_change_is_local (developerPayout st) (nodeValues st)
              (dynamicChildren st) nodeId
              (withField (nodeValues st !! nodeId) F_percent percent))
    as (m & m' & Hm & Hm' & Hloc).
  destruct (nodeAmounts_spec (developerPayout st)
              (<[nodeId := withField (nodeValues st !! nodeId) F_percent
                             percent]> (nodeValues st))
              true (dynamicChildren st)) as (m2 & Hm2 & [_ Hs] & Hkeys & _).
  assert (m2 = m') as -> by congruence.
  destruct (nodeAmounts_spec (developerPayout st) (nodeValues st) true
              (dynamicChildren st)) as (m1 & Hm1 & _ & Hkeys1 & _).
  assert (m1 = m) as -> by congruence.
  destruct (Hkeys1 p (parent_is_key _ _ Hp)) as [pa Hpa].
  assert (Hpa' : m' !! p = Some pa).
  { rewrite Hloc; [exact Hpa|]. intros Hr. apply rtc_childOf_depth in Hr. lia. }
  exists m, m', pa. split; [exact Hm|]. split; [exact Hm'|].
  split; [exact Hpa|]. split; [exact Hpa'|].
  destruct (Hkeys nodeId Hkey) as [v Hv]. rewrite Hv. f_equal.
  pose proof (Hs nodeId v Hv) as Hrule. unfold ruleOf in Hrule.
  rewrite (bool_decide_eq_false_2 _ Hroot), Hlead, Hp in Hrule.
  destruct Hrule as (pa2 & Hpa2 & ->).
  assert (pa2 = pa) as -> by congruence.
  unfold nodeAmount, percentOf, fixedOf. rewrite lookup_insert_eq.
  cbn [withField PayoutTree.percent PayoutTree.fixed mbind option_bind
       default from_option Datatypes.id].
  destruct (bool_decide (nodeId = "taggerFee")
            && bool_decide (p = "taggerCombined")); reflexivity.
Qed.

(** The editor after a payout of 1,000,000 was submitted. *)
Definition million : State := handleSubmitModal 1000000 initialState.

(** Editing [directIcb] there moves [directIcb] and its child [ecb] and
    leaves [eraAgency] where it was. *)
Example value_change_example :
  let st' := handleValueChange "directIcb" F_percent 0.03 million in
  (m ← nodeAmountsOf million; Some (m !! "directIcb", m !! "ecb",
                                    m !! "eraAgency"))
  = Some (Some 22000, Some 17000, Some 5000) /\
  (m ← nodeAmountsOf st'; Some (m !! "directIcb", m !! "ecb",
                                 m !! "eraAgency"))
  = Some (Some 30000, Some 23181.82, Some 5000).
Proof. split; vm_compute; reflexivity. Qed.

Lemma percent_edit_effect_witness :
  let st' := handleValueChange "directIcb" F_percent 0.03 million in
  let percent := if PrimFloat.is_finite 0.03 then 0.03 else 0 in
  exists m m' pa,
    nodeAmountsOf million = Some m /\ nodeAmountsOf st' = Some m' /\
    m !! "developerPayout" = Some pa /\ m' !! "developerPayout" = Some pa /\
    m' !! "directIcb"
    = Some (JS.round2
              ((if bool_decide ("directIcb" = "taggerFee")
                   && bool_decide ("developerPayout" = "taggerCombined")
                then developerPayout million else pa) * percent
               + fixedOf (nodeValues million) "directIcb")).
Proof.
  refine (percent_edit_effect "directIcb" "developerPayout" 0.03 million _).
  vm_compute. reflexivity.
Defined.

(** *** The diagram and the editor *)

(** X4.  The read-only diagram, whose resolver does not resolve
    [projectLeads] before a generated lead, computes the same amount map
    as the tree editor on the same payout, values and dynamic
    children. *)
Theorem diagram_matches_editor (data : CommissionFlowDiagram.CommissionFlowData) :
  CommissionFlowDiagram.nodeAmounts data
  = nodeAmounts (CommissionFlowDiagram.developerPayout data)
                (CommissionFlowDiagram.nodeValues data)
                (CommissionFlowDiagram.dynamicChildren data) true
  /\ is_Some (CommissionFlowDiagram.nodeAmounts data).
Proof.
  unfold CommissionFlowDiagram.nodeAmounts.
  set (dp := CommissionFlowDiagram.developerPayout data).
  set (nv := CommissionFlowDiagram.nodeValues data).
  set (dyn := CommissionFlowDiagram.dynamicChildren data).
  destruct (nodeAmounts_spec dp nv false dyn) as (m & Hm & _).
  destruct (nodeAmounts_spec dp nv true dyn) as (m' & Hm' & _).
  rewrite Hm, Hm'. split; [|done]. f_equal. apply map_eq. intros k.
  symmetry. eapply runs_agree; [exact Hm|exact Hm'|].
  intros a _. split; reflexivity.
Qed.


(** *** Dynamic children *)

Lemma leadId_inj nodeId : Inj (=) (=) (leadId nodeId).
Proof.
  intros i j H. unfold leadId in H.
  apply (inj (String.app nodeId)) in H.
  apply (inj (String.app "_lead_")) in H.
  by apply (inj pretty) in H.
Qed.

Lemma leadId_is_lead i :
  String.prefix leadPrefix (leadId "projectLeads" i) = true.
Proof.
  unfold leadId, leadPrefix. simpl. generalize (pretty i).
  intros s. by destruct s.
Qed.

Lemma leadIds_are_leads total k :
  In k (leadIds "projectLeads" total) -> String.prefix leadPrefix k = true.
Proof.
  unfold leadIds. intros Hin. apply in_map_iff in Hin as (i & <- & _).
  apply leadId_is_lead.
Qed.

Lemma leadIds_NoDup nodeId n : NoDup (leadIds nodeId n).
Proof.
  unfold leadIds. pose proof (leadId_inj nodeId).
  apply (NoDup_fmap_2 (leadId nodeId)), NoDup_seq.
Qed.

Lemma whole_nonneg x : (0 <= JS.whole x)%Z.
Proof.
  unfold JS.whole. destruct (Prim2SF x) as [s|s| |s m e]; try done.
  destruct s; [done|]. destruct (0 <=? e)%Z eqn:He.
  - apply Z.leb_le in He. apply Z.mul_nonneg_nonneg; [done|].
    by apply Z.pow_nonneg.
  - apply Z.div_pos; [done|]. apply Z.pow_pos_nonneg; [done|].
    apply Z.leb_gt in He. lia.
Qed.

(** What a submission that is accepted does, whatever the count. *)
Lemma submit_accepted st nodeId total st' :
  pendingProjectLeadsNode st = Some nodeId -> nodeId <> "" ->
  projectLeadsModalValue st = Some total -> JS.gt0 total = true ->
  handleSubmitProjectLeadsModal st = Some st' ->
  exists rounds,
    loopRounds total = Some rounds /\
    dynamicChildren st'
    = assign nodeId (leadIds nodeId rounds) (dynamicChildren st) /\
    projectLeadsTotal st' = <[nodeId := total]> (projectLeadsTotal st) /\
    childOrders st' = childOrders st.
Proof.
  intros Hpending Hne Hvalue Htotal. unfold handleSubmitProjectLeadsModal.
  destruct (nodeAmountsOf st) as [m|]; [|done].
  rewrite Hpending, Hvalue. cbn [default from_option Datatypes.id].
  rewrite (or_else_gt0 _ Htotal), Htotal. cbn [JS.truthy_str].
  rewrite bool_decide_eq_false_2 by done. cbn [negb andb].
  destruct (loopRounds total) as [rounds|]; [|done].
  intros [= <-]. by exists rounds.
Qed.

(** X5.  A count above 0 that is submitted for a node is recorded as it
    was typed, whole or not; the ids generated for it are pairwise
    distinct, there are as many of them as the integer part of the count,
    and those generated for [projectLeads] clash with no template id. *)
Theorem generated_leads_distinct st nodeId total st' :
  pendingProjectLeadsNode st = Some nodeId -> nodeId <> "" ->
  projectLeadsModalValue st = Some total -> JS.gt0 total = true ->
  handleSubmitProjectLeadsModal st = Some st' ->
  exists ids,
    entry nodeId (dynamicChildren st') = Some ids /\
    projectLeadsTotal st' !! nodeId = Some total /\
    NoDup ids /\
    Z.of_nat (length ids) = JS.whole total /\
    (forall i, In (leadId nodeId i) ids <-> (1 <= Z.of_nat i <= JS.whole total)%Z) /\
    (nodeId = "projectLeads" -> forall k, In k ids -> ~ In k keys).
Proof.
  intros Hpending Hne Hvalue Htotal Hsubmit.
  destruct (submit_accepted _ _ _ _ Hpending Hne Hvalue Htotal Hsubmit)
    as (rounds & Hrounds & Hdyn & Hrec & _).
  pose proof (TemplateTheorems.loopRounds_whole _ _ Hrounds) as Hwhole.
  pose proof (whole_nonneg total) as Hpos.
  exists (leadIds nodeId rounds). rewrite Hdyn, Hrec.
  split; [apply TemplateTheorems.entry_assign|].
  split; [apply lookup_insert_eq|]. split; [apply leadIds_NoDup|]. split.
  { unfold leadIds. rewrite length_map, length_seq. lia. }
  split.
  - intros i. unfold leadIds. rewrite in_map_iff. split.
    + intros (j & Hj & Hin). apply (leadId_inj nodeId) in Hj. subst j.
      apply in_seq in Hin. lia.
    + intros Hi. exists i. split; [done|]. apply in_seq. lia.
  - intros -> k Hk Hkeys. apply leadIds_are_leads in Hk.
    apply keys_not_lead in Hkeys. congruence.
Qed.

(** The editor after a payout of 1,000,000 was submitted, the branches
    down to [newLaunchTeam] were opened and [projectLeads] was inspected
    for the first time. *)
Definition askedForCount : State :=
  handleInspectNode "projectLeads"
    (handleInspectNode "newLaunchTeam"
       (handleInspectNode "taggerKw"
          (handleInspectNode "taggerFee"
             (handleInspectNode "taggerCombined" million)))).

(** That editor after the count 2.5 was typed and submitted. *)
Definition twoAndHalf : State :=
  default initialState
    (handleSubmitProjectLeadsModal (typeProjectLeadsCount (Some 2.5) askedForCount)).

Lemma twoAndHalf_submitted :
  handleSubmitProjectLeadsModal (typeProjectLeadsCount (Some 2.5) askedForCount)
  = Some twoAndHalf.
Proof. vm_compute. reflexivity. Qed.

(** A count of 2.5 is recorded as 2.5 and generates two ids. *)
Lemma generated_leads_distinct_witness :
  entry "projectLeads" (dynamicChildren twoAndHalf)
  = Some ["projectLeads_lead_1"; "projectLeads_lead_2"] /\
  projectLeadsTotal twoAndHalf !! "projectLeads" = Some 2.5.
Proof.
  destruct (generated_leads_distinct
              (typeProjectLeadsCount (Some 2.5) askedForCount) "projectLeads" 2.5
              twoAndHalf)
    as (ids & Hids & Hrec & _ & Hlen & _).
  - reflexivity.
  - discriminate.
  - reflexivity.
  - reflexivity.
  - exact twoAndHalf_submitted.
  - split; [|exact Hrec]. vm_compute. reflexivity.
Defined.

Lemma In_assign {V} k (v : V) o : In (k, v) (assign k v o).
Proof.
  induction o as [|[k' v'] o IH]; simpl; [by left|].
  case_bool_decide; [by left|by right].
Qed.

(** X6.  After a count above 0 is submitted for [projectLeads], every
    generated lead resolves to its seed rounded to cents once more, and
    the amount of every template is what it was before the expansion. *)
Theorem expanded_leads_resolve st total rounds :
  pendingProjectLeadsNode st = Some "projectLeads" ->
  projectLeadsModalValue st = Some total -> JS.gt0 total = true ->
  loopRounds total = Some rounds ->
  exists m st' m',
    nodeAmountsOf st = Some m /\
    handleSubmitProjectLeadsModal st = Some st' /\
    nodeAmountsOf st' = Some m' /\
    (forall i, (1 <= i <= rounds)%nat ->
       m' !! leadId "projectLeads" i
       = Some (JS.round2 (sharePerLead st m "projectLeads" total))) /\
    (forall k, In k keys -> m' !! k = m !! k).
Proof.
  intros Hpending Hvalue Htotal Hrounds.
  destruct (nodeAmounts_spec (developerPayout st) (nodeValues st) true
              (dynamicChildren st)) as (m & Hm & Hs & Hkeys & _).
  fold (nodeAmountsOf st) in Hm.
  exists m. unfold handleSubmitProjectLeadsModal.
  rewrite Hm, Hpending, Hvalue. cbn [default from_option Datatypes.id].
  rewrite (or_else_gt0 _ Htotal), Htotal, Hrounds.
  cbn [JS.truthy_str]. rewrite bool_decide_eq_false_2 by done.
  cbn [negb andb]. eexists. 
  set (share := sharePerLead st m "projectLeads" total).
  set (ids := leadIds "projectLeads" rounds).
  set (seed := {| percent := Some 0; fixed := Some share |}).
  set (nv' := fold_left _ ids (nodeValues st)).
  set (dyn' := assign "projectLeads" ids (dynamicChildren st)).
  destruct (nodeAmounts_spec (developerPayout st) nv' true dyn')
    as (m' & Hm' & Hs' & Hkeys' & Hlisted').
  exists m'. split; [done|]. split; [done|]. split; [exact Hm'|]. split.
  - intros i Hi.
    assert (Hin : In (leadId "projectLeads" i) ids).
    { unfold ids, leadIds. apply in_map, in_seq. lia. }
    destruct (Hlisted' ("projectLeads", ids) (leadId "projectLeads" i))
      as [v Hv]; [apply In_assign|exact Hin|].
    rewrite Hv. f_equal.
    destruct Hs' as [_ Hs']. specialize (Hs' _ _ Hv). unfold ruleOf in Hs'.
    rewrite leadId_is_lead in Hs'.
    rewrite bool_decide_eq_false_2 in Hs' by (unfold leadId; discriminate).
    subst v. unfold leadAmount, fixedOf. f_equal.
    unfold nv'. by rewrite (TemplateTheorems.seeded_lookup seed ids _ _ Hin).
  - intros k Hk. eapply sound_agree_lookup; [exact Hs|exact Hs'| |].
    + split; intros _; [by apply Hkeys'|by apply Hkeys].
    + intros a Ha. 
      assert (Hak : In a keys).
      { apply rtc_childOf_keys in Ha as [->|Ha]; done. }
      assert (Hnot : ~ In a ids).
      { intros Hin. apply leadIds_are_leads in Hin.
        apply keys_not_lead in Hak. congruence. }
      unfold sameValues, percentOf, fixedOf, nv'.
      rewrite (TemplateTheorems.seeded_lookup_other seed ids _ _ Hnot).
      split; reflexivity.
Qed.

(** The editor with a payout of 1,000,000 and the count 4 typed for
    [projectLeads]. *)
Definition fourLeads : State :=
  openProjectLeadsModal "projectLeads" (Some 4) million.

Lemma expanded_leads_resolve_witness :
  exists m st' m',
    nodeAmountsOf fourLeads = Some m /\
    handleSubmitProjectLeadsModal fourLeads = Some st' /\
    nodeAmountsOf st' = Some m' /\
    (forall i, (1 <= i <= 4)%nat ->
       m' !! leadId "projectLeads" i
       = Some (JS.round2 (sharePerLead fourLeads m "projectLeads" 4))) /\
    (forall k, In k keys -> m' !! k = m !! k).
Proof.
  exact (expanded_leads_resolve fourLeads 4 4%nat eq_refl eq_refl eq_refl
           eq_refl).
Defined.


(** *** The breadcrumb *)

Lemma breadcrumbLoop_S fuel cursor chain :
  breadcrumbLoop (S fuel) cursor chain =
  match cursor with
  | Some c =>
      if JS.truthy_str cursor
      then breadcrumbLoop fuel (default None (parentMap !! c)) (c :: chain)
      else Some chain
  | None => Some chain
  end.
Proof. reflexivity. Qed.

(** The next cursor is truthy exactly when the parent map gives a
    parent. *)
Lemma next_cursor c :
  match default None (parentMap !! c) with
  | Some q => if JS.truthy_str (Some q) then parentOf c = Some q
              else parentOf c = None
  | None => parentOf c = None
  end.
Proof.
  unfold parentOf.
  destruct (parentMap !! c) as [[q|]|];
    cbn [default from_option Datatypes.id]; cbv beta iota; try reflexivity.
  destruct (JS.truthy_str (Some q)); cbv iota; reflexivity.
Qed.

Lemma depth_bound j : depth j < length payoutNodes.
Proof.
  unfold depth.
  destruct (length payoutNodes) as [|n] eqn:Hn; [done|].
  cbn [depthOf]. destruct (parentOf j) as [p|] eqn:Hp; [|lia].
  destruct (parentOf_facts j p Hp) as (_ & _ & Hw & _).
  unfold depth in Hw. rewrite Hn in Hw. cbn [depthOf] in Hw.
  by rewrite Hp in Hw.
Qed.

Lemma childOf_functional a b c : childOf a b -> childOf a c -> b = c.
Proof. unfold childOf. congruence. Qed.

Lemma rtc_childOf_inv a b :
  rtc childOf a b -> b = a \/ exists p, parentOf a = Some p /\ rtc childOf p b.
Proof. destruct 1 as [|a p b Hp Hr]; [by left|right; eauto]. Qed.

Lemma linked_snoc l q c :
  linked (l ++ [q]) -> parentOf c = Some q -> linked (l ++ [q; c]).
Proof.
  induction l as [|a l IH]; intros Hl Hp.
  - cbn [app linked]. split; [exact Hp|exact I].
  - destruct l as [|b l].
    + cbn [app linked] in *. destruct Hl as [Hqa _].
      split; [exact Hqa|]. split; [exact Hp|exact I].
    + cbn [app linked] in *. destruct Hl as [Hab Hl].
      split; [exact Hab|]. by apply IH.
Qed.

(** The loop started at a truthy cursor [c]: it ends, and puts the
    ancestors of [c], the topmost first, in front of [c]. *)
Lemma breadcrumbLoop_spec n : forall c chain,
  depth c < n -> c <> "" ->
  exists up,
    breadcrumbLoop (S n) (Some c) chain = Some (up ++ c :: chain) /\
    linked (up ++ [c]) /\
    (exists h, head (up ++ [c]) = Some h /\ parentOf h = None) /\
    forall b, In b (up ++ [c]) <-> rtc childOf c b.
Proof.
  induction n as [|n IH]; intros c chain Hd Hc; [lia|].
  rewrite breadcrumbLoop_S. cbn [JS.truthy_str].
  rewrite bool_decide_eq_false_2 by exact Hc. cbn [negb].
  pose proof (next_cursor c) as Hnext.
  assert (Hroot : parentOf c = None ->
                  forall b, In b ([] ++ [c]) <-> rtc childOf c b).
  { intros Hp b. split.
    - intros [<-|[]]. apply rtc_refl.
    - intros Hr. apply rtc_childOf_inv in Hr as [->|(p & Hp' & _)];
        [by left|congruence]. }
  destruct (default None (parentMap !! c)) as [q|] eqn:Hq.
  - destruct (JS.truthy_str (Some q)) eqn:Htq; cbv beta iota in Hnext.
    + (* the parent [q] is the next cursor *)
      destruct (parentOf_facts c q Hnext) as (_ & Hdq & _).
      assert (Hqne : q <> "").
      { intros ->. discriminate Htq. }
      destruct (IH q (c :: chain)) as (up & Hrun & Hl & (h & Hh & Hhp) & Hin);
        [lia|exact Hqne|].
      exists (up ++ [q]). rewrite Hrun, <- !app_assoc. cbn [app].
      split; [reflexivity|]. split; [|split].
      * by apply linked_snoc.
      * exists h. split; [|exact Hhp]. clear -Hh.
        destruct up; cbn [app head] in *; exact Hh.
      * intros b. rewrite (in_app_iff up [q; c] b).
        split.
        -- intros [Hb|[<-|[<-|[]]]].
           ++ eapply rtc_l; [exact Hnext|]. apply Hin, in_app_iff. by left.
           ++ by apply rtc_once.
           ++ apply rtc_refl.
        -- intros Hr. apply rtc_childOf_inv in Hr as [->|(p & Hp' & Hr)].
           { right. right. by left. }
           assert (p = q) as -> by congruence.
           apply Hin, in_app_iff in Hr as [Hr|[<-|[]]]; [by left|].
           right. by left.
    + (* an empty string ends the loop *)
      exists []. rewrite breadcrumbLoop_S, Htq.
      split; [reflexivity|]. split; [exact I|]. split; [|by apply Hroot].
      exists c. split; [reflexivity|exact Hnext].
  - exists []. rewrite breadcrumbLoop_S.
    split; [reflexivity|]. split; [exact I|]. split; [|by apply Hroot].
    exists c. split; [reflexivity|exact Hnext].
Qed.

(** X7.  The breadcrumb loop ends for every active id.  For a non-empty
    id the chain ends with the id itself, starts at an id without a
    parent, links every element to the next by the parent map, and holds
    exactly the ids reached from the active id by parent links; for the
    empty id it is empty. *)
Theorem breadcrumb_is_parent_chain activeNodeId :
  exists chain,
    breadcrumbPath activeNodeId = Some chain /\
    linked chain /\
    (activeNodeId = "" -> chain = []) /\
    (activeNodeId <> "" ->
     last chain = Some activeNodeId /\
     (exists h, head chain = Some h /\ parentOf h = None) /\
     forall b, In b chain <-> rtc childOf activeNodeId b).
Proof.
  unfold breadcrumbPath.
  destruct (decide (activeNodeId = "")) as [->|Hne].
  - exists []. split; [reflexivity|]. split; [exact I|]. split; done.
  - destruct (breadcrumbLoop_spec (S (length payoutNodes)) activeNodeId [])
      as (up & Hrun & Hl & Hh & Hin).
    { pose proof (depth_bound activeNodeId). lia. }
    { exact Hne. }
    exists (up ++ [activeNodeId]).
    split; [exact Hrun|]. split; [exact Hl|]. split; [done|].
    intros _. split; [apply last_snoc|]. split; [exact Hh|exact Hin].
Qed.

(** The breadcrumb of [projectLeads]. *)
Example breadcrumb_of_projectLeads :
  breadcrumbPath "projectLeads"
  = Some ["developerPayout"; "taggerCombined"; "taggerFee"; "taggerKw";
          "newLaunchTeam"; "projectLeads"].
Proof. vm_compute. reflexivity. Qed.


(** *** Reordering and inspecting cards *)

Lemma arrayMove_Permutation l from to : arrayMove l from to ≡ₚ l.
Proof.
  unfold arrayMove. destruct (l !! from) as [x|] eqn:Hx; [|done].
  rewrite <- (take_drop_middle l from x Hx) at 5.
  set (rest := take from l ++ drop (S from) l).
  rewrite <- !Permutation_middle. constructor.
  by rewrite take_drop.
Qed.

(** What a drag end does to the sibling orders and the recorded
    counts. *)
Lemma drag_end_orders event st :
  (forall parent,
     option_Forall2 Permutation
       (childOrders (handleDragEnd event st) !! parent)
       (childOrders st !! parent)) /\
  projectLeadsTotal (handleDragEnd event st) = projectLeadsTotal st /\
  (forall parent, parent <> activeNodeId st ->
     childOrders (handleDragEnd event st) !! parent
     = childOrders st !! parent).
Proof.
  assert (Hsame : forall parent : string,
            option_Forall2 Permutation (childOrders st !! parent)
                                       (childOrders st !! parent)).
  { intros parent. destruct (childOrders st !! parent); by constructor. }
  unfold handleDragEnd.
  destruct (over event) as [over|]; [|done].
  cbn [activeNodeId setDragInfo projectLeadsTotal childOrders].
  destruct (bool_decide (item_id over = activeNodeId st)
            && bool_decide (item_parentId (active event)
                            = Some (activeNodeId st))).
  { destruct (_ && _); [done|]. by destruct (hasBranch _ _). }
  destruct (item_parentId (active event)) as [parent|]; [|done].
  destruct (_ || _) eqn:Hguard; [done|].
  apply orb_false_elim in Hguard as [_ Hactive].
  apply negb_false_iff, bool_decide_eq_true in Hactive. subst parent.
  destruct (childOrders st !! activeNodeId st) as [currentOrder|] eqn:Ho;
    [|done].
  destruct (indexOf _ currentOrder) as [oldIndex|]; [|done].
  destruct (indexOf _ currentOrder) as [newIndex|]; [|done].
  cbn [setChildOrders childOrders projectLeadsTotal]. split; [|split; [done|]].
  - intros parent. destruct (decide (activeNodeId st = parent)) as [<-|Hne].
    + rewrite lookup_insert_eq, Ho. constructor.
      apply arrayMove_Permutation.
    + rewrite lookup_insert_ne by done. apply Hsame.
  - intros parent Hne. by rewrite lookup_insert_ne.
Qed.

(** X8.  A drag that ends, wherever it ends, loses and duplicates no
    card: every entry of [childOrders] afterwards is a permutation of the
    entry before, entries of nodes other than the active one are
    untouched, and when the drag did not navigate, the children shown are
    a permutation of those shown before. *)
Theorem drag_end_permutes_children event st :
  (forall parent,
     option_Forall2 Permutation
       (childOrders (handleDragEnd event st) !! parent)
       (childOrders st !! parent)) /\
  (forall parent, parent <> activeNodeId st ->
     childOrders (handleDragEnd event st) !! parent
     = childOrders st !! parent) /\
  (activeNodeId (handleDragEnd event st) = activeNodeId st ->
   activeChildren (handleDragEnd event st) ≡ₚ activeChildren st).
Proof.
  destruct (drag_end_orders event st) as (Hperm & _ & Hother).
  split; [exact Hperm|]. split; [exact Hother|].
  intros Hactive. unfold activeChildren. rewrite Hactive.
  destruct (TemplateTheorems.handleDragEnd_inputs event st) as (_ & _ & ->).
  destruct (entry _ _); [done|].
  specialize (Hperm (activeNodeId st)).
  destruct Hperm as [l' l Hl|]; done.
Qed.

Lemma noTotal_gt0 total : JS.gt0 total = true -> noTotal (Some total) = false.
Proof.
  intros H. unfold noTotal. by rewrite (gt0_truthy _ H), (gt0_not_zero _ H).
Qed.

(** X9.  The first inspection of [projectLeads] asks for a count and does
    not navigate.  Once a count above 0 is typed and submitted, the
    editor shows [projectLeads], whose children are exactly the generated
    leads, the dialog is closed and the count is recorded; a later
    inspection navigates without asking again. *)
Theorem first_inspection_expands st count rounds :
  noTotal (projectLeadsTotal st !! "projectLeads") = true ->
  JS.gt0 count = true -> loopRounds count = Some rounds ->
  let asked := handleInspectNode "projectLeads" st in
  isProjectLeadsModalOpen asked = true /\
  pendingProjectLeadsNode asked = Some "projectLeads" /\
  activeNodeId asked = activeNodeId st /\
  exists st',
    handleSubmitProjectLeadsModal (typeProjectLeadsCount (Some count) asked)
    = Some st' /\
    activeNodeId st' = "projectLeads" /\
    activeChildren st' = leadIds "projectLeads" rounds /\
    isProjectLeadsModalOpen st' = false /\
    projectLeadsTotal st' !! "projectLeads" = Some count /\
    handleInspectNode "projectLeads" st' = navigate "projectLeads" st'.
Proof.
  intros Hzero Hcount Hrounds asked. subst asked.
  unfold handleInspectNode at 1 2 3 4.
  rewrite bool_decide_eq_true_2 by done.
  rewrite Hzero. cbn [andb].
  split; [done|]. split; [done|]. split; [done|].
  set (typed := typeProjectLeadsCount (Some count) _).
  destruct (nodeAmounts_spec (developerPayout typed) (nodeValues typed) true
              (dynamicChildren typed)) as (m & Hm & _).
  fold (nodeAmountsOf typed) in Hm.
  unfold handleSubmitProjectLeadsModal. rewrite Hm.
  cbn [typed typeProjectLeadsCount projectLeadsModalValue
       pendingProjectLeadsNode openProjectLeadsModal default from_option
       Datatypes.id].
  rewrite (or_else_gt0 _ Hcount), Hcount, Hrounds.
  cbn [JS.truthy_str]. rewrite bool_decide_eq_false_2 by done.
  cbn [negb andb]. eexists. split; [reflexivity|].
  split; [reflexivity|]. split.
  { unfold activeChildren. cbn [activeNodeId dynamicChildren].
    by rewrite TemplateTheorems.entry_assign. }
  split; [reflexivity|]. split.
  { cbn [projectLeadsTotal]. apply lookup_insert_eq. }
  unfold handleInspectNode. cbn [projectLeadsTotal].
  rewrite lookup_insert_eq, (noTotal_gt0 _ Hcount).
  rewrite andb_false_r.
  assert (Hb : forall s, hasBranch s "projectLeads" = true).
  { intros s. unfold hasBranch.
    assert (exists c l, lookupNode "projectLeads" ≫= childIds = Some (c :: l))
      as (c & l & ->); [|done].
    do 2 eexists. vm_compute. reflexivity. }
  by rewrite Hb.
Qed.

Lemma first_inspection_expands_witness :
  let asked := handleInspectNode "projectLeads" million in
  isProjectLeadsModalOpen asked = true /\
  pendingProjectLeadsNode asked = Some "projectLeads" /\
  activeNodeId asked = activeNodeId million /\
  exists st',
    handleSubmitProjectLeadsModal (typeProjectLeadsCount (Some 4) asked)
    = Some st' /\
    activeNodeId st' = "projectLeads" /\
    activeChildren st' = leadIds "projectLeads" 4%nat /\
    isProjectLeadsModalOpen st' = false /\
    projectLeadsTotal st' !! "projectLeads" = Some 4 /\
    handleInspectNode "projectLeads" st' = navigate "projectLeads" st'.
Proof.
  exact (first_inspection_expands million 4 4%nat eq_refl eq_refl eq_refl).
Defined.


(** *** What holds in every state the editor can reach *)

(** The count recorded for a node and the dynamic children listed for it
    belong together: the children are the ids [lead_1] to [lead_n] of the
    node, [n] being the integer part of the count; every sibling order is
    a permutation of the order the editor starts with. *)
Definition consistent (st : State) : Prop :=
  (forall k,
     entry k (dynamicChildren st)
     = match projectLeadsTotal st !! k with
       | Some total => leadIds k <$> loopRounds total
       | None => None
       end) /\
  (forall k total, projectLeadsTotal st !! k = Some total ->
                   JS.gt0 total = true /\ is_Some (loopRounds total)) /\
  (forall parent,
     option_Forall2 Permutation (childOrders st !! parent)
                    (buildInitialOrders !! parent)).

Lemma consistent_same st st' :
  dynamicChildren st' = dynamicChildren st ->
  projectLeadsTotal st' = projectLeadsTotal st ->
  childOrders st' = childOrders st ->
  consistent st -> consistent st'.
Proof. unfold consistent. by intros -> -> ->. Qed.

Lemma Step_consistent st st' : Step st st' -> consistent st -> consistent st'.
Proof.
  intros Hstep Hc.
  destruct Hstep as [nodeId field value st|nodeId parsed st|parsed st
                    |dragged st|event st|event st|nodeId st|nodeId st
                    |nodeId st|st|text st|st|st st' Hsubmit].
  - by apply (consistent_same st).
  - unfold handleSubmitIncentiveModal. destruct (PrimFloat.leb _ _); [|done].
    by apply (consistent_same st).
  - unfold handleSubmitModal. destruct (JS.gt0 _); [|done].
    by apply (consistent_same st).
  - by apply (consistent_same st).
  - unfold handleDragOver.
    destruct (over event); [|by apply (consistent_same st)].
    destruct (_ || _); by apply (consistent_same st).
  - destruct Hc as (Hdyn & Hpos & Hperm).
    destruct (TemplateTheorems.handleDragEnd_inputs event st) as (_ & _ & Hd).
    destruct (drag_end_orders event st) as [Hp [Hleads _]].
    split; [|split].
    + intros k. by rewrite Hd, Hleads.
    + intros k total. rewrite Hleads. apply Hpos.
    + intros parent. specialize (Hp parent). specialize (Hperm parent).
      destruct Hp as [a b Hab|]; [|done].
      inversion Hperm as [b' c Hbc|]; subst. constructor. by etrans.
  - unfold handleInspectNode.
    destruct (_ && _); [by apply (consistent_same st)|].
    destruct (hasBranch _ _); [by apply (consistent_same st)|done].
  - by apply (consistent_same st).
  - by apply (consistent_same st).
  - by apply (consistent_same st).
  - by apply (consistent_same st).
  - by apply (consistent_same st).
  - unfold handleSubmitProjectLeadsModal in Hsubmit.
    destruct (nodeAmountsOf st) as [m|]; [|done].
    destruct (pendingProjectLeadsNode st) as [nodeId|];
      [|by inversion Hsubmit; subst].
    destruct (_ && _) eqn:Hguard; [|by inversion Hsubmit; subst].
    apply andb_prop in Hguard as [Htotal _].
    destruct (loopRounds _) as [rounds|] eqn:Hrounds; [|done].
    inversion Hsubmit; subst st'; clear Hsubmit.
    destruct Hc as (Hdyn & Hpos & Hperm).
    split; [|split]; cbn [dynamicChildren projectLeadsTotal childOrders].
    + intros k. destruct (decide (nodeId = k)) as [<-|Hne].
      * by rewrite TemplateTheorems.entry_assign, lookup_insert_eq, Hrounds.
      * rewrite TemplateTheorems.entry_assign_other by done.
        rewrite lookup_insert_ne by done. apply Hdyn.
    + intros k total. destruct (decide (nodeId = k)) as [<-|Hne].
      * rewrite lookup_insert_eq. intros [= <-]. by rewrite Hrounds.
      * rewrite lookup_insert_ne by done. apply Hpos.
    + exact Hperm.
Qed.

(** X10.  In every state the editor reaches from its initial state by
    any calls of its handlers, with any numbers typed, a node has dynamic
    children exactly when a count is recorded for it; the count is above
    0 and the children are the ids [lead_1] to [lead_n] of the node, [n]
    being the integer part of the count; and every sibling order is a
    permutation of the order the editor started with. *)
Theorem reachable_states_are_consistent st :
  rtc Step initialState st -> consistent st.
Proof.
  intros Hreach.
  assert (H0 : consistent initialState).
  { split; [|split].
    - intros k. cbn [initialState dynamicChildren projectLeadsTotal].
      by rewrite lookup_empty.
    - intros k total. cbn [initialState projectLeadsTotal].
      by rewrite lookup_empty.
    - intros parent. cbn [initialState childOrders].
      destruct (buildInitialOrders !! parent); by constructor. }
  revert H0. induction Hreach as [|st1 st2 st3 Hstep _ IH]; [done|].
  intros H1. apply IH. by eapply Step_consistent.
Qed.

(** The editor after a payout, five inspections, the typing of 2.5 and
    the submission. *)
Lemma reachable_states_are_consistent_witness :
  entry "projectLeads" (dynamicChildren twoAndHalf)
  = Some ["projectLeads_lead_1"; "projectLeads_lead_2"] /\
  projectLeadsTotal twoAndHalf !! "projectLeads" = Some 2.5.
Proof.
  destruct (reachable_states_are_consistent twoAndHalf) as (Hdyn & _ & _).
  - eapply rtc_l; [apply (S_payout 1000000)|].
    eapply rtc_l; [apply (S_inspect "taggerCombined")|].
    eapply rtc_l; [apply (S_inspect "taggerFee")|].
    eapply rtc_l; [apply (S_inspect "taggerKw")|].
    eapply rtc_l; [apply (S_inspect "newLaunchTeam")|].
    eapply rtc_l; [apply (S_inspect "projectLeads")|].
    eapply rtc_l; [apply (S_type (Some 2.5))|].
    eapply rtc_l; [apply S_submit; vm_compute; reflexivity|].
    apply rtc_refl.
  - assert (Hrec : projectLeadsTotal twoAndHalf !! "projectLeads" = Some 2.5)
      by (vm_compute; reflexivity).
    split; [|exact Hrec]. rewrite (Hdyn "projectLeads"), Hrec.
    vm_compute. reflexivity.
Defined.

(** *** The incentive dialog of the tagger group *)

(** The ids from which [taggerIncentive] is reached by parent links. *)
Definition incentiveBranch : list string :=
  ["taggerIncentive"; "taggerIncentiveSpecialist"; "taggerIncentiveEra"].

Lemma incentiveBranch_closed k :
  rtc childOf k "taggerIncentive" -> In k incentiveBranch.
Proof.
  intros Hr. remember "taggerIncentive" as top eqn:Htop.
  induction Hr as [|k q top Hkq _ IH]; [subst; by left|].
  specialize (IH Htop).
  destruct (parentOf_facts k q Hkq) as (_ & _ & _ & _ & _ & _ & t & Ht & Hin).
  unfold incentiveBranch in IH. cbn [In] in IH.
  destruct IH as [<-|[<-|[<-|[]]]]; vm_compute in Ht;
    inversion Ht; subst t; cbn in Hin; unfold incentiveBranch; cbn [In];
    tauto.
Qed.

(** The one group of the template tree. *)
Lemma only_group k t :
  lookupNode k = Some t -> kind t = Some group -> k = "taggerCombined".
Proof.
  intros Ht Hk. apply lookupNode_In in Ht.
  assert (Hall : forallb (fun e : string * NodeTemplate =>
                            match kind (snd e) with
                            | Some group => bool_decide (fst e = "taggerCombined")
                            | _ => true
                            end) payoutNodes = true)
    by (vm_compute; reflexivity).
  rewrite forallb_forall in Hall. specialize (Hall _ Ht).
  cbn [fst snd] in Hall. rewrite Hk in Hall.
  by apply bool_decide_eq_true in Hall.
Qed.

Lemma display_same developerPayout m m' k :
  k <> "taggerCombined" -> m' !! k = m !! k ->
  getDisplayAmount developerPayout m' k = getDisplayAmount developerPayout m k.
Proof.
  intros Hk Hm. unfold getDisplayAmount.
  destruct (lookupNode k) as [[i l p f c kd]|] eqn:Ht; [|by rewrite Hm].
  destruct kd as [[]|]; try by rewrite Hm.
  exfalso. apply Hk. by eapply only_group.
Qed.

Lemma display_group developerPayout m :
  getDisplayAmount developerPayout m "taggerCombined"
  = 0 + default 0 (m !! "taggerFee") + default 0 (m !! "taggerIncentive").
Proof.
  unfold getDisplayAmount.
  assert (lookupNode "taggerCombined"
          = Some {| id := "taggerCombined";
                    label := "Tagger Fee 0.3% + Incentive";
                    defaultPercent := Some 0; defaultFixed := None;
                    childIds := Some ["taggerFee"; "taggerIncentive"];
                    kind := Some group |}) as -> by (vm_compute; reflexivity).
  reflexivity.
Qed.

(** What a change of the values of [taggerIncentive] alone does to the
    amounts and to what the cards show. *)
Lemma incentive_values_scope st st1 :
  developerPayout st1 = developerPayout st ->
  dynamicChildren st1 = dynamicChildren st ->
  (forall k, k <> "taggerIncentive" ->
             nodeValues st1 !! k = nodeValues st !! k) ->
  percentOf (nodeValues st1) "taggerIncentive"
  = percentOf (nodeValues st) "taggerIncentive" ->
  exists m m',
    nodeAmountsOf st = Some m /\ nodeAmountsOf st1 = Some m' /\
    (forall k, ~ In k incentiveBranch -> m' !! k = m !! k) /\
    (forall k, ~ In k incentiveBranch -> k <> "taggerCombined" ->
       displayAmountOf st1 k = displayAmountOf st k) /\
    displayAmountOf st1 "taggerCombined"
    = Some (0 + default 0 (m !! "taggerFee")
              + default 0 (m' !! "taggerIncentive")) /\
    exists pa,
      m !! "taggerCombined" = Some pa /\
      m' !! "taggerIncentive"
      = Some (JS.round2 (pa * percentOf (nodeValues st) "taggerIncentive"
                         + fixedOf (nodeValues st1) "taggerIncentive")).
Proof.
  intros Hdp Hdyn Hother Hpercent.
  destruct (nodeAmounts_spec (developerPayout st) (nodeValues st) true
              (dynamicChildren st)) as (m & Hm & _ & Hkeys & _).
  destruct (nodeAmounts_spec (developerPayout st1) (nodeValues st1) true
              (dynamicChildren st1)) as (m' & Hm' & [_ Hs'] & Hkeys' & _).
  assert (Hloc : forall k, ~ In k incentiveBranch -> m' !! k = m !! k).
  { intros k Hk. rewrite Hdp, Hdyn in Hm'.
    eapply runs_agree; [exact Hm|exact Hm'|].
    intros a Ha.
    assert (Hne : a <> "taggerIncentive").
    { intros ->. apply Hk. by apply incentiveBranch_closed. }
    unfold sameValues, percentOf, fixedOf. rewrite (Hother a Hne).
    split; reflexivity. }
  assert (Hfee : ~ In "taggerFee" incentiveBranch).
  { unfold incentiveBranch. cbn [In]. intros [H|[H|[H|[]]]]; discriminate H. }
  assert (Hgroup : ~ In "taggerCombined" incentiveBranch).
  { unfold incentiveBranch. cbn [In]. intros [H|[H|[H|[]]]]; discriminate H. }
  exists m, m'. unfold displayAmountOf, nodeAmountsOf.
  rewrite Hm, Hm', Hdp. split; [reflexivity|]. split; [reflexivity|].
  split; [exact Hloc|]. split.
  { intros k Hk Hne. f_equal. apply display_same; [exact Hne|by apply Hloc]. }
  split.
  { rewrite display_group. by rewrite (Hloc "taggerFee" Hfee). }
  assert (Hp : parentOf "taggerIncentive" = Some "taggerCombined")
    by (vm_compute; reflexivity).
  destruct (parentOf_facts _ _ Hp) as (_ & _ & _ & Hkey & Hroot & Hlead & _).
  destruct (Hkeys' "taggerIncentive" Hkey) as [v Hv].
  pose proof (Hs' _ _ Hv) as Hrule. unfold ruleOf in Hrule.
  rewrite (bool_decide_eq_false_2 _ Hroot), Hlead, Hp in Hrule.
  destruct Hrule as (pa & Hpa & ->).
  exists pa. split; [by rewrite <- (Hloc "taggerCombined" Hgroup)|].
  rewrite Hv. unfold nodeAmount. rewrite Hpercent.
  by rewrite bool_decide_eq_false_2.
Qed.

Lemma gt0_leb x : JS.gt0 x = true -> PrimFloat.leb 0 x = true.
Proof.
  unfold JS.gt0. rewrite FloatAxioms.ltb_spec, FloatAxioms.leb_spec.
  change (Prim2SF PrimFloat.zero) with (S754_zero false).
  change (Prim2SF 0) with (S754_zero false).
  destruct (Prim2SF x) as [s|s| |s m e]; try done.
  - by destruct s.
  - by destruct s.
Qed.

(** X11.  The incentive dialog opened on the group card [taggerCombined]
    edits the fixed value of [taggerIncentive].  A number above 0 is
    stored as it is (0 in the place of an infinite one); an input that is
    0, empty or not a number stores 0; a negative number is refused and
    leaves the state as it is.  No resolved amount outside
    [taggerIncentive] and its two children changes, [taggerIncentive]
    resolves to its percent of the group's amount plus the stored value,
    the group card shows the amount of [taggerFee] plus that new amount,
    and every other card outside the branch shows what it showed. *)
Theorem incentive_edit_scope parsed st :
  let st' := handleSubmitIncentiveModal "taggerCombined" parsed st in
  (exists m m',
     nodeAmountsOf st = Some m /\ nodeAmountsOf st' = Some m' /\
     (forall k, ~ In k incentiveBranch -> m' !! k = m !! k) /\
     (forall k, ~ In k incentiveBranch -> k <> "taggerCombined" ->
        displayAmountOf st' k = displayAmountOf st k) /\
     displayAmountOf st' "taggerCombined"
     = Some (0 + default 0 (m !! "taggerFee")
               + default 0 (m' !! "taggerIncentive")) /\
     exists pa,
       m !! "taggerCombined" = Some pa /\
       m' !! "taggerIncentive"
       = Some (JS.round2 (pa * percentOf (nodeValues st) "taggerIncentive"
                          + fixedOf (nodeValues st') "taggerIncentive"))) /\
  (JS.gt0 parsed = true ->
   nodeValues st' !! "taggerIncentive" ≫= fixed
   = Some (if PrimFloat.is_finite parsed then parsed else 0)) /\
  (JS.truthy parsed = false ->
   nodeValues st' !! "taggerIncentive" ≫= fixed = Some 0) /\
  (PrimFloat.ltb parsed 0 = true -> st' = st).
Proof.
  intros st'. split; [|split; [|split]].
  - subst st'. unfold handleSubmitIncentiveModal.
    destruct (PrimFloat.leb 0 (JS.or_else parsed 0)).
    + rewrite bool_decide_eq_true_2 by done.
      apply incentive_values_scope; unfold handleValueChange;
        cbn [setNodeValues developerPayout nodeValues dynamicChildren].
      * reflexivity.
      * reflexivity.
      * intros k Hk. rewrite lookup_insert_ne; [reflexivity|].
        intros Heq. apply Hk. symmetry. exact Heq.
      * unfold percentOf. rewrite lookup_insert_eq.
        cbn [withField percent mbind option_bind]. reflexivity.
    + by apply incentive_values_scope.
  - intros Hgt. subst st'. unfold handleSubmitIncentiveModal.
    rewrite (or_else_gt0 _ Hgt), (gt0_leb _ Hgt).
    rewrite bool_decide_eq_true_2 by done.
    unfold handleValueChange. cbn [setNodeValues nodeValues].
    rewrite lookup_insert_eq. reflexivity.
  - intros Hfalsy. subst st'. unfold handleSubmitIncentiveModal, JS.or_else.
    rewrite Hfalsy.
    assert (PrimFloat.leb 0 0 = true) as -> by reflexivity.
    rewrite bool_decide_eq_true_2 by done.
    unfold handleValueChange. cbn [setNodeValues nodeValues].
    rewrite lookup_insert_eq. reflexivity.
  - intros Hneg. subst st'. unfold handleSubmitIncentiveModal.
    assert (Ht : JS.truthy parsed = true).
    { unfold JS.truthy, PrimFloat.is_nan.
      rewrite FloatAxioms.ltb_spec in Hneg. rewrite !FloatAxioms.eqb_spec.
      change (Prim2SF 0) with (S754_zero false) in *.
      destruct (Prim2SF parsed) as [s|s| |s m e]; try done.
      - by destruct s.
      - destruct s; [|done]. cbn [SFeqb SFcompare].
        by rewrite Z.compare_refl, Pos.compare_cont_refl. }
    unfold JS.or_else. rewrite Ht.
    assert (PrimFloat.leb 0 parsed = false) as ->; [|done].
    rewrite FloatAxioms.leb_spec. rewrite FloatAxioms.ltb_spec in Hneg.
    change (Prim2SF 0) with (S754_zero false) in *.
    destruct (Prim2SF parsed) as [s|s| |s m e]; try done.
    + by destruct s.
    + by destruct s.
Qed.

(** With the default values and a payout of 1,000,000 the group card
    shows 5000; an incentive of 2500 typed into its dialog is stored for
    [taggerIncentive] and the card shows 5500. *)
Example incentive_2500 :
  let st' := handleSubmitIncentiveModal "taggerCombined" 2500 million in
  displayAmountOf million "taggerCombined" = Some 5000 /\
  nodeValues st' !! "taggerIncentive" ≫= fixed = Some 2500 /\
  displayAmountOf st' "taggerCombined" = Some 5500 /\
  (m ← nodeAmountsOf st'; Some (m !! "taggerCombined")) = Some (Some 0).
Proof. repeat split; vm_compute; reflexivity. Qed.

End TemplateEditing.

(* ===================================================================== *)
(** ** The canvas editor: amounts after an edit *)
(* ===================================================================== *)

Module CanvasEditingTheorems.
Import FlowchartCanvas CanvasFacts CanvasEditing CanvasFrame.

(** A node with the given id, parent and rule flags and values. *)
Definition plain (i : string) (p : option string) (up uf : bool)
    (pv fv : list JS.number) : FlowchartNode :=
  {| id := i; label := i; x := 0; y := 0;
     amountType := AT_percent; amountValue := 0;
     percentValues := Some pv; fixedValues := Some fv;
     percentValue := None; fixedValue := None;
     usePercent := up; useFixed := uf; formula := None; parentId := p |}.

(** An editor that holds the given nodes and connections. *)
Definition editorOf (l : list FlowchartNode) (cs : list FlowchartConnection)
  : Editor :=
  {| canvas := {| nodes := l; connections := cs; selectedNode := None |};
     draggedNodeId := None; isConnecting := false; connectionStart := None;
     isNodeModalOpen := false; editingNodeId := None; zoom := 1;
     formData := {| f_label := ""; f_amountType := AT_percent;
                    f_amountValue := 0; f_usePercent := false;
                    f_useFixed := false; f_percentValues := [];
                    f_fixedValues := []; f_formula := "";
                    f_parentId := None |} |}.

(** A root of 1000 and a child that takes 10% of it plus 50. *)
Definition rootWithChild : list FlowchartNode :=
  [plain "root" None false true [] [1000];
   plain "child" (Some "root") true true [10] [50]].

(** *** Lists mapped node by node *)

Lemma map_sameRule (g : FlowchartNode -> FlowchartNode) l :
  (forall node, sameRule (g node) node) -> Forall2 sameRule (map g l) l.
Proof. intros Hg. induction l as [|a l IH]; cbn [map]; by constructor. Qed.

Lemma map_keeps_ids (g : FlowchartNode -> FlowchartNode) l :
  (forall node, id (g node) = id node) -> map id (map g l) = map id l.
Proof.
  intros Hg. rewrite map_map. apply map_ext. exact Hg.
Qed.

(** X12.  Dragging a node to another place changes its coordinates and
    nothing the engine reads: the engine returns the same amounts and the
    same warnings for the nodes after the drag as for the nodes before
    it, and connections, ids and parents are as they were. *)
Theorem drag_keeps_amounts event ed console0 :
  let ed' := handleDragEnd event ed in
  calculateNodeAmounts (nodes (canvas ed')) console0
  = calculateNodeAmounts (nodes (canvas ed)) console0 /\
  connections (canvas ed') = connections (canvas ed) /\
  map id (nodes (canvas ed')) = map id (nodes (canvas ed)) /\
  map parentId (nodes (canvas ed')) = map parentId (nodes (canvas ed)) /\
  draggedNodeId ed' = None.
Proof.
  intros ed'. subst ed'. unfold handleDragEnd.
  destruct (delta event) as [[dx dy]|]; [|done].
  cbn [setDraggedNodeId setCanvas setNodes canvas nodes connections
       draggedNodeId].
  set (g := fun node : FlowchartNode => if bool_decide _ then _ else node).
  split; [|split; [done|split; [|split; [|done]]]].
  - apply calculateNodeAmounts_sameRule, map_sameRule.
    intros node. unfold g. case_bool_decide; [|apply sameRule_refl].
    by repeat split.
  - apply map_keeps_ids. intros node. unfold g. by case_bool_decide.
  - rewrite map_map. apply map_ext. intros node. unfold g.
    by case_bool_decide.
Qed.

(** The child dragged by (30, 40) at zoom 1: it has moved. *)
Example drag_moves :
  map (fun node => (id node, x node, y node))
      (nodes (canvas (handleDragEnd
                        {| active_id := "child"; delta := Some (30, 40) |}
                        (editorOf rootWithChild []))))
  = [("root", 0, 0); ("child", 30, 40)].
Proof. vm_compute. reflexivity. Qed.

(** *** Connecting and disconnecting *)

Lemma NoDup_findNode l node :
  NoDup (map id l) -> In node l -> findNode l (id node) = Some node.
Proof. apply findNode_NoDup. Qed.

(** X13.  A click on a node while a connection is being drawn from
    another node makes that node the parent: the edge is appended, the
    connecting mode ends and only the clicked node is changed.  With
    unique ids, and neither id a name of an [Object.prototype] member, the
    clicked node then resolves to its own rule applied to the amount of
    its new parent when its parent chain ends; when the new link closes a
    cycle it resolves to its rule applied to that amount or to the 0 that
    is handed back where the cycle is cut. *)
Theorem connect_makes_parent ed start nodeId node console0 :
  isConnecting ed = true -> connectionStart ed = Some start ->
  start <> "" -> start <> nodeId ->
  NoDup (map id (nodes (canvas ed))) ->
  In node (nodes (canvas ed)) -> id node = nodeId ->
  inherited nodeId = false -> inherited start = false ->
  let ed' := handleNodeClick nodeId ed in
  let l' := nodes (canvas ed') in
  connections (canvas ed')
  = connections (canvas ed) ++ [connection start nodeId] /\
  isConnecting ed' = false /\ connectionStart ed' = None /\
  findNode l' nodeId = Some (setParentId (Some start) node) /\
  (forall other, In other (nodes (canvas ed)) -> id other <> nodeId ->
                 In other l') /\
  exists m console1,
    calculateNodeAmounts l' console0 = Some (m, console1) /\
    (chainEnds l' (length l') nodeId = true ->
     exists pa, m !! start = Some pa /\ m !! nodeId = Some (share node pa)) /\
    (chainEnds l' (length l') nodeId = false ->
     (exists pa, m !! start = Some pa /\ m !! nodeId = Some (share node pa)) \/
     m !! nodeId = Some (share node 0)).
Proof.
  intros Hconn Hstart Hne Hself Hnodup Hin Hid Hplain Hplain' ed'. subst ed'.
  unfold handleNodeClick. rewrite Hstart, Hconn. cbn [JS.truthy_str].
  rewrite !bool_decide_eq_false_2 by done. cbn [negb andb].
  cbn [setConnecting setCanvas setNodes setConnections canvas nodes
       connections isConnecting connectionStart].
  set (g := fun n : FlowchartNode => if bool_decide _ then _ else n).
  set (l' := map g (nodes (canvas ed))). cbv zeta.
  assert (Hids : map id l' = map id (nodes (canvas ed))).
  { apply map_keeps_ids. intros n. unfold g. by case_bool_decide. }
  assert (Hnodup' : NoDup (map id l')) by (by rewrite Hids).
  assert (Hg : g node = setParentId (Some start) node).
  { unfold g. by rewrite bool_decide_eq_true_2. }
  assert (Hin' : In (setParentId (Some start) node) l').
  { rewrite <- Hg. by apply in_map. }
  assert (Hfind : findNode l' nodeId = Some (setParentId (Some start) node)).
  { rewrite <- Hid. by apply (findNode_NoDup l' (setParentId (Some start) node)). }
  split; [done|]. split; [done|]. split; [done|]. split; [exact Hfind|].
  split.
  { intros other Ho Hoid. apply in_map_iff. exists other. split; [|done].
    unfold g. by rewrite bool_decide_eq_false_2. }
  destruct (calculateNodeAmounts_spec l' console0)
    as (m & console1 & Hrun & Hdom & Hspec).
  destruct (Hspec Hnodup') as (Hfp & _ & Hpz).
  exists m, console1. split; [exact Hrun|].
  destruct (Hdom _ Hin') as [v Hv].
  { left. cbn [setParentId id]. by rewrite Hid. }
  cbn [setParentId id] in Hv. rewrite Hid in Hv.
  assert (Hparent : parentOf (setParentId (Some start) node) = Some start).
  { unfold parentOf. cbn [setParentId parentId JS.truthy_str].
    by rewrite bool_decide_eq_false_2. }
  assert (Hread : forall pa, read m start = Some pa ->
            exists a, m !! start = Some a /\ toNumber pa = a).
  { intros pa Hpa. rewrite read_plain in Hpa by done.
    destruct (m !! start) as [a|]; [|done]. inversion Hpa. by exists a. }
  split.
  - intros Hends.
    destruct (Hfp nodeId (setParentId (Some start) node) start v)
      as (pa & Hpa & ->);
      [exact Hfind|exact Hparent|by eapply chainEnds_not_cyclic
      |set_solver|exact Hv|].
    destruct (Hread pa Hpa) as (a & Ha & Heq). exists a.
    split; [exact Ha|]. rewrite Hv, Heq. reflexivity.
  - intros _.
    destruct (Hpz nodeId (setParentId (Some start) node) start v)
      as [(pa & Hpa & ->)| ->]; [exact Hfind|exact Hparent|set_solver
                                |exact Hv| |].
    + left. destruct (Hread pa Hpa) as (a & Ha & Heq). exists a.
      split; [exact Ha|]. rewrite Hv, Heq. reflexivity.
    + by right.
Qed.

Lemma connect_makes_parent_witness :
  let ed := handleStartConnection "root"
              (editorOf [plain "root" None false true [] [1000];
                         plain "child" None true true [10] [50]] []) in
  let ed' := handleNodeClick "child" ed in
  connections (canvas ed') = [connection "root" "child"] /\
  exists m console1,
    calculateNodeAmounts (nodes (canvas ed')) [] = Some (m, console1) /\
    exists pa, m !! "root" = Some pa /\
               m !! "child"
               = Some (share (plain "child" None true true [10] [50]) pa).
Proof.
  intros ed ed'.
  destruct (connect_makes_parent ed "root" "child"
              (plain "child" None true true [10] [50]) [])
    as (Hconn & _ & _ & _ & _ & m & c & Hrun & Hends & _).
  - reflexivity.
  - reflexivity.
  - discriminate.
  - discriminate.
  - apply (bool_decide_unpack _). vm_compute. exact I.
  - right. left. reflexivity.
  - reflexivity.
  - reflexivity.
  - reflexivity.
  - split; [exact Hconn|]. exists m, c. split; [exact Hrun|].
    apply Hends. vm_compute. reflexivity.
Defined.

(** Connecting the child to the root of 1000 gives the child 150. *)
Example connect_150 :
  (r ← calculateNodeAmounts
         (nodes (canvas (handleNodeClick "child"
            (handleStartConnection "root"
               (editorOf [plain "root" None false true [] [1000];
                          plain "child" None true true [10] [50]] [])))))
         [];
   Some (r.1 !! "root", r.1 !! "child"))
  = Some (Some 1000, Some 150).
Proof. vm_compute. reflexivity. Qed.


(** X14.  Deleting a connection makes its target a root: the connection
    is gone, and (with unique ids, the id of the target not being
    [__proto__]) the target resolves to the amount of a node without a
    parent, whatever its former parent resolves to. *)
Theorem disconnect_makes_root st connectionId c node console0 :
  NoDup (map id (nodes st)) ->
  List.find (fun c => bool_decide (conn_id c = connectionId)) (connections st)
  = Some c ->
  In node (nodes st) -> id node = to c ->
  id node <> "__proto__" ->
  let st' := handleDeleteConnection connectionId st in
  (forall c', In c' (connections st') -> conn_id c' <> connectionId) /\
  findNode (nodes st') (id node) = Some (setParentId None node) /\
  exists m console1,
    calculateNodeAmounts (nodes st') console0 = Some (m, console1) /\
    m !! id node = Some (rootAmount node).
Proof.
  intros Hnodup Hfind Hin Hid Hproto st'. subst st'.
  unfold handleDeleteConnection.
  rewrite Hfind. cbn [nodes connections].
  set (g := fun n : FlowchartNode => if bool_decide _ then _ else n).
  set (l' := map g (nodes st)).
  assert (Hids : map id l' = map id (nodes st)).
  { apply map_keeps_ids. intros n. unfold g. by case_bool_decide. }
  assert (Hnodup' : NoDup (map id l')) by (by rewrite Hids).
  assert (Hg : g node = setParentId None node).
  { unfold g. by rewrite bool_decide_eq_true_2. }
  assert (Hin' : In (setParentId None node) l').
  { rewrite <- Hg. by apply in_map. }
  split.
  { intros c' Hc'. apply filter_In in Hc' as [_ Hc'].
    apply negb_true_iff in Hc'. by apply bool_decide_eq_false in Hc'. }
  split.
  { by apply (findNode_NoDup l' (setParentId None node)). }
  destruct (calculateNodeAmounts_spec l' console0)
    as (m & console1 & Hrun & _ & Hspec).
  destruct (Hspec Hnodup') as (_ & Hroots & _).
  exists m, console1. split; [exact Hrun|].
  by apply (Hroots (setParentId None node)).
Qed.

Lemma disconnect_makes_root_witness :
  let st := {| nodes := rootWithChild;
               connections := [connection "root" "child"];
               selectedNode := None |} in
  let node := plain "child" (Some "root") true true [10] [50] in
  let st' := handleDeleteConnection "conn-root-child" st in
  (forall c', In c' (connections st') -> conn_id c' <> "conn-root-child") /\
  findNode (nodes st') (id node) = Some (setParentId None node) /\
  exists m console1,
    calculateNodeAmounts (nodes st') [] = Some (m, console1) /\
    m !! id node = Some (rootAmount node).
Proof.
  intros st node.
  refine (disconnect_makes_root st "conn-root-child"
            (connection "root" "child") node [] _ eq_refl _ eq_refl _).
  - apply (bool_decide_unpack _). vm_compute. exact I.
  - right. left. reflexivity.
  - discriminate.
Defined.

(** The disconnected child of the example resolves to its fixed 50. *)
Example disconnect_50 :
  (r ← calculateNodeAmounts
         (nodes (handleDeleteConnection "conn-root-child"
                   {| nodes := rootWithChild;
                      connections := [connection "root" "child"];
                      selectedNode := None |}))
         [];
   Some (r.1 !! "child"))
  = Some (Some 50).
Proof. vm_compute. reflexivity. Qed.

(** *** Deleting a parent *)

Lemma filter_keeps_NoDup (f : FlowchartNode -> bool) l :
  NoDup (map id l) -> NoDup (map id (List.filter f l)).
Proof.
  induction l as [|a l IH]; cbn [map List.filter]; [done|].
  intros Hnd. apply NoDup_cons in Hnd as [Ha Hnd].
  destruct (f a); [|by apply IH]. cbn [map]. apply NoDup_cons. split.
  - intros Hin. apply Ha. apply list_elem_of_In in Hin.
    apply in_map_iff in Hin as (b & Hb & Hin). apply filter_In in Hin as [Hin _].
    rewrite <- Hb. by apply list_elem_of_In, in_map.
  - by apply IH.
Qed.

Lemma findNode_deleted nodeId l :
  findNode (List.filter (fun n => negb (bool_decide (id n = nodeId))) l)
           nodeId
  = None.
Proof.
  unfold findNode. induction l as [|a l IH]; cbn [List.filter]; [done|].
  case_bool_decide as Ha; cbn [negb]; [exact IH|].
  cbn [find]. by rewrite bool_decide_eq_false_2.
Qed.

(** X15.  After a node is deleted, every remaining node that names it as
    its parent still does, and (with unique ids, neither id a name of an
    [Object.prototype] member) resolves to its own rule applied to a
    parent amount of 0. *)
Theorem deleted_parent_counts_as_zero st nodeId child console0 :
  NoDup (map id (nodes st)) ->
  In child (nodes st) -> parentOf child = Some nodeId ->
  id child <> nodeId ->
  inherited (id child) = false -> inherited nodeId = false ->
  let st' := handleDeleteNode nodeId st in
  In child (nodes st') /\ findNode (nodes st') nodeId = None /\
  exists m console1,
    calculateNodeAmounts (nodes st') console0 = Some (m, console1) /\
    m !! id child = Some (share child 0).
Proof.
  intros Hnodup Hin Hp Hid Hplain Hplain' st'. subst st'.
  unfold handleDeleteNode. cbn [nodes].
  set (l' := List.filter _ (nodes st)).
  assert (Hin' : In child l').
  { apply filter_In. split; [done|]. by rewrite bool_decide_eq_false_2. }
  assert (Hnodup' : NoDup (map id l')) by (by apply filter_keeps_NoDup).
  assert (Hgone : findNode l' nodeId = None) by apply findNode_deleted.
  split; [exact Hin'|]. split; [exact Hgone|].
  destruct (calculateNodeAmounts_spec l' console0)
    as (m & console1 & Hrun & Hdom & Hspec).
  destruct (Hspec Hnodup') as (_ & _ & Hpz).
  pose proof (calculateNodeAmounts_missing_zero _ _ _ _ Hrun) as Hzero.
  exists m, console1. split; [exact Hrun|].
  destruct (Hdom _ Hin') as [v Hv]; [by left|]. rewrite Hv. f_equal.
  destruct (Hpz (id child) child nodeId v)
    as [(pa & Hpa & ->)| ->]; [by apply findNode_NoDup|exact Hp|set_solver
                              |exact Hv| |done].
  rewrite read_plain in Hpa by done.
  destruct (m !! nodeId) as [a|] eqn:Ha; [|done]. inversion Hpa; subst pa.
  cbn [toNumber]. by rewrite (Hzero nodeId a Hgone Ha).
Qed.

Lemma deleted_parent_counts_as_zero_witness :
  let st := {| nodes := rootWithChild;
               connections := [connection "root" "child"];
               selectedNode := None |} in
  let child := plain "child" (Some "root") true true [10] [50] in
  let st' := handleDeleteNode "root" st in
  In child (nodes st') /\ findNode (nodes st') "root" = None /\
  exists m console1,
    calculateNodeAmounts (nodes st') [] = Some (m, console1) /\
    m !! id child = Some (share child 0).
Proof.
  intros st child.
  refine (deleted_parent_counts_as_zero st "root" child [] _ _ eq_refl _
            eq_refl eq_refl).
  - apply (bool_decide_unpack _). vm_compute. exact I.
  - right. left. reflexivity.
  - discriminate.
Defined.


(** *** Duplicating and creating nodes *)

(** The ids the canvas gives to new nodes are no names of
    [Object.prototype] members. *)
Lemma inherited_new now : inherited ("node-" +:+ now) = false.
Proof.
  unfold inherited. apply bool_decide_eq_false_2. unfold prototypeNames.
  intros H. repeat (apply elem_of_cons in H as [H|H]; [discriminate H|]).
  by apply elem_of_nil in H.
Qed.

(** X16.  A duplicate made under an id that no node bears and no node
    names as its parent is appended as a node without a parent: it
    resolves to the amount its original would have as a root, every
    other entry of the amount map and the warnings are as before, and no
    connection is added. *)
Theorem duplicate_is_detached now nodeId ed node console0 m console1 :
  findNode (nodes (canvas ed)) nodeId = Some node ->
  "node-" +:+ now ∉ map id (nodes (canvas ed)) ->
  (forall other, In other (nodes (canvas ed)) ->
                 parentOf other <> Some ("node-" +:+ now)) ->
  calculateNodeAmounts (nodes (canvas ed)) console0 = Some (m, console1) ->
  let ed' := handleDuplicateNode now nodeId ed in
  nodes (canvas ed') = nodes (canvas ed) ++ [duplicateOf now node] /\
  connections (canvas ed') = connections (canvas ed) /\
  m !! ("node-" +:+ now) = None /\
  calculateNodeAmounts (nodes (canvas ed')) console0
  = Some (<["node-" +:+ now := rootAmount node]> m, console1).
Proof.
  intros Hfind Hfresh Hunref Hrun ed'. subst ed'.
  unfold handleDuplicateNode. rewrite Hfind.
  cbn [setCanvas setNodes canvas nodes connections].
  split; [done|]. split; [done|].
  destruct (calculateNodeAmounts_append (nodes (canvas ed))
              (duplicateOf now node) Hfresh Hunref console0 m console1
              (inherited_new now) Hrun)
    as (v & Hrun' & Hnone & Hv); [done|].
  cbn in Hv. subst v. by split.
Qed.

Lemma duplicate_is_detached_witness :
  let ed := editorOf rootWithChild [connection "root" "child"] in
  let node := plain "child" (Some "root") true true [10] [50] in
  let m : gmap string JS.number := <["child" := 150]> (<["root" := 1000]> ∅) in
  let ed' := handleDuplicateNode "1700000000000" "child" ed in
  nodes (canvas ed') = nodes (canvas ed) ++ [duplicateOf "1700000000000" node] /\
  connections (canvas ed') = connections (canvas ed) /\
  m !! ("node-" +:+ "1700000000000") = None /\
  calculateNodeAmounts (nodes (canvas ed')) []
  = Some (<["node-" +:+ "1700000000000" := rootAmount node]> m, []).
Proof.
  intros ed node m.
  refine (duplicate_is_detached "1700000000000" "child" ed node [] m []
            eq_refl _ _ _).
  - apply (bool_decide_unpack _). vm_compute. exact I.
  - intros other [<-|[<-|[]]]; discriminate.
  - vm_compute. reflexivity.
Defined.

(** X17.  A node created from the form under an id that no node bears
    and no node names as its parent, with no parent or with an existing
    node as its parent whose id is not a name of an [Object.prototype]
    member, is appended; it resolves to its root amount or to its share
    of the amount its parent had already, and every other entry of the
    amount map and the warnings are as before. *)
Theorem created_node_keeps_amounts now r1 r2 ed console0 m console1 :
  let f := formData ed in
  let node := newNode f now r1 r2 in
  JS.truthy_str (Some (trim (f_label f))) = true ->
  JS.truthy_str (editingNodeId ed) = false ->
  id node ∉ map id (nodes (canvas ed)) ->
  (forall other, In other (nodes (canvas ed)) ->
                 parentOf other <> Some (id node)) ->
  (forall p, parentOf node = Some p ->
             p ∈ map id (nodes (canvas ed)) /\ inherited p = false) ->
  calculateNodeAmounts (nodes (canvas ed)) console0 = Some (m, console1) ->
  let ed' := handleSaveNode now r1 r2 ed in
  nodes (canvas ed') = nodes (canvas ed) ++ [node] /\
  isNodeModalOpen ed' = false /\ editingNodeId ed' = None /\
  m !! id node = None /\
  exists v,
    calculateNodeAmounts (nodes (canvas ed')) console0
    = Some (<[id node := v]> m, console1) /\
    match parentOf node with
    | None => v = rootAmount node
    | Some p => exists pa, m !! p = Some pa /\ v = share node pa
    end.
Proof.
  intros f node Hlabel Hnew Hfresh Hunref Hparent Hrun ed'. subst ed'.
  unfold handleSaveNode. fold f. rewrite Hlabel. cbn [negb].
  assert (Hc : match editingNodeId ed with
               | Some editing =>
                   if JS.truthy_str (Some editing)
                   then saveEdited f editing (canvas ed)
                   else saveCreated f now r1 r2 (canvas ed)
               | None => saveCreated f now r1 r2 (canvas ed)
               end = saveCreated f now r1 r2 (canvas ed)).
  { destruct (editingNodeId ed) as [editing|]; [|done]. by rewrite Hnew. }
  rewrite Hc. cbn [closeNodeModal setCanvas canvas isNodeModalOpen
                   editingNodeId].
  unfold saveCreated. fold node. cbn [setNodes nodes].
  split; [done|]. split; [done|]. split; [done|].
  destruct (calculateNodeAmounts_append (nodes (canvas ed)) node
              Hfresh Hunref console0 m console1 (inherited_new now) Hrun)
    as (v & Hrun' & Hnone & Hv).
  { intros p Hp. by apply Hparent. }
  split; [exact Hnone|]. exists v. split; [exact Hrun'|].
  destruct (parentOf node) as [p|]; [|exact Hv].
  destruct Hv as (pa & Hpa & ->).
  rewrite read_plain in Hpa by (by apply Hparent).
  destruct (m !! p) as [a|]; [|done]. inversion Hpa. by exists a.
Qed.

Lemma created_node_keeps_amounts_witness :
  let ed :=
    {| canvas := {| nodes := rootWithChild; connections := [];
                    selectedNode := None |};
       draggedNodeId := None; isConnecting := false; connectionStart := None;
       isNodeModalOpen := true; editingNodeId := None; zoom := 1;
       formData := {| f_label := "Bonus"; f_amountType := AT_percent;
                      f_amountValue := 0; f_usePercent := true;
                      f_useFixed := false; f_percentValues := [20];
                      f_fixedValues := []; f_formula := "";
                      f_parentId := Some "child" |} |} in
  let m : gmap string JS.number := <["child" := 150]> (<["root" := 1000]> ∅) in
  let f := formData ed in
  let node := newNode f "1700000000000" 0.5 0.5 in
  let ed' := handleSaveNode "1700000000000" 0.5 0.5 ed in
  nodes (canvas ed') = nodes (canvas ed) ++ [node] /\
  isNodeModalOpen ed' = false /\ editingNodeId ed' = None /\
  m !! id node = None /\
  exists v,
    calculateNodeAmounts (nodes (canvas ed')) []
    = Some (<[id node := v]> m, []) /\
    match parentOf node with
    | None => v = rootAmount node
    | Some p => exists pa, m !! p = Some pa /\ v = share node pa
    end.
Proof.
  intros ed m.
  refine (created_node_keeps_amounts "1700000000000" 0.5 0.5 ed [] m []
            eq_refl eq_refl _ _ _ _).
  - apply (bool_decide_unpack _). vm_compute. exact I.
  - intros other [<-|[<-|[]]]; discriminate.
  - intros p [= <-]. split; [|reflexivity].
    apply (bool_decide_unpack _). vm_compute. exact I.
  - vm_compute. reflexivity.
Defined.

(** The node created in that example takes 20% of the 150 of its
    parent. *)
Example created_30 :
  share (newNode {| f_label := "Bonus"; f_amountType := AT_percent;
                    f_amountValue := 0; f_usePercent := true;
                    f_useFixed := false; f_percentValues := [20];
                    f_fixedValues := []; f_formula := "";
                    f_parentId := Some "child" |}
                 "1700000000000" 0.5 0.5) 150
  = 30.
Proof. vm_compute. reflexivity. Qed.


(** *** Saving an edit *)

Lemma filter_app_to (f : FlowchartConnection -> bool) l1 l2 :
  List.filter f (l1 ++ l2) = List.filter f l1 ++ List.filter f l2.
Proof. apply List.filter_app. Qed.

Lemma filter_none (f : FlowchartConnection -> bool) l :
  List.filter f (List.filter (fun c => negb (f c)) l) = [].
Proof.
  induction l as [|a l IH]; cbn [List.filter]; [done|].
  destruct (f a) eqn:Ha; cbn [negb List.filter]; [done|]. by rewrite Ha.
Qed.

Lemma filter_twice (f : FlowchartConnection -> bool) l :
  List.filter f (List.filter f l) = List.filter f l.
Proof.
  induction l as [|a l IH]; cbn [List.filter]; [done|].
  destruct (f a) eqn:Ha; cbn [List.filter]; [|done]. by rewrite Ha, IH.
Qed.

Lemma connectionExists_filtered parentId editing l :
  connectionExists parentId editing
    (List.filter (fun c => negb (bool_decide (to c = editing))) l) = false.
Proof.
  unfold connectionExists. induction l as [|a l IH]; cbn [List.filter]; [done|].
  case_bool_decide as Ha; cbn [negb]; [exact IH|].
  cbn [existsb]. rewrite (bool_decide_eq_false_2 _ Ha), andb_false_r.
  exact IH.
Qed.

(** X18.  Saving an edit leaves the connections consistent with the
    parent of the edited node: afterwards the connections into the
    edited node are exactly the one from the parent chosen in the form,
    or none when no parent is chosen; connections into other nodes, and
    the ids of all nodes, are as before; and the edited node names the
    chosen parent. *)
Theorem saved_edit_rewires now r1 r2 ed editing :
  JS.truthy_str (Some (trim (f_label (formData ed)))) = true ->
  editingNodeId ed = Some editing -> editing <> "" ->
  let f := formData ed in
  let ed' := handleSaveNode now r1 r2 ed in
  List.filter (fun c => bool_decide (to c = editing))
              (connections (canvas ed'))
  = match f_parentId f with
    | Some p => if JS.truthy_str (Some p) then [connection p editing] else []
    | None => []
    end /\
  List.filter (fun c => negb (bool_decide (to c = editing)))
              (connections (canvas ed'))
  = List.filter (fun c => negb (bool_decide (to c = editing)))
                (connections (canvas ed)) /\
  map id (nodes (canvas ed')) = map id (nodes (canvas ed)) /\
  (forall node, In node (nodes (canvas ed')) -> id node = editing ->
                parentId node = f_parentId f) /\
  (forall node, In node (nodes (canvas ed)) -> id node <> editing ->
                In node (nodes (canvas ed'))).
Proof.
  intros Hlabel Hediting Hne f ed'. subst ed'.
  unfold handleSaveNode. cbv zeta. rewrite Hlabel, Hediting. fold f.
  cbn [negb].
  assert (JS.truthy_str (Some editing) = true) as ->.
  { cbn [JS.truthy_str]. by rewrite (bool_decide_eq_false_2 _ Hne). }
  cbn [closeNodeModal setCanvas canvas]. unfold saveEdited.
  cbn [setNodes setConnections nodes connections].
  set (filtered := List.filter
                     (fun c => negb (bool_decide (to c = editing)))
                     (connections (canvas ed))).
  assert (Hex : forall p, connectionExists p editing filtered = false).
  { intros p. apply connectionExists_filtered. }
  assert (Hnone : List.filter (fun c => bool_decide (to c = editing)) filtered
                  = [])
    by apply (filter_none (fun c => bool_decide (to c = editing))).
  assert (Hsame : List.filter (fun c => negb (bool_decide (to c = editing)))
                              filtered = filtered)
    by apply (filter_twice (fun c => negb (bool_decide (to c = editing)))).
  split; [|split; [|split; [|split]]].
  - destruct (f_parentId f) as [p|]; [|exact Hnone].
    destruct (JS.truthy_str (Some p)); [|exact Hnone].
    rewrite Hex. cbn [negb]. rewrite filter_app_to, Hnone.
    cbn [List.filter app connection to].
    by rewrite bool_decide_eq_true_2.
  - destruct (f_parentId f) as [p|]; [|exact Hsame].
    destruct (JS.truthy_str (Some p)); [|exact Hsame].
    rewrite Hex. cbn [negb]. rewrite filter_app_to, Hsame.
    cbn [List.filter connection to].
    rewrite bool_decide_eq_true_2 by done. cbn [negb]. by rewrite app_nil_r.
  - apply map_keeps_ids. intros node. by case_bool_decide.
  - intros node Hin Hid. apply in_map_iff in Hin as (old & <- & _).
    case_bool_decide as Hold; [done|]. exfalso. exact (Hold Hid).
  - intros node Hin Hid. apply in_map_iff. exists node. split; [|done].
    by rewrite bool_decide_eq_false_2.
Qed.


(** The child of the example edited to hang under a node [other]. *)
Definition editingChild : Editor :=
  {| canvas := {| nodes := rootWithChild ++ [plain "other" None false true [] [5]];
                  connections := [connection "root" "child";
                                  connection "stale" "child";
                                  connection "root" "other"];
                  selectedNode := Some "child" |};
     draggedNodeId := None; isConnecting := false; connectionStart := None;
     isNodeModalOpen := true; editingNodeId := Some "child"; zoom := 1;
     formData := {| f_label := "Child"; f_amountType := AT_percent;
                    f_amountValue := 0; f_usePercent := true;
                    f_useFixed := true; f_percentValues := [10];
                    f_fixedValues := [50]; f_formula := "";
                    f_parentId := Some "other" |} |}.

Lemma saved_edit_rewires_witness :
  let f := formData editingChild in
  let ed' := handleSaveNode "1700000000000" 0.5 0.5 editingChild in
  List.filter (fun c => bool_decide (to c = "child"))
              (connections (canvas ed'))
  = match f_parentId f with
    | Some p => if JS.truthy_str (Some p) then [connection p "child"] else []
    | None => []
    end /\
  List.filter (fun c => negb (bool_decide (to c = "child")))
              (connections (canvas ed'))
  = List.filter (fun c => negb (bool_decide (to c = "child")))
                (connections (canvas editingChild)) /\
  map id (nodes (canvas ed')) = map id (nodes (canvas editingChild)) /\
  (forall node, In node (nodes (canvas ed')) -> id node = "child" ->
                parentId node = f_parentId f) /\
  (forall node, In node (nodes (canvas editingChild)) -> id node <> "child" ->
                In node (nodes (canvas ed'))).
Proof.
  refine (saved_edit_rewires "1700000000000" 0.5 0.5 editingChild "child"
            eq_refl eq_refl _).
  discriminate.
Defined.

(** In that example both connections into the child, the current and a
    stale one, give way to the one from [other]. *)
Example saved_edit_connections :
  connections (canvas (handleSaveNode "1700000000000" 0.5 0.5 editingChild))
  = [connection "root" "other"; connection "other" "child"].
Proof. vm_compute. reflexivity. Qed.

(** *** Opening the dialog and saving it untouched *)

(** A node that keeps no single legacy value without the list that
    replaced it. *)
Definition noLegacy (node : FlowchartNode) : Prop :=
  (percentValues node = None -> percentValue node = None) /\
  (fixedValues node = None -> fixedValue node = None).

Lemma nonempty_valuesIf vs :
  nonempty (valuesIf true vs) = nonempty (Some vs).
Proof. by destruct vs. Qed.

Lemma untouched_sameRule node :
  noLegacy node -> sameRule (withForm (formOf node) node) node.
Proof.
  intros [Hpl Hfl].
  assert (Hpt : percentTotal (withForm (formOf node) node)
                = percentTotal node).
  { unfold percentTotal. cbn [withForm formOf usePercent percentValues
                              percentValue f_usePercent f_percentValues].
    destruct (usePercent node); [|done]. rewrite nonempty_valuesIf.
    destruct (percentValues node) as [vs|]; [done|].
    by rewrite (Hpl eq_refl). }
  assert (Hft : fixedTotal (withForm (formOf node) node) = fixedTotal node).
  { unfold fixedTotal. cbn [withForm formOf useFixed fixedValues
                            fixedValue f_useFixed f_fixedValues].
    destruct (useFixed node); [|done]. rewrite nonempty_valuesIf.
    destruct (fixedValues node) as [vs|]; [done|].
    by rewrite (Hfl eq_refl). }
  assert (Hroot : forall n, rootAmount n
            = if useFixed n then
                match nonempty (fixedValues n), fixedValue n with
                | None, None =>
                    match amountType n with
                    | AT_fixed => amountValue n
                    | _ => JS.or_else (amountValue n) 0
                    end
                | _, _ => fixedTotal n
                end
              else match amountType n with
                   | AT_fixed => amountValue n
                   | _ => JS.or_else (amountValue n) 0
                   end).
  { intros n. unfold rootAmount, fixedTotal. destruct (useFixed n); [|done].
    by destruct (nonempty (fixedValues n)), (fixedValue n). }
  assert (Hrootc : forall n, rootAmount_compute n
            = if useFixed n then
                match nonempty (fixedValues n), fixedValue n with
                | None, None => JS.or_else (amountValue n) 0
                | _, _ => fixedTotal n
                end
              else JS.or_else (amountValue n) 0).
  { intros n. unfold rootAmount_compute, fixedTotal.
    destruct (useFixed n); [|done].
    by destruct (nonempty (fixedValues n)), (fixedValue n). }
  assert (Hne : useFixed node = true ->
            nonempty (fixedValues (withForm (formOf node) node))
            = nonempty (fixedValues node)).
  { intros Hu. cbn [withForm formOf fixedValues f_useFixed f_fixedValues].
    rewrite Hu, nonempty_valuesIf.
    destruct (fixedValues node) as [vs|]; [done|].
    by rewrite (Hfl eq_refl). }
  split; [done|]. split; [done|]. split; [|split].
  - rewrite !Hroot, Hft.
    cbn [withForm formOf useFixed f_useFixed fixedValue amountType
         amountValue f_amountType f_amountValue].
    destruct (useFixed node) eqn:Hu; [|done]. by rewrite (Hne eq_refl).
  - rewrite !Hrootc, Hft.
    cbn [withForm formOf useFixed f_useFixed fixedValue amountType
         amountValue f_amountType f_amountValue].
    destruct (useFixed node) eqn:Hu; [|done]. by rewrite (Hne eq_refl).
  - intros pa. unfold share, calculated. rewrite Hpt, Hft.
    cbn [withForm formOf usePercent useFixed f_usePercent f_useFixed
         amountType amountValue f_amountType f_amountValue formula
         f_formula].
    do 3 f_equal. destruct (amountType node); try done.
    destruct (formula node) as [s|]; [|done].
    destruct (JS.truthy_str (Some s)) eqn:Hs; cbv iota; [by rewrite Hs|done].
Qed.

(** X19.  Opening the dialog of a node and saving it untouched changes no
    amount: with unique ids, a label that is not blank and no legacy
    single value on the node, the engine returns the same amounts and
    warnings after the save as before it, and the ids and parents of all
    nodes are as they were. *)
Theorem untouched_edit_keeps_amounts now r1 r2 ed nodeId node console0 :
  NoDup (map id (nodes (canvas ed))) ->
  findNode (nodes (canvas ed)) nodeId = Some node -> nodeId <> "" ->
  JS.truthy_str (Some (trim (label node))) = true ->
  noLegacy node ->
  let ed' := handleSaveNode now r1 r2 (handleEditNode nodeId ed) in
  calculateNodeAmounts (nodes (canvas ed')) console0
  = calculateNodeAmounts (nodes (canvas ed)) console0 /\
  map id (nodes (canvas ed')) = map id (nodes (canvas ed)) /\
  map parentId (nodes (canvas ed')) = map parentId (nodes (canvas ed)) /\
  isNodeModalOpen ed' = false.
Proof.
  intros Hnodup Hfind Hne Hlabel Hlegacy ed'. subst ed'.
  unfold handleEditNode. rewrite Hfind.
  unfold handleSaveNode. cbv zeta.
  cbn [openNodeModal formData editingNodeId canvas].
  change (f_label (formOf node)) with (label node).
  rewrite Hlabel. cbn [negb].
  assert (JS.truthy_str (Some nodeId) = true) as ->.
  { cbn [JS.truthy_str]. by rewrite (bool_decide_eq_false_2 _ Hne). }
  cbn [closeNodeModal setCanvas canvas isNodeModalOpen]. unfold saveEdited.
  cbn [setNodes setConnections nodes].
  set (g := fun n : FlowchartNode => if bool_decide _ then _ else n).
  assert (Hg : forall n, In n (nodes (canvas ed)) -> sameRule (g n) n /\
                         parentId (g n) = parentId n).
  { intros n Hin. unfold g. case_bool_decide as Hid; [|by split; [apply sameRule_refl|]].
    assert (n = node) as ->.
    { pose proof (findNode_NoDup _ _ Hnodup Hin) as Hn.
      rewrite Hid in Hn. congruence. }
    split; [by apply untouched_sameRule|done]. }
  assert (Hall : Forall2 sameRule (map g (nodes (canvas ed)))
                         (nodes (canvas ed)) /\
                 map parentId (map g (nodes (canvas ed)))
                 = map parentId (nodes (canvas ed))).
  { clear Hfind Hnodup. induction (nodes (canvas ed)) as [|a l IH];
      cbn [map]; [by split|].
    destruct (Hg a (or_introl eq_refl)) as [Ha Hpa].
    destruct IH as [IH1 IH2].
    { intros n Hin. apply Hg. by right. }
    split; [by constructor|]. by rewrite Hpa, IH2. }
  destruct Hall as [Hrules Hparents].
  split; [by apply calculateNodeAmounts_sameRule|].
  split; [|split; [exact Hparents|done]].
  apply map_keeps_ids. intros n. unfold g. by case_bool_decide.
Qed.

Lemma untouched_edit_keeps_amounts_witness :
  let ed := editorOf rootWithChild [connection "root" "child"] in
  let ed' := handleSaveNode "1700000000000" 0.5 0.5
               (handleEditNode "child" ed) in
  calculateNodeAmounts (nodes (canvas ed')) []
  = calculateNodeAmounts (nodes (canvas ed)) [] /\
  map id (nodes (canvas ed')) = map id (nodes (canvas ed)) /\
  map parentId (nodes (canvas ed')) = map parentId (nodes (canvas ed)) /\
  isNodeModalOpen ed' = false.
Proof.
  intros ed.
  refine (untouched_edit_keeps_amounts "1700000000000" 0.5 0.5 ed "child"
            (plain "child" (Some "root") true true [10] [50]) []
            _ eq_refl _ eq_refl _).
  - apply (bool_decide_unpack _). vm_compute. exact I.
  - discriminate.
  - split; discriminate.
Defined.

(** *** Labels of white space *)

(** A text of white space only: any number of the characters that
    [trim] strips, one after the other. *)
Inductive Blank : string -> Prop :=
| Blank_nil : Blank ""
| Blank_cons w s : In w whiteSpace -> Blank s -> Blank (bytes w +:+ s).

(** The white space characters are told apart by their first bytes. *)
Lemma leadingSpace_head w s : In w whiteSpace -> leadingSpace (bytes w +:+ s) = Some s.
Proof.
  unfold whiteSpace. cbn [In]. intros H.
  repeat (destruct H as [<-|H]; [reflexivity|]). destruct H.
Qed.

Lemma length_append a b :
  String.length (a +:+ b) = (String.length a + String.length b)%nat.
Proof.
  induction a as [|c a IH]; simpl; [reflexivity|]. rewrite IH. reflexivity.
Qed.

Lemma bytes_length w s :
  In w whiteSpace -> (String.length s < String.length (bytes w +:+ s))%nat.
Proof.
  intros Hw.
  assert (Hall : forallb (fun w => (0 <? String.length (bytes w))%nat) whiteSpace
                 = true) by (vm_compute; reflexivity).
  rewrite forallb_forall in Hall. specialize (Hall w Hw).
  apply Nat.ltb_lt in Hall. rewrite length_append. lia.
Qed.

Lemma trimStartLoop_blank s :
  Blank s ->
  forall fuel, (String.length s <= fuel)%nat -> trimStartLoop fuel s = "".
Proof.
  induction 1 as [|w s Hw Hs IH]; intros fuel Hfuel.
  - by destruct fuel.
  - pose proof (bytes_length w s Hw).
    destruct fuel as [|fuel]; [lia|]. cbn [trimStartLoop].
    rewrite (leadingSpace_head w s Hw). apply IH. lia.
Qed.

Lemma trim_blank s : Blank s -> trim s = "".
Proof.
  intros H. unfold trim, trimStart.
  by rewrite (trimStartLoop_blank s H (String.length s)).
Qed.

(** X20.  Saving a form whose label holds white space only, or nothing,
    changes nothing: no node is created or updated and the dialog stays
    open, whatever else the form holds. *)
Theorem blank_label_is_not_saved now r1 r2 ed :
  Blank (f_label (formData ed)) ->
  handleSaveNode now r1 r2 ed = ed.
Proof.
  intros Hblank. unfold handleSaveNode. cbv zeta.
  by rewrite (trim_blank _ Hblank).
Qed.

(** A form whose label is a space, an em space (U+2003) and a tab. *)
Lemma blank_label_is_not_saved_witness :
  let ed :=
    {| canvas := {| nodes := rootWithChild; connections := [];
                    selectedNode := None |};
       draggedNodeId := None; isConnecting := false; connectionStart := None;
       isNodeModalOpen := true; editingNodeId := None; zoom := 1;
       formData := {| f_label := bytes [32; 226; 128; 131; 9]%nat;
                      f_amountType := AT_fixed;
                      f_amountValue := 10; f_usePercent := false;
                      f_useFixed := false; f_percentValues := [];
                      f_fixedValues := []; f_formula := "";
                      f_parentId := None |} |} in
  handleSaveNode "1700000000000" 0.5 0.5 ed = ed.
Proof.
  intros ed.
  apply (blank_label_is_not_saved "1700000000000" 0.5 0.5 ed).
  apply (Blank_cons [32]%nat); [vm_compute; tauto|].
  apply (Blank_cons [226; 128; 131]%nat); [vm_compute; tauto|].
  apply (Blank_cons [9]%nat); [vm_compute; tauto|].
  apply Blank_nil.
Defined.

(** White space around a label is no obstacle: the node is saved. *)
Example padded_label_is_saved :
  let f := {| f_label := " A" +:+ bytes [226; 128; 131]%nat;
              f_amountType := AT_fixed;
              f_amountValue := 10; f_usePercent := false;
              f_useFixed := false; f_percentValues := [];
              f_fixedValues := []; f_formula := "";
              f_parentId := None |} in
  trim (f_label f) = "A" /\
  length (nodes (canvas (handleSaveNode "1700000000000" 0.5 0.5
                           (openNodeModal None f (editorOf [] [])))))
  = 1%nat.
Proof. split; vm_compute; reflexivity. Qed.

(** *** Warnings and fixed amounts *)

(** X21.  When every node's parent chain ends (at a node without a
    parent or at an id that is not on the canvas), the engine logs no
    warning: the console after the run is the console before it. *)
Theorem no_cycle_no_warning nodeList console0 :
  chainsEnd nodeList = true ->
  exists m, calculateNodeAmounts nodeList console0 = Some (m, console0).
Proof.
  intros Hends. apply calculateNodeAmounts_quiet.
  by apply chainsEnd_not_cyclic.
Qed.

Lemma no_cycle_no_warning_witness :
  exists m, calculateNodeAmounts rootWithChild ["earlier"]
            = Some (m, ["earlier"]).
Proof. exact (no_cycle_no_warning rootWithChild ["earlier"] eq_refl). Defined.

(** Two nodes that name each other do get a warning. *)
Example cycle_warns :
  (r ← calculateNodeAmounts
         [plain "a" (Some "b") true true [10] [50];
          plain "b" (Some "a") true true [10] [50]] [];
   Some (r.2))
  = Some ["Circular reference detected for node: a"].
Proof. vm_compute. reflexivity. Qed.

Lemma fixed_only_share node parentAmount :
  useFixed node = true -> usePercent node = false ->
  JS.gt0 (fixedTotal node) = true ->
  share node parentAmount = JS.round2 (fixedTotal node).
Proof.
  intros Hf Hp Hgt. unfold share, calculated. by rewrite Hf, Hp, Hgt.
Qed.

Lemma fixed_only_root node :
  useFixed node = true -> JS.gt0 (fixedTotal node) = true ->
  rootAmount node = fixedTotal node.
Proof.
  unfold rootAmount, fixedTotal. intros -> Hgt.
  destruct (nonempty (fixedValues node)); [done|].
  destruct (fixedValue node); [done|]. done.
Qed.

(** X22.  A node that uses its fixed values only, with a total above 0,
    and whose id is not a name of an [Object.prototype] member, resolves
    to that total whatever its parent resolves to, in a cycle or out of
    it: rounded to cents when it has a parent, as it is when it has
    none. *)
Theorem fixed_only_amount nodeList node console0 :
  NoDup (map id nodeList) -> In node nodeList ->
  inherited (id node) = false ->
  useFixed node = true -> usePercent node = false ->
  JS.gt0 (fixedTotal node) = true ->
  exists m console1,
    calculateNodeAmounts nodeList console0 = Some (m, console1) /\
    m !! id node
    = Some (match parentOf node with
            | Some _ => JS.round2 (fixedTotal node)
            | None => fixedTotal node
            end).
Proof.
  intros Hnodup Hin Hplain Hf Hp Hgt.
  destruct (calculateNodeAmounts_spec nodeList console0)
    as (m & console1 & Hrun & Hdom & Hspec).
  destruct (Hspec Hnodup) as (_ & Hroots & Hpz).
  exists m, console1. split; [exact Hrun|].
  destruct (parentOf node) as [p|] eqn:Hparent.
  - destruct (Hdom _ Hin) as [v Hv]; [by left|]. rewrite Hv. f_equal.
    destruct (Hpz (id node) node p v)
      as [(pa & _ & ->)| ->]; [by apply findNode_NoDup|exact Hparent
                              |set_solver|exact Hv| |];
      by apply fixed_only_share.
  - rewrite (Hroots node Hin Hparent) by by apply inherited_proto.
    f_equal. by apply fixed_only_root.
Qed.

Lemma fixed_only_amount_witness :
  let node := plain "b" (Some "a") false true [] [75.129] in
  exists m console1,
    calculateNodeAmounts [plain "a" (Some "b") true true [10] [50]; node] []
    = Some (m, console1) /\
    m !! id node
    = Some (match parentOf node with
            | Some _ => JS.round2 (fixedTotal node)
            | None => fixedTotal node
            end).
Proof.
  intros node.
  refine (fixed_only_amount
            [plain "a" (Some "b") true true [10] [50]; node] node []
            _ _ eq_refl eq_refl eq_refl eq_refl).
  - apply (bool_decide_unpack _). vm_compute. exact I.
  - right. left. reflexivity.
Defined.

End CanvasEditingTheorems.

(* ===================================================================== *)
(** ** The free-form engine: the order of the nodes *)
(* ===================================================================== *)

Module CanvasOrder.
Import FlowchartCanvas CanvasFacts CanvasFrame.

(** *** The ids that get an entry *)

(** The ids of the nodes and the ids the nodes name as their parents. *)
Definition mentioned (l : list FlowchartNode) (k : string) : Prop :=
  (exists node, In node l /\ id node = k) \/
  (exists node, In node l /\ parentOf node = Some k).

Lemma rtc_par_mentioned l a k :
  rtc (par l) a k -> mentioned l a -> mentioned l k.
Proof.
  induction 1 as [|a b k Hab _ IH]; [done|].
  intros _. apply IH. destruct Hab as (node & Hf & Hp).
  right. exists node. split; [by eapply findNode_In|done].
Qed.

Definition only_mentioned (l : list FlowchartNode)
    (m : gmap string JS.number) : Prop :=
  forall k, is_Some (m !! k) -> mentioned l k.

Lemma computeEach_only_mentioned l nodes :
  (forall node, In node nodes -> In node l) ->
  forall w w1, computeEach l nodes w = Some (tt, w1) ->
  only_mentioned l (amounts w) -> only_mentioned l (amounts w1).
Proof.
  induction nodes as [|a nodes IH]; intros Hsub w w1 Hrun Hw.
  - by inversion Hrun; subst.
  - unfold computeEach in Hrun. cbn [forEach] in Hrun.
    apply bind_Some in Hrun as ([] & w2 & Ha & Hrun).
    apply bind_Some in Ha as (v & w3 & Ha & Hr). inversion Hr; subst w3.
    apply compute_Computes in Ha; [|apply plain_path_empty].
    eapply IH; [|exact Hrun|].
    + intros node Hin. apply Hsub. by right.
    + intros k Hk. destruct (amounts w !! k) as [a0|] eqn:Hwk.
      * apply Hw. by rewrite Hwk.
      * eapply rtc_par_mentioned.
        -- eapply Computes_new_keys; [exact Ha|exact Hwk|exact Hk].
        -- left. exists a. split; [|done]. apply Hsub. by left.
Qed.

Lemma calculateNodeAmounts_only_mentioned l console0 m console1 :
  calculateNodeAmounts l console0 = Some (m, console1) -> only_mentioned l m.
Proof.
  unfold calculateNodeAmounts, resolveAll. intros Hcalc.
  destruct (_ ≫= _) as [[[] w1]|] eqn:Hrun; [|done].
  inversion Hcalc; subst m console1; clear Hcalc.
  apply bind_Some in Hrun as ([] & w0 & Hseed & Hpass).
  rewrite forEach_seedRoot in Hseed. inversion Hseed; subst w0; clear Hseed.
  eapply (computeEach_only_mentioned l l); [done|exact Hpass|].
  intros k [v Hv]. cbn [amounts] in Hv.
  apply seeds_lookup_inv in Hv as [Hv|(node & Hin & Hid & _)].
  - by rewrite lookup_empty in Hv.
  - left. by exists node.
Qed.

(** [compute] goes on from an id to the parent its node names only when
    the memo test on the id fails, which it never does on a name of
    [Object.prototype]. *)
Definition step (l : list FlowchartNode) (a b : string) : Prop :=
  inherited a = false /\ par l a b.

(** The ids [compute] is called for: the ids of the nodes, and what is
    reached from them by such steps. *)
Definition reached (l : list FlowchartNode) (k : string) : Prop :=
  exists node, In node l /\ rtc (step l) (id node) k.

(** The ids the first pass stores. *)
Definition seeded (l : list FlowchartNode) (k : string) : Prop :=
  exists node, In node l /\ id node = k /\ parentOf node = None /\
               k <> "__proto__".

(** Every entry was stored by the first pass or by a call of [compute]
    for an id that is no name of [Object.prototype]. *)
Definition justified (l : list FlowchartNode) (m : gmap string JS.number)
  : Prop :=
  forall k, is_Some (m !! k) ->
    reached l k /\ inherited k = false \/ seeded l k.

Lemma Computes_new_reached l n path w v w' :
  Computes l n path w v w' ->
  forall k, amounts w !! k = None -> is_Some (amounts w' !! k) ->
            inherited k = false /\ rtc (step l) n k.
Proof.
  induction 1 as [n p w Hin Hplain|n p w v Hp Hm|n p w Hp Hr Hf
                 |n p w node Hp Hr Hf Hpar
                 |n p w node parent pa w1 Hp Hr Hf Hpar Hrec IH];
    try (pose proof (proj1 (read_None _ _) Hr) as [Hm Hplain]);
    intros k Hk Hk'; cbn [put log amounts] in Hk'.
  - destruct (decide (n = k)) as [->|Hne]; [by split; [|apply rtc_refl]|].
    rewrite lookup_insert_ne, Hk in Hk' by done. by destruct Hk'.
  - rewrite Hk in Hk'. by destruct Hk'.
  - destruct (decide (n = k)) as [->|Hne]; [by split; [|apply rtc_refl]|].
    rewrite lookup_insert_ne, Hk in Hk' by done. by destruct Hk'.
  - destruct (decide (n = k)) as [->|Hne]; [by split; [|apply rtc_refl]|].
    rewrite lookup_insert_ne, Hk in Hk' by done. by destruct Hk'.
  - destruct (decide (n = k)) as [->|Hne]; [by split; [|apply rtc_refl]|].
    rewrite lookup_insert_ne in Hk' by done.
    destruct (IH k Hk Hk') as [Hplaink Hreach]. split; [exact Hplaink|].
    eapply rtc_l; [|exact Hreach]. split; [exact Hplain|]. by exists node.
Qed.

Lemma computeEach_justified l nodes :
  (forall node, In node nodes -> In node l) ->
  forall w w1, computeEach l nodes w = Some (tt, w1) ->
  justified l (amounts w) -> justified l (amounts w1).
Proof.
  induction nodes as [|a nodes IH]; intros Hsub w w1 Hrun Hw.
  - by inversion Hrun; subst.
  - unfold computeEach in Hrun. cbn [forEach] in Hrun.
    apply bind_Some in Hrun as ([] & w2 & Ha & Hrun).
    apply bind_Some in Ha as (v & w3 & Ha & Hr). inversion Hr; subst w3.
    apply compute_Computes in Ha; [|apply plain_path_empty].
    eapply IH; [|exact Hrun|].
    + intros node Hin. apply Hsub. by right.
    + intros k Hk. destruct (amounts w !! k) as [a0|] eqn:Hwk.
      * apply Hw. by rewrite Hwk.
      * destruct (Computes_new_reached _ _ _ _ _ _ Ha k Hwk Hk)
          as [Hplain Hreach].
        left. split; [|exact Hplain]. exists a. split; [|exact Hreach].
        apply Hsub. by left.
Qed.

Lemma calculateNodeAmounts_justified l console0 m console1 :
  calculateNodeAmounts l console0 = Some (m, console1) -> justified l m.
Proof.
  unfold calculateNodeAmounts, resolveAll. intros Hcalc.
  destruct (_ ≫= _) as [[[] w1]|] eqn:Hrun; [|done].
  inversion Hcalc; subst m console1; clear Hcalc.
  apply bind_Some in Hrun as ([] & w0 & Hseed & Hpass).
  rewrite forEach_seedRoot in Hseed. inversion Hseed; subst w0; clear Hseed.
  eapply (computeEach_justified l l); [done|exact Hpass|].
  intros k [v Hv]. cbn [amounts] in Hv. right.
  assert (Hproto : k <> "__proto__").
  { intros ->. by rewrite seeds_proto, lookup_empty in Hv. }
  apply seeds_lookup_inv in Hv as [Hv|(node & Hin & Hid & Hp)].
  - by rewrite lookup_empty in Hv.
  - by exists node.
Qed.

(** *** The amounts are determined by the rules *)

(** What holds of the amount map of a list with unique ids. *)
Definition solves (l : list FlowchartNode) (m : gmap string JS.number)
  : Prop :=
  (forall node, In node l -> parentOf node = None ->
                id node <> "__proto__" ->
                m !! id node = Some (rootAmount node)) /\
  follows_parent l ∅ m /\ missing_zero l m /\ m !! "__proto__" = None.

Lemma chainEnds_ext l l' :
  (forall k, findNode l' k = findNode l k) ->
  forall fuel k, chainEnds l' fuel k = chainEnds l fuel k.
Proof.
  intros Hfind. induction fuel as [|fuel IH]; intros k; cbn [chainEnds];
    rewrite Hfind; [done|].
  destruct (findNode l k) as [node|]; [|done].
  destruct (parentOf node); [apply IH|done].
Qed.

Lemma par_ext l l' a b :
  (forall k, findNode l' k = findNode l k) -> par l' a b -> par l a b.
Proof. intros Hfind (node & Hf & Hp). exists node. by rewrite <- Hfind. Qed.

Lemma cyclic_ext l l' k :
  (forall k, findNode l' k = findNode l k) -> cyclic l k -> cyclic l' k.
Proof.
  intros Hfind. unfold cyclic.
  apply tc_congruence with (f := fun x => x). intros a b Hab.
  eapply par_ext; [|exact Hab]. intros j. by rewrite Hfind.
Qed.

(** Two maps with the same entries that solve the same rules agree
    wherever the parent chain ends. *)
Lemma solution_unique l l' m m' :
  (forall k, findNode l' k = findNode l k) ->
  (forall j, ~ cyclic l j) ->
  (forall k, is_Some (m !! k) <-> is_Some (m' !! k)) ->
  solves l m -> solves l' m' ->
  forall fuel k, chainEnds l fuel k = true ->
  forall v v', m !! k = Some v -> m' !! k = Some v' -> v = v'.
Proof.
  intros Hfind Hacyclic Hdom (Hroots & Hfp & Hmz & Hproto)
         (Hroots' & Hfp' & Hmz' & Hproto').
  assert (Hroot : forall k node v v',
            findNode l k = Some node -> parentOf node = None ->
            m !! k = Some v -> m' !! k = Some v' -> v = v').
  { intros k node v v' Hf Hp Hv Hv'.
    assert (Hk : k <> "__proto__") by (intros ->; congruence).
    pose proof (findNode_id _ _ _ Hf) as Hid. rewrite <- Hid in Hk.
    pose proof (Hroots node (findNode_In _ _ _ Hf) Hp Hk) as H1.
    assert (Hf' : findNode l' k = Some node) by (by rewrite Hfind).
    pose proof (Hroots' node (findNode_In _ _ _ Hf') Hp Hk) as H2.
    rewrite Hid in H1, H2. congruence. }
  induction fuel as [|fuel IH]; intros k Hends v v' Hv Hv';
    cbn [chainEnds] in Hends;
    destruct (findNode l k) as [node|] eqn:Hf.
  - destruct (parentOf node) as [p|] eqn:Hp; [done|]. by eapply Hroot.
  - rewrite (Hmz k v Hf Hv). symmetry. apply (Hmz' k v'); [|done].
    by rewrite Hfind.
  - assert (Hf' : findNode l' k = Some node) by (by rewrite Hfind).
    destruct (parentOf node) as [p|] eqn:Hp; [|by eapply Hroot].
    destruct (Hfp k node p v Hf Hp (Hacyclic k)) as (pa & Hpa & ->);
      [set_solver|exact Hv|].
    destruct (Hfp' k node p v' Hf' Hp) as (pa' & Hpa' & ->);
      [|set_solver|exact Hv'|].
    { intros Hc. apply (Hacyclic k). eapply cyclic_ext; [|exact Hc].
      intros j. by rewrite Hfind. }
    f_equal. unfold read in Hpa, Hpa'. specialize (Hdom p).
    destruct (m !! p) as [a|] eqn:Ha, (m' !! p) as [a'|] eqn:Ha'.
    + inversion Hpa; inversion Hpa'; subst. cbn [toNumber].
      by apply (IH p).
    + exfalso. assert (is_Some (@None JS.number)) as [? [=]].
      apply Hdom. eauto.
    + exfalso. assert (is_Some (@None JS.number)) as [? [=]].
      apply Hdom. eauto.
    + destruct (inherited p); [|done]. by inversion Hpa; inversion Hpa'.
  - rewrite (Hmz k v Hf Hv). symmetry. apply (Hmz' k v'); [|done].
    by rewrite Hfind.
Qed.

(** *** Permuted lists *)

Lemma findNode_Permutation l l' k :
  l ≡ₚ l' -> NoDup (map id l) -> findNode l' k = findNode l k.
Proof.
  intros Hperm Hnodup.
  assert (Hnodup' : NoDup (map id l')).
  { eapply NoDup_Permutation_proper; [|exact Hnodup].
    symmetry. by apply Permutation_map. }
  destruct (findNode l k) as [node|] eqn:Hf.
  - rewrite <- (findNode_id _ _ _ Hf). apply findNode_NoDup; [done|].
    eapply Permutation_in; [exact Hperm|]. by eapply findNode_In.
  - destruct (findNode l' k) as [node'|] eqn:Hf'; [|done]. exfalso.
    assert (findNode l (id node') = Some node') as Hf2.
    { apply findNode_NoDup; [done|].
      eapply Permutation_in; [symmetry; exact Hperm|]. by eapply findNode_In. }
    rewrite (findNode_id _ _ _ Hf') in Hf2. congruence.
Qed.

Lemma mentioned_chainEnds l k :
  NoDup (map id l) -> chainsEnd l = true -> mentioned l k ->
  exists fuel, chainEnds l fuel k = true.
Proof.
  intros Hnodup Hall Hk. unfold chainsEnd in Hall.
  rewrite forallb_forall in Hall.
  destruct Hk as [(node & Hin & <-)|(node & Hin & Hp)].
  - exists (length l). by apply Hall.
  - specialize (Hall node Hin).
    destruct (length l) as [|fuel]; cbn [chainEnds] in Hall;
      rewrite (findNode_NoDup _ _ Hnodup Hin), Hp in Hall; [done|].
    by exists fuel.
Qed.

(** With unique ids and no cycle, the entries are exactly the ids the
    first pass stores and the ids [compute] is called for that are no
    names of [Object.prototype]. *)
Lemma solves_entries l m console0 console1 :
  NoDup (map id l) -> (forall j, ~ cyclic l j) ->
  calculateNodeAmounts l console0 = Some (m, console1) ->
  solves l m /\
  forall k, is_Some (m !! k) <->
            reached l k /\ inherited k = false \/ seeded l k.
Proof.
  intros Hnodup Hacyclic Hrun.
  destruct (calculateNodeAmounts_spec l console0)
    as (m0 & c0 & Hrun0 & Hdom & Hspec).
  assert (m0 = m) as -> by congruence.
  destruct (Hspec Hnodup) as (Hfp & Hroots & _).
  pose proof (calculateNodeAmounts_justified _ _ _ _ Hrun) as Hjust.
  split.
  - split; [exact Hroots|]. split; [exact Hfp|].
    split; [by eapply calculateNodeAmounts_missing_zero|].
    destruct (m !! "__proto__") as [v|] eqn:Hv; [|done]. exfalso.
    destruct (Hjust "__proto__") as [[_ H]|(_ & _ & _ & _ & H)];
      [by rewrite Hv|discriminate H|done].
  - intros k. split; [apply Hjust|].
    intros [[(node & Hin & Hreach) Hplain]|(node & Hin & <- & Hp & Hproto)].
    + revert k Hreach Hplain.
      apply (rtc_ind_r (fun k => inherited k = false -> is_Some (m !! k))).
      * intros Hplain. apply Hdom; [exact Hin|by left].
      * intros a b _ Hstep IH Hplain.
        destruct Hstep as (Hplaina & nd & Hf & Hpar).
        destruct (IH Hplaina) as [v Hv].
        destruct (Hfp a nd b v Hf Hpar (Hacyclic a)) as (pa & Hpa & _);
          [set_solver|exact Hv|].
        rewrite read_plain in Hpa by exact Hplain.
        destruct (m !! b); [done|discriminate Hpa].
    + rewrite (Hroots node Hin Hp Hproto). done.
Qed.

Lemma step_ext l l' a b :
  (forall k, findNode l' k = findNode l k) -> step l a b -> step l' a b.
Proof.
  intros Hfind [Hplain (node & Hf & Hp)]. split; [exact Hplain|].
  exists node. by rewrite Hfind.
Qed.

Lemma reached_Permutation l l' k :
  l ≡ₚ l' -> (forall k, findNode l' k = findNode l k) ->
  reached l k -> reached l' k.
Proof.
  intros Hperm Hfind (node & Hin & Hreach). exists node. split.
  - eapply Permutation_in; [exact Hperm|exact Hin].
  - eapply rtc_subrel; [|exact Hreach]. intros a b. by apply step_ext.
Qed.

Lemma seeded_Permutation l l' k : l ≡ₚ l' -> seeded l k -> seeded l' k.
Proof.
  intros Hperm (node & Hin & H). exists node. split; [|exact H].
  eapply Permutation_in; [exact Hperm|exact Hin].
Qed.

(** X23.  With unique ids and no cycle of parent links, the amounts do
    not depend on the order in which the nodes are listed: the engine
    returns the same amount map, without a warning, for every
    permutation of the list. *)
Theorem node_order_is_irrelevant l l' console0 :
  l ≡ₚ l' -> NoDup (map id l) -> chainsEnd l = true ->
  exists m,
    calculateNodeAmounts l console0 = Some (m, console0) /\
    calculateNodeAmounts l' console0 = Some (m, console0).
Proof.
  intros Hperm Hnodup Hends.
  assert (Hfind : forall k, findNode l' k = findNode l k).
  { intros k. by apply findNode_Permutation. }
  assert (Hnodup' : NoDup (map id l')).
  { eapply NoDup_Permutation_proper; [|exact Hnodup].
    symmetry. by apply Permutation_map. }
  assert (Hends' : chainsEnd l' = true).
  { unfold chainsEnd in *. rewrite forallb_forall in *. intros node Hin.
    rewrite (chainEnds_ext l l' Hfind), <- (Permutation_length Hperm).
    apply Hends. eapply Permutation_in; [symmetry; exact Hperm|exact Hin]. }
  pose proof (chainsEnd_not_cyclic l Hends) as Hacyclic.
  pose proof (chainsEnd_not_cyclic l' Hends') as Hacyclic'.
  destruct (calculateNodeAmounts_quiet l console0 Hacyclic) as (m & Hrun).
  destruct (calculateNodeAmounts_quiet l' console0 Hacyclic') as (m' & Hrun').
  exists m. split; [exact Hrun|]. rewrite Hrun'. do 2 f_equal.
  destruct (solves_entries l m _ _ Hnodup Hacyclic Hrun) as (Hs & He).
  destruct (solves_entries l' m' _ _ Hnodup' Hacyclic' Hrun') as (Hs' & He').
  assert (Hdom : forall k, is_Some (m !! k) <-> is_Some (m' !! k)).
  { intros k. rewrite He, He'. split.
    - intros [[Hr Hp]|Hsd].
      + left. split; [|exact Hp]. by eapply reached_Permutation.
      + right. by eapply seeded_Permutation.
    - intros [[Hr Hp]|Hsd].
      + left. split; [|exact Hp].
        eapply reached_Permutation; [symmetry; exact Hperm| |exact Hr].
        intros j. by rewrite Hfind.
      + right. eapply seeded_Permutation; [symmetry; exact Hperm|exact Hsd]. }
  apply map_eq. intros k.
  destruct (m !! k) as [v|] eqn:Hv, (m' !! k) as [v'|] eqn:Hv'; try done.
  - f_equal. symmetry.
    destruct (mentioned_chainEnds l k Hnodup Hends) as [fuel Hfuel].
    { eapply calculateNodeAmounts_only_mentioned; [exact Hrun|].
      by rewrite Hv. }
    by apply (solution_unique l l' m m' Hfind Hacyclic Hdom Hs Hs' fuel k).
  - exfalso. assert (is_Some (m' !! k)) as [? ?]; [|congruence].
    apply Hdom. by rewrite Hv.
  - exfalso. assert (is_Some (m !! k)) as [? ?]; [|congruence].
    apply Hdom. by rewrite Hv'.
Qed.

Lemma node_order_is_irrelevant_witness :
  exists m,
    calculateNodeAmounts
      [CanvasEditingTheorems.plain "root" None false true [] [1000];
       CanvasEditingTheorems.plain "child" (Some "root") true true [10] [50]]
      [] = Some (m, []) /\
    calculateNodeAmounts
      [CanvasEditingTheorems.plain "child" (Some "root") true true [10] [50];
       CanvasEditingTheorems.plain "root" None false true [] [1000]]
      [] = Some (m, []).
Proof.
  refine (node_order_is_irrelevant
            [CanvasEditingTheorems.plain "root" None false true [] [1000];
             CanvasEditingTheorems.plain "child" (Some "root") true true
               [10] [50]]
            [CanvasEditingTheorems.plain "child" (Some "root") true true
               [10] [50];
             CanvasEditingTheorems.plain "root" None false true [] [1000]]
            [] _ _ eq_refl).
  - apply perm_swap.
  - apply (bool_decide_unpack _). vm_compute. exact I.
Defined.


(** In a cycle the order does matter: of two nodes that name each other,
    the one listed first gets 55 and the other 50. *)
Example cycle_order_matters :
  let a := CanvasEditingTheorems.plain "a" (Some "b") true true [10] [50] in
  let b := CanvasEditingTheorems.plain "b" (Some "a") true true [10] [50] in
  (r ← calculateNodeAmounts [a; b] []; Some (r.1 !! "a", r.1 !! "b"))
  = Some (Some 55, Some 50) /\
  (r ← calculateNodeAmounts [b; a] []; Some (r.1 !! "a", r.1 !! "b"))
  = Some (Some 50, Some 55).
Proof. split; vm_compute; reflexivity. Qed.

End CanvasOrder.

(* ===================================================================== *)
(** ** The canvas built from the data of the tree editor: amounts *)
(* ===================================================================== *)

Module CanvasImportTheorems.
Import PayoutSchema FlowchartCanvas CanvasFacts CanvasFrame CanvasImport.

(** The ids of the imported nodes with their parents, in the order of
    the list, up to [projectLeads] and after its children. *)
Definition treeBefore : list (string * option string) :=
  [("developerPayout", None);
   ("directIcb", Some "developerPayout");
   ("ecb", Some "directIcb");
   ("icb", Some "directIcb");
   ("taggerCombined", Some "developerPayout");
   ("taggerFee", Some "taggerCombined");
   ("taggerKw", Some "taggerFee");
   ("projectSpecialist", Some "taggerKw");
   ("newLaunchTeam", Some "taggerKw");
   ("projectDirector", Some "newLaunchTeam");
   ("projectLeads", Some "newLaunchTeam")].

Definition treeAfter : list (string * option string) :=
  [("kwHq", Some "taggerKw");
   ("taggerEra", Some "taggerFee");
   ("taggerIncentive", Some "taggerCombined");
   ("taggerIncentiveSpecialist", Some "taggerIncentive");
   ("taggerIncentiveEra", Some "taggerIncentive");
   ("eraAgency", Some "developerPayout")].

(** The imported tree when [projectLeads] was expanded into [n] leads:
    the generated leads stand in for the four named leads of the
    template. *)
Definition importedTree (n : nat) : list (string * option string) :=
  treeBefore
  ++ map (fun k => (k, Some "projectLeads"))
         (PayoutTree.leadIds "projectLeads" n)
  ++ treeAfter.

(** *** The run of [addChildren] *)

(** What [addChildren] does for one child, with the recursive call as a
    parameter. *)
Definition visit (rec : string -> JS.number -> JS.number -> M unit)
    (data : InitialData) (parentId : string) (startXPos startY : JS.number)
    (child : nat * string) : M unit :=
  let '(index, childId) := child in
  let childTemplate := lookupNode childId in
  let isDynamicChild := String.prefix "projectLeads_lead_" childId in
  let childLabel :=
    if isDynamicChild
    then Some ("Lead " +:+ default "" (leadNumber childId))
    else option_map PayoutSchema.label childTemplate in
  match childLabel with
  | None => mret tt
  | Some childLabel =>
    let nodeX := startXPos + JS.of_nat index * horizontalSpacing in
    let nodeY := startY + verticalSpacing in
    push (childNode data childId childLabel parentId nodeX nodeY) ;;
    rec childId nodeX nodeY
  end.

Lemma addChildren_unfold data fuel parentId startX startY :
  addChildren data (S fuel) parentId startX startY
  = match lookupNode parentId with
    | None => mret tt
    | Some template =>
      let children := childrenOf data parentId template in
      match children with
      | [] => mret tt
      | _ :: _ =>
        forEach (visit (addChildren data fuel) data parentId
                   (startX - JS.of_nat (length children) * horizontalSpacing / 2
                    + horizontalSpacing / 2) startY)
                (zip (seq 0 (length children)) children)
      end
    end.
Proof. reflexivity. Qed.

(** [addChildren] with the call for [projectLeads] replaced by an
    action. *)
Fixpoint addChildrenAt (leads : JS.number -> JS.number -> M unit)
    (data : InitialData) (fuel : nat) (parentId : string)
    (startX startY : JS.number) : M unit :=
  match fuel with
  | O => overflow
  | S fuel =>
    if bool_decide (parentId = "projectLeads") && (1 <=? fuel)%nat
    then leads startX startY
    else
      match lookupNode parentId with
      | None => mret tt
      | Some template =>
        let children := childrenOf data parentId template in
        match children with
        | [] => mret tt
        | _ :: _ =>
          forEach (visit (addChildrenAt leads data fuel) data parentId
                     (startX
                      - JS.of_nat (length children) * horizontalSpacing / 2
                      + horizontalSpacing / 2) startY)
                  (zip (seq 0 (length children)) children)
        end
      end
  end.

Lemma visit_ext rec rec' data parentId startXPos startY :
  (forall k a b s, rec k a b s = rec' k a b s) ->
  forall children s,
    forEach (visit rec data parentId startXPos startY) children s
    = forEach (visit rec' data parentId startXPos startY) children s.
Proof.
  intros Hrec. induction children as [|[index childId] children IH];
    intros s; cbn [forEach]; [done|].
  unfold mbind, M_bind.
  assert (Hone : visit rec data parentId startXPos startY (index, childId) s
                 = visit rec' data parentId startXPos startY (index, childId) s).
  { unfold visit. destruct (if String.prefix _ _ then _ else _); [|done].
    unfold mbind, M_bind. destruct (push _ s) as [[[] s1]|]; [|done].
    apply Hrec. }
  rewrite Hone. destruct (visit rec' _ _ _ _ _ s) as [[[] s1]|]; [|done].
  apply IH.
Qed.

Lemma addChildrenAt_agrees leads data :
  (forall fuel a b s,
     addChildren data (S (S fuel)) "projectLeads" a b s = leads a b s) ->
  forall fuel parentId a b s,
    addChildren data fuel parentId a b s
    = addChildrenAt leads data fuel parentId a b s.
Proof.
  intros Hleads. induction fuel as [|fuel IH]; intros parentId a b s; [done|].
  cbn [addChildrenAt].
  destruct (bool_decide (parentId = "projectLeads") && (1 <=? fuel)%nat)
    eqn:Hhole.
  - apply andb_true_iff in Hhole as [Hp Hfuel].
    apply bool_decide_eq_true in Hp. subst parentId.
    destruct fuel as [|fuel]; [done|]. apply Hleads.
  - rewrite addChildren_unfold.
    destruct (lookupNode parentId) as [template|]; [|done].
    cbn zeta. destruct (childrenOf data parentId template); [done|].
    apply visit_ext. exact IH.
Qed.

(** The nodes pushed for the generated leads. *)
Definition leadNode (data : InitialData) (startXPos startY : JS.number)
    (child : nat * string) : FlowchartNode :=
  childNode data child.2 ("Lead " +:+ default "" (leadNumber child.2))
            "projectLeads"
            (startXPos + JS.of_nat child.1 * horizontalSpacing)
            (startY + verticalSpacing).

Definition leadNodes (data : InitialData) (ids : list string)
    (startX startY : JS.number) : list FlowchartNode :=
  map (leadNode data
         (startX - JS.of_nat (length ids) * horizontalSpacing / 2
          + horizontalSpacing / 2) startY)
      (zip (seq 0 (length ids)) ids).

Lemma lead_not_template k :
  String.prefix "projectLeads_lead_" k = true -> lookupNode k = None.
Proof.
  intros Hk. destruct (lookupNode k) as [t|] eqn:Ht; [|done]. exfalso.
  unfold lookupNode in Ht.
  destruct (find _ payoutNodes) as [[k' t']|] eqn:Hfind; [|done].
  apply find_some in Hfind as [Hin Hb]. apply bool_decide_eq_true in Hb.
  cbn [fst] in Hb. subst k'.
  assert (Hkeys : In k keys).
  { unfold keys. apply in_map_iff. by exists (k, t'). }
  apply TemplateFacts.keys_not_lead in Hkeys.
  unfold TemplateFacts.leadPrefix in Hkeys. congruence.
Qed.

Lemma visit_leads rec data startXPos startY :
  (forall k a b s, String.prefix "projectLeads_lead_" k = true ->
                   rec k a b s = Some (tt, s)) ->
  forall children s,
    (forall c, In c children ->
               String.prefix "projectLeads_lead_" c.2 = true) ->
    forEach (visit rec data "projectLeads" startXPos startY) children s
    = Some (tt, s ++ map (leadNode data startXPos startY) children).
Proof.
  intros Hrec. induction children as [|[index childId] children IH];
    intros s Hall; cbn [forEach map].
  - by rewrite app_nil_r.
  - assert (Hlead : String.prefix "projectLeads_lead_" childId = true).
    { apply (Hall (index, childId)). by left. }
    unfold mbind, M_bind. unfold visit at 1. rewrite Hlead.
    unfold mbind, M_bind, push. rewrite (Hrec _ _ _ _ Hlead).
    rewrite IH by (intros c Hc; apply Hall; by right).
    by rewrite <- app_assoc.
Qed.

Lemma addChildren_leads data ids fuel startX startY s :
  dynamicChildren data = Some [("projectLeads", ids)] ->
  (forall k, In k ids -> String.prefix "projectLeads_lead_" k = true) ->
  addChildren data (S (S fuel)) "projectLeads" startX startY s
  = Some (tt, s ++ leadNodes data ids startX startY).
Proof.
  intros Hdyn Hids. rewrite addChildren_unfold.
  destruct (lookupNode "projectLeads") as [template|] eqn:Ht;
    [|by vm_compute in Ht].
  assert (Hc : childrenOf data "projectLeads" template = ids).
  { unfold childrenOf. by rewrite Hdyn. }
  cbn zeta. rewrite Hc. clear Hc Hdyn. destruct ids as [|k ids'].
  - by rewrite app_nil_r.
  - set (ids := k :: ids') in *. unfold leadNodes. apply visit_leads.
    + intros c a b s' Hlead. rewrite addChildren_unfold.
      by rewrite (lead_not_template c Hlead).
    + intros [i c] Hin. apply Hids. cbn [snd].
      apply (in_map snd) in Hin. cbn [snd] in Hin.
      rewrite snd_zip in Hin by (rewrite length_seq; lia). exact Hin.
Qed.

(** The data of an editor in which [projectLeads] was expanded into the
    children [ids]. *)
Definition expanded (dp : JS.number) (nv : gmap string PayoutTree.NodeValue)
    (ids : list string) : InitialData :=
  {| developerPayout := dp; nodeValues := nv;
     dynamicChildren := Some [("projectLeads", ids)] |}.

(** The nodes pushed for the templates; those of the first eleven ids
    are pushed before the call for [projectLeads]. *)
Definition trunk (data : InitialData) : list FlowchartNode :=
  match addChildrenAt (fun _ _ => mret tt) data stack rootNodeId 400 50
                      [rootNode data "Developer Payout"] with
  | Some (_, l) => l
  | None => []
  end.

Definition pushAll (after l : list FlowchartNode) : list FlowchartNode :=
  fold_left (fun s n => s ++ [n]) after l.

Lemma pushAll_app after : forall l, pushAll after l = l ++ after.
Proof.
  unfold pushAll. induction after as [|n after IH]; intros l; cbn [fold_left].
  - by rewrite app_nil_r.
  - by rewrite IH, <- app_assoc.
Qed.

Lemma trunk_shape dp nv ids :
  map (fun n => (id n, parentId n)) (trunk (expanded dp nv ids))
  = treeBefore ++ treeAfter.
Proof. vm_compute. reflexivity. Qed.

Lemma trunk_head dp nv ids :
  head (trunk (expanded dp nv ids))
  = Some (rootNode (expanded dp nv ids) "Developer Payout").
Proof. vm_compute. reflexivity. Qed.

Lemma import_around dp nv ids (L : JS.number -> JS.number -> list FlowchartNode) :
  option_map (fun r => map (fun n => (id n, parentId n)) r.2)
    (addChildrenAt (fun a b s => Some (tt, s ++ L a b)) (expanded dp nv ids)
                 stack rootNodeId 400 50
                 [rootNode (expanded dp nv ids) "Developer Payout"])
  = Some (map (fun n => (id n, parentId n))
            (pushAll (drop 11 (trunk (expanded dp nv ids)))
                     (take 11 (trunk (expanded dp nv ids)) ++ L 275 1050))).
Proof. vm_compute. reflexivity. Qed.

Lemma import_around_head dp nv ids
    (L : JS.number -> JS.number -> list FlowchartNode) :
  option_map (fun r => head r.2)
    (addChildrenAt (fun a b s => Some (tt, s ++ L a b)) (expanded dp nv ids)
                 stack rootNodeId 400 50
                 [rootNode (expanded dp nv ids) "Developer Payout"])
  = Some (Some (rootNode (expanded dp nv ids) "Developer Payout")).
Proof. vm_compute. reflexivity. Qed.

Lemma leadNodes_shape data ids startX startY :
  map (fun n => (id n, parentId n)) (leadNodes data ids startX startY)
  = map (fun k => (k, Some "projectLeads")) ids.
Proof.
  unfold leadNodes. rewrite map_map. cbn [leadNode childNode id parentId].
  rewrite <- (map_map snd (fun k => (k, Some "projectLeads"))).
  by rewrite snd_zip by (rewrite length_seq; lia).
Qed.

(** The run of the effect when the children of [projectLeads] are
    generated leads. *)
Lemma import_expanded dp nv ids :
  (forall k, In k ids -> String.prefix "projectLeads_lead_" k = true) ->
  exists l,
    importNodes (expanded dp nv ids) = Some (l, connectionsOf l) /\
    map (fun n => (id n, parentId n)) l
    = treeBefore ++ map (fun k => (k, Some "projectLeads")) ids ++ treeAfter /\
    In (rootNode (expanded dp nv ids) "Developer Payout") l.
Proof.
  intros Hids. set (data := expanded dp nv ids).
  set (L := leadNodes data ids).
  pose proof (import_around dp nv ids L) as Hshape.
  pose proof (import_around_head dp nv ids L) as Hhead.
  fold data in Hshape, Hhead.
  assert (Hrun : forall s,
            addChildren data stack rootNodeId 400 50 s
            = addChildrenAt (fun a b s => Some (tt, s ++ L a b)) data stack
                            rootNodeId 400 50 s).
  { intros s. apply addChildrenAt_agrees. intros fuel a b s'.
    by apply addChildren_leads. }
  unfold importNodes.
  change (match lookupNode rootNodeId with
          | Some rootTemplate =>
              [rootNode data (PayoutSchema.label rootTemplate)]
          | None => []
          end) with [rootNode data "Developer Payout"].
  rewrite Hrun.
  destruct (addChildrenAt _ data stack rootNodeId 400 50 _) as [[[] l]|];
    [|discriminate Hshape].
  cbn [option_map snd] in Hshape, Hhead.
  apply (inj Some) in Hshape as Hshape'. apply (inj Some) in Hhead as Hhead'.
  clear Hshape Hhead.
  exists l. split; [done|]. split.
  - pose proof (trunk_shape dp nv ids) as Htrunk. fold data in Htrunk.
    rewrite Hshape', pushAll_app, !map_app. unfold L.
    rewrite leadNodes_shape.
    change (map ?f (take 11 ?l)) with (f <$> take 11 l).
    change (map ?f (drop 11 ?l)) with (f <$> drop 11 l).
    rewrite fmap_take, fmap_drop.
    change (?f <$> trunk data) with (map f (trunk data)).
    by rewrite Htrunk.
  - destruct l as [|a l]; [done|]. inversion Hhead'. by left.
Qed.

(** *** The engine on the imported nodes *)

(** The depth of an id of the imported tree. *)
Fixpoint depthIn (tree : list (string * option string)) (fuel : nat)
    (k : string) : nat :=
  match fuel with
  | O => O
  | S fuel =>
    match List.find (fun e => bool_decide (e.1 = k)) tree with
    | Some (_, Some p) => S (depthIn tree fuel p)
    | _ => O
    end
  end.

Definition rank (k : string) : nat :=
  if String.prefix "projectLeads_lead_" k then 20
  else depthIn (treeBefore ++ treeAfter) 20 k.

(** What the engine needs of an id with its parent: neither is a name of
    [Object.prototype], and the parent is nearer to the root. *)
Definition sound (e : string * option string) : Prop :=
  inherited e.1 = false /\
  forall p, e.2 = Some p -> inherited p = false /\ (rank p < rank e.1)%nat.

Definition soundb (e : string * option string) : bool :=
  negb (inherited e.1) &&
  match e.2 with
  | Some p => negb (inherited p) && (rank p <? rank e.1)%nat
  | None => true
  end.

Lemma soundb_sound e : soundb e = true -> sound e.
Proof.
  unfold soundb, sound. destruct e as [k [p|]]; cbn [fst snd].
  - intros H. apply andb_true_iff in H as [Hk H].
    apply andb_true_iff in H as [Hp Hr]. apply negb_true_iff in Hk, Hp.
    apply Nat.ltb_lt in Hr. split; [done|]. by intros ? [= <-].
  - intros H. apply andb_true_iff in H as [Hk _].
    apply negb_true_iff in Hk. by split.
Qed.

Lemma lead_plain k :
  String.prefix "projectLeads_lead_" k = true -> inherited k = false.
Proof.
  intros Hk. apply bool_decide_eq_false_2. unfold prototypeNames.
  intros Hin.
  repeat (apply elem_of_cons in Hin as [->|Hin]; [discriminate Hk|]).
  by apply elem_of_nil in Hin.
Qed.

Lemma importedTree_sound n e : In e (importedTree n) -> sound e.
Proof.
  unfold importedTree. intros Hin.
  apply in_app_or in Hin as [Hin|Hin];
    [|apply in_app_or in Hin as [Hin|Hin]].
  - apply soundb_sound. revert e Hin. apply forallb_forall.
    vm_compute. reflexivity.
  - apply in_map_iff in Hin as (k & <- & Hk).
    apply TemplateEditing.leadIds_are_leads in Hk.
    unfold TemplateFacts.leadPrefix in Hk. split; cbn [fst snd].
    + by apply lead_plain.
    + intros p [= <-]. split; [reflexivity|]. unfold rank. rewrite Hk.
      vm_compute. lia.
  - apply soundb_sound. revert e Hin. apply forallb_forall.
    vm_compute. reflexivity.
Qed.

Lemma importedTree_NoDup n : NoDup (map fst (importedTree n)).
Proof.
  unfold importedTree. rewrite !map_app, map_map. cbn [fst].
  rewrite map_id.
  assert (Hboth : NoDup (map fst treeBefore ++ map fst treeAfter)).
  { apply (bool_decide_unpack _). vm_compute. exact I. }
  apply NoDup_app in Hboth as (Hbefore & Hapart & Hafter).
  apply NoDup_app. split; [|split; [|apply NoDup_app; split; [|split]]].
  - exact Hbefore.
  - intros k Hk Hin. apply elem_of_app in Hin as [Hin|Hin].
    + apply list_elem_of_In, TemplateEditing.leadIds_are_leads in Hin.
      unfold TemplateFacts.leadPrefix in Hin. revert Hin.
      cbn [map fst treeBefore] in Hk.
      repeat (apply elem_of_cons in Hk as [->|Hk]; [discriminate|]).
      by apply elem_of_nil in Hk.
    + exact (Hapart k Hk Hin).
  - apply TemplateEditing.leadIds_NoDup.
  - intros k Hin Hk.
    apply list_elem_of_In, TemplateEditing.leadIds_are_leads in Hin.
    unfold TemplateFacts.leadPrefix in Hin. revert Hin.
    cbn [map fst treeAfter] in Hk.
    repeat (apply elem_of_cons in Hk as [->|Hk]; [discriminate|]).
    by apply elem_of_nil in Hk.
  - exact Hafter.
Qed.

Lemma ranked_not_cyclic l (r : string -> nat) :
  (forall a b, par l a b -> (r b < r a)%nat) -> forall j, ~ cyclic l j.
Proof.
  intros Hr.
  assert (Hall : forall a b, tc (par l) a b -> (r b < r a)%nat).
  { induction 1 as [a b Hab|a b c Hab _ IH].
    - by apply Hr.
    - specialize (Hr a b Hab). lia. }
  intros j Hj. specialize (Hall j j Hj). lia.
Qed.

Lemma parentOf_parentId node p : parentOf node = Some p -> parentId node = Some p.
Proof.
  unfold parentOf. destruct (parentId node) as [q|]; [|done].
  destruct (JS.truthy_str _); [|done]. by intros [= <-].
Qed.

(** X24.  Opening the canvas with the data that the tree editor hands
    over, in which [projectLeads] was expanded into [n] generated leads,
    always completes.  It builds one node per template under the root
    and one per generated lead in place of the four leads that the
    template names, each with the parent the tree gives it, and one
    connection per node with a parent.  On these nodes the engine logs no
    warning, resolves the root to the developer payout, and resolves
    every other node, [taggerFee] and the leads included, to its own rule
    applied to the amount resolved for its parent. *)
Theorem import_resolves_against_parents data n console0 :
  dynamicChildren data
  = Some [("projectLeads", PayoutTree.leadIds "projectLeads" n)] ->
  exists l m,
    importNodes data = Some (l, connectionsOf l) /\
    map (fun node => (id node, parentId node)) l = importedTree n /\
    calculateNodeAmounts l console0 = Some (m, console0) /\
    m !! rootNodeId = Some (developerPayout data) /\
    forall node p, In node l -> parentOf node = Some p ->
      exists pa, m !! p = Some pa /\ m !! id node = Some (share node pa).
Proof.
  destruct data as [dp nv dyn]. cbn [dynamicChildren developerPayout].
  intros ->. fold (expanded dp nv (PayoutTree.leadIds "projectLeads" n)).
  destruct (import_expanded dp nv (PayoutTree.leadIds "projectLeads" n))
    as (l & Himport & Hshape & Hroot).
  { intros k Hk. by apply TemplateEditing.leadIds_are_leads in Hk. }
  fold (importedTree n) in Hshape.
  assert (Hsound : forall node, In node l -> sound (id node, parentId node)).
  { intros node Hin. apply (importedTree_sound n). rewrite <- Hshape.
    by apply (in_map (fun node => (id node, parentId node))). }
  assert (Hnodup : NoDup (map id l)).
  { rewrite <- (map_map (fun node => (id node, parentId node)) fst), Hshape.
    apply importedTree_NoDup. }
  assert (Hacyclic : forall j, ~ cyclic l j).
  { apply (ranked_not_cyclic l rank). intros a b (node & Hf & Hp).
    destruct (Hsound node (findNode_In _ _ _ Hf)) as [_ Hparent].
    rewrite <- (findNode_id _ _ _ Hf).
    by apply Hparent, parentOf_parentId. }
  destruct (calculateNodeAmounts_quiet l console0 Hacyclic) as (m & Hrun).
  destruct (calculateNodeAmounts_spec l console0)
    as (m0 & c0 & Hrun0 & Hdom & Hspec).
  assert (m0 = m) as -> by congruence.
  destruct (Hspec Hnodup) as (Hfp & Hroots & _).
  exists l, m. split; [exact Himport|]. split; [exact Hshape|].
  split; [exact Hrun|]. split.
  - by apply (Hroots _ Hroot).
  - intros node p Hin Hp. destruct (Hsound node Hin) as [Hplain Hparent].
    cbn [fst snd] in Hplain, Hparent.
    destruct (Hparent p (parentOf_parentId _ _ Hp)) as [Hplainp _].
    destruct (Hdom node Hin (or_introl Hplain)) as [v Hv].
    destruct (Hfp (id node) node p v) as (pa & Hpa & Heq);
      [apply findNode_NoDup; assumption|exact Hp|apply Hacyclic
      |apply not_elem_of_empty|exact Hv|].
    rewrite read_plain in Hpa by exact Hplainp.
    destruct (m !! p) as [a|]; [|discriminate Hpa].
    inversion Hpa; subst pa. exists a. split; [done|].
    by rewrite Hv, Heq.
Qed.

(** The data of the hypothesis is what the editor hands over: once a
    count is submitted for [projectLeads] in an editor that holds dynamic
    children for no other node, the button is there and hands over
    exactly the generated leads as the children of [projectLeads]. *)
Lemma handed_over_after_submit st total st' :
  PayoutTree.pendingProjectLeadsNode st = Some "projectLeads" ->
  PayoutTree.projectLeadsModalValue st = Some total ->
  JS.gt0 total = true ->
  PayoutTree.dynamicChildren st = [] \/
  (exists ids, PayoutTree.dynamicChildren st = [("projectLeads", ids)]) ->
  PayoutTree.handleSubmitProjectLeadsModal st = Some st' ->
  exists data n,
    PayoutTree.loopRounds total = Some n /\
    commissionFlowData st' = Some data /\
    dynamicChildren data
    = Some [("projectLeads", PayoutTree.leadIds "projectLeads" n)].
Proof.
  intros Hpending Hvalue Htotal Hdyn Hsubmit.
  destruct (TemplateEditing.submit_accepted st "projectLeads" total st'
              Hpending ltac:(discriminate) Hvalue Htotal Hsubmit)
    as (n & Hn & Hchildren & _).
  assert (Hactive : PayoutTree.activeNodeId st' = "projectLeads").
  { revert Hsubmit. unfold PayoutTree.handleSubmitProjectLeadsModal.
    destruct (PayoutTree.nodeAmountsOf st); [|done].
    rewrite Hpending, Hvalue. cbn [default from_option Datatypes.id].
    rewrite (JSFacts.or_else_gt0 _ Htotal), Htotal, Hn.
    cbn [JS.truthy_str]. rewrite bool_decide_eq_false_2 by done.
    cbn [negb andb]. by intros [= <-]. }
  unfold commissionFlowData. rewrite Hactive, bool_decide_eq_true_2 by done.
  eexists _, n. split; [exact Hn|]. split; [reflexivity|].
  cbn [dynamicChildren]. rewrite Hchildren.
  destruct Hdyn as [->|[ids ->]]; cbn [PayoutTree.assign fst];
    [reflexivity|].
  by rewrite bool_decide_eq_true_2.
Qed.

(** The data handed over by the editor of [TemplateEditing.twoAndHalf]:
    a payout of 1,000,000, the default values, and [projectLeads]
    expanded with a count of 2.5 into two leads. *)
Definition handedOver : InitialData :=
  default (expanded 0 ∅ []) (commissionFlowData TemplateEditing.twoAndHalf).

Lemma import_resolves_against_parents_witness :
  commissionFlowData TemplateEditing.twoAndHalf = Some handedOver /\
  exists l m,
    importNodes handedOver = Some (l, connectionsOf l) /\
    map (fun node => (id node, parentId node)) l = importedTree 2 /\
    calculateNodeAmounts l [] = Some (m, []) /\
    m !! rootNodeId = Some (developerPayout handedOver) /\
    forall node p, In node l -> parentOf node = Some p ->
      exists pa, m !! p = Some pa /\ m !! id node = Some (share node pa).
Proof.
  split; [vm_compute; reflexivity|].
  apply (import_resolves_against_parents handedOver 2 []).
  vm_compute. reflexivity.
Defined.

(** With the default values the editor resolves [taggerFee] against the
    developer payout and gives it 3000, and 2550 to [taggerKw]; the canvas
    built from the data it hands over resolves [taggerFee] against the 0
    of [taggerCombined] and gives both 0. *)
Example import_loses_tagger_fee :
  (m ← PayoutTree.nodeAmountsOf TemplateEditing.twoAndHalf;
   Some (m !! "taggerCombined", m !! "taggerFee", m !! "taggerKw"))
  = Some (Some 0, Some 3000, Some 2550) /\
  (r ← importNodes handedOver;
   m ← calculateNodeAmounts r.1 [];
   Some (m.1 !! "taggerCombined", m.1 !! "taggerFee", m.1 !! "taggerKw"))
  = Some (Some 0, Some 0, Some 0).
Proof. split; vm_compute; reflexivity. Qed.

End CanvasImportTheorems.
